(** * Christmas Village: the per-frame update loop of [src/main.js]

    A shallow embedding of the animation and update code of the
    [ChristmasVillage] class: snow accumulation ([addToSnowCover],
    [updateSnow]), the particle systems ([animateSnow],
    [updateParticleSystems]), the path followers ([animateCharacters]), the
    level-of-detail houses ([createDetailedHouses]) and the frame-skipping
    test of [animate].

    Numbers.  A JavaScript number is modelled as a real number: [+], [*],
    [/], [Math.sqrt], [Math.sin], [Math.cos] and [Math.atan2] are the exact
    operations on [R]; the rounding of double precision, NaN and the
    infinities are not modelled (the one [Infinity] of the source, the
    initial [minDistance], is [None]).

    Single precision.  The arrays of the smoke, the fireflies and the mist
    are [Float32Array]s: a store into one keeps the single-precision
    number nearest to the number stored, [Float32.fround], and a read
    gives that number back.  The snow is kept on [R]: what is stated of it
    are its resets and its wrap-around, which test the stored values.

    Randomness.  [Math.random()] reads the next value of a stream of draws
    that is threaded through the code in the order the source calls it. *)

From Stdlib Require Import Reals Lra Lia List.
From stdpp Require Import base list gmap strings.

Open Scope R_scope.

(** ** Comparisons of the source as booleans *)

Definition ltb (a b : R) : bool := if Rlt_dec a b then true else false.
Definition leb (a b : R) : bool := if Rle_dec a b then true else false.
Definition gtb (a b : R) : bool := ltb b a.
Definition geb (a b : R) : bool := leb b a.

(** ** Single precision: the stores into a [Float32Array] *)

Module Float32.

(** The binary exponent of [x]: the [e] with 2^e <= |x| < 2^(e+1), and
    -126, the exponent of the subnormal numbers, when that is below. *)
Definition exponent (x : R) : Z :=
  Z.max (-126) (Int_part (ln (Rabs x) / ln 2)).

(** The spacing of the single-precision numbers at [x]: their
    significand has 24 bits. *)
Definition ulp (x : R) : R := powerRZ 2 (exponent x - 23).

(** The whole number nearest to [y]; of two that are as near, the even
    one. *)
Definition nearestEven (y : R) : Z :=
  let n := Int_part y in
  let rest := y - IZR n in
  if ltb rest (1 / 2) then n
  else if ltb (1 / 2) rest then (n + 1)%Z
  else if Z.even n then n else (n + 1)%Z.

(** [Math.fround(x)], what a store into a [Float32Array] keeps of [x]:
    the nearest single-precision number, ties to even.  A number of
    2^128 or more, which a store turns into [Infinity], is outside the
    model, as the infinities are. *)
Definition fround (x : R) : R := IZR (nearestEven (x / ulp x)) * ulp x.

(** The entries of a [Float32Array] are single-precision numbers: a
    store gives each back as it is. *)
Definition Float32Array (l : list R) : Prop :=
  Forall (fun x => fround x = x) l.

End Float32.

(** ** [Math.random]: a state monad over the stream of draws *)

Module Rng.

Definition stream := nat -> R.

Definition Rand (A : Type) : Type := stream -> A * stream.

Definition ret {A} (a : A) : Rand A := fun g => (a, g).

Definition bind {A B} (m : Rand A) (k : A -> Rand B) : Rand B :=
  fun g => let (a, g') := m g in k a g'.

(** [Math.random()] *)
Definition Math_random : Rand R := fun g => (g 0%nat, fun n => g (S n)).

(** Every draw of [Math.random] lies in [[0, 1)]. *)
Definition unit_draws (g : stream) : Prop := forall n, 0 <= g n < 1.

Definition const (r : R) : stream := fun _ => r.

Definition tl (g : stream) : stream := fun n => g (S n).

Fixpoint drop (k : nat) (g : stream) : stream :=
  match k with
  | O => g
  | S k' => drop k' (tl g)
  end.

End Rng.

Notation "x <- m ;; k" := (Rng.bind m (fun x => k))
  (at level 100, m at next level, right associativity).

(** ** [THREE.Vector3] *)

Record Vector3 : Type := mkV { vx : R; vy : R; vz : R }.

Module Vec.

Definition sub (a b : Vector3) : Vector3 :=
  mkV (vx a - vx b) (vy a - vy b) (vz a - vz b).

Definition add (a b : Vector3) : Vector3 :=
  mkV (vx a + vx b) (vy a + vy b) (vz a + vz b).

Definition multiplyScalar (a : Vector3) (s : R) : Vector3 :=
  mkV (vx a * s) (vy a * s) (vz a * s).

Definition length (a : Vector3) : R :=
  sqrt (vx a * vx a + vy a * vy a + vz a * vz a).

(** [divideScalar(this.length() || 1)]: the zero vector stays zero. *)
Definition normalize (a : Vector3) : Vector3 :=
  let l := length a in
  multiplyScalar a (1 / (if Req_dec_T l 0 then 1 else l)).

Definition distanceTo (a b : Vector3) : R := length (sub a b).

End Vec.

(** ** Snow accumulation: the drifts of [snowAccumulationGroup] *)

Module SnowCover.

(** A drift mesh: the fields of the [THREE.Mesh] that the update code
    reads or writes.  [geomHeight] is [geometry.parameters.height];
    [maxHeight] and [growthRate] are the two [userData] entries. *)
Record Drift : Type := mkDrift {
  position : Vector3;
  scale : Vector3;
  rotationY : R;
  geomRadius : R;
  geomHeight : R;
  geomSegments : nat;
  maxHeight : R;
  growthRate : R
}.

(** [new THREE.Mesh(new THREE.ConeGeometry(radius, height, segments), _)]:
    an [Object3D] starts at the origin, unrotated, with scale (1, 1, 1). *)
Definition Mesh_new (radius height : R) (segments : nat) : Drift :=
  mkDrift (mkV 0 0 0) (mkV 1 1 1) 0 radius height segments 0 0.

(** The growth block shared by [addToSnowCover] and [updateSnow]:
    [if (drift.scale.y < drift.userData.maxHeight) { ... }]. *)
Definition growDrift (d : Drift) : Drift :=
  if ltb (vy (scale d)) (maxHeight d) then
    let sy := vy (scale d) + growthRate d in
    let sx := vx (scale d) + growthRate d * 0.5 in
    let sz := vz (scale d) + growthRate d * 0.5 in
    mkDrift
      (mkV (vx (position d)) (geomHeight d * sy / 2) (vz (position d)))
      (mkV sx sy sz)
      (rotationY d) (geomRadius d) (geomHeight d) (geomSegments d)
      (maxHeight d) (growthRate d)
  else d.

(** The three locals of [addToSnowCover] that the [forEach] assigns.
    [nearestDrift] is the index of the drift object in [children];
    [minDistance = None] is [Infinity]. *)
Record Scan : Type := mkScan {
  foundExisting : bool;
  nearestDrift : option nat;
  minDistance : option R
}.

Definition radius : R := 2.

Definition planarDistance (d : Drift) (x z : R) : R :=
  sqrt ((vx (position d) - x) ^ 2 + (vz (position d) - z) ^ 2).

Definition belowMin (distance : R) (m : option R) : bool :=
  match m with
  | None => true
  | Some m' => ltb distance m'
  end.

(** One call of the [forEach] callback, on the drift at index [i]. *)
Definition scanStep (x z : R) (i : nat) (drift : Drift) (acc : Scan) : Scan :=
  let distance := planarDistance drift x z in
  if ltb distance radius then
    if belowMin distance (minDistance acc)
    then mkScan true (Some i) (Some distance)
    else mkScan true (nearestDrift acc) (minDistance acc)
  else acc.

Fixpoint scanFrom (x z : R) (i : nat) (children : list Drift) (acc : Scan)
  : Scan :=
  match children with
  | [] => acc
  | drift :: rest => scanFrom x z (S i) rest (scanStep x z i drift acc)
  end.

Definition scanChildren (x z : R) (children : list Drift) : Scan :=
  scanFrom x z 0 children (mkScan false None None).

(** The [else if (Math.random() < 0.05)] branch, after the test. *)
Definition spawnDrift (x z : R) : Rng.Rand Drift :=
  r1 <- Rng.Math_random ;;
  let height := 0.2 + r1 * 0.2 in
  let drift := Mesh_new 0.5 height 8 in
  r2 <- Rng.Math_random ;;
  r3 <- Rng.Math_random ;;
  Rng.ret
    (mkDrift (mkV x (height / 2) z) (scale drift) (r2 * PI)
       (geomRadius drift) (geomHeight drift) (geomSegments drift)
       (height * 2) (0.0001 + r3 * 0.0001)).

Definition addToSnowCover (x z : R) (children : list Drift)
  : Rng.Rand (list Drift) :=
  let s := scanChildren x z children in
  match foundExisting s, nearestDrift s with
  | true, Some i =>
      match children !! i with
      | Some nearest => Rng.ret (<[i := growDrift nearest]> children)
      | None => Rng.ret children
      end
  | _, _ =>
      r <- Rng.Math_random ;;
      if ltb r 0.05 then
        drift <- spawnDrift x z ;;
        Rng.ret (children ++ [drift])
      else Rng.ret children
  end.

(** The first loop of [updateSnow]: each drift grows with a 1% chance. *)
Fixpoint growDrifts (children : list Drift) : Rng.Rand (list Drift) :=
  match children with
  | [] => Rng.ret []
  | drift :: rest =>
      r <- Rng.Math_random ;;
      let drift' := if ltb r 0.01 then growDrift drift else drift in
      rest' <- growDrifts rest ;;
      Rng.ret (drift' :: rest')
  end.

(** One round of the loop of [createInitialSnowDrifts]. *)
Definition initialDrift : Rng.Rand Drift :=
  r1 <- Rng.Math_random ;;
  let radius := r1 * 2 + 1 in
  r2 <- Rng.Math_random ;;
  let height := r2 * 0.3 + 0.1 in
  r3 <- Rng.Math_random ;;
  let segments := (Z.to_nat (Int_part (r3 * 6)) + 6)%nat in
  let drift := Mesh_new radius height segments in
  r4 <- Rng.Math_random ;;
  r5 <- Rng.Math_random ;;
  r6 <- Rng.Math_random ;;
  r7 <- Rng.Math_random ;;
  Rng.ret
    (mkDrift (mkV ((r4 - 0.5) * 80) (height / 2) ((r5 - 0.5) * 80))
       (scale drift) (r6 * PI)
       (geomRadius drift) (geomHeight drift) (geomSegments drift)
       (height * 2) (0.0001 + r7 * 0.0001)).

Fixpoint initialDrifts (n : nat) : Rng.Rand (list Drift) :=
  match n with
  | O => Rng.ret []
  | S n' =>
      drift <- initialDrift ;;
      rest <- initialDrifts n' ;;
      Rng.ret (drift :: rest)
  end.

Definition numInitialDrifts : nat := 100.

(** [createInitialSnowDrifts()], on the empty [snowAccumulationGroup]. *)
Definition createInitialSnowDrifts : Rng.Rand (list Drift) :=
  initialDrifts numInitialDrifts.

(** *** The vocabulary of the statements about the scan *)

(** The drift lies within the radius of the impact point. *)
Definition within (x z : R) (d : Drift) : Prop :=
  planarDistance d x z < radius.

(** [i] is the drift that the scan of [addToSnowCover] selects in [l]:
    within the radius, at least as near as every other such drift, and
    the first of those at its distance. *)
Definition nearestWithin (x z : R) (l : list Drift) (i : nat) (d : Drift)
  : Prop :=
  l !! i = Some d /\ within x z d /\
  forall j d', l !! j = Some d' -> within x z d' ->
    planarDistance d x z <= planarDistance d' x z /\
    ((j < i)%nat -> planarDistance d x z < planarDistance d' x z).

Definition noneWithin (x z : R) (l : list Drift) : Prop :=
  forall j d, l !! j = Some d -> ~ within x z d.

(** What the three locals hold when the [forEach] has visited [l]. *)
Definition scanned (x z : R) (l : list Drift) (acc : Scan) : Prop :=
  match nearestDrift acc with
  | None =>
      foundExisting acc = false /\ minDistance acc = None /\
      noneWithin x z l
  | Some i =>
      foundExisting acc = true /\
      exists d, nearestWithin x z l i d /\
                minDistance acc = Some (planarDistance d x z)
  end.

(** *** The vocabulary of the statements about growth *)

(** [d'] is a later state of the drift [d]: the same [userData], a
    scale.y that is not smaller, and not above [maxHeight + growthRate]
    unless it was there before. *)
Definition grownFrom (d d' : Drift) : Prop :=
  maxHeight d' = maxHeight d /\ growthRate d' = growthRate d /\
  vy (scale d) <= vy (scale d') /\
  vy (scale d') <= Rmax (vy (scale d)) (maxHeight d + growthRate d).

Definition ratesNonneg (l : list Drift) : Prop :=
  forall i d, l !! i = Some d -> 0 <= growthRate d.

(** [l'] is a later state of the collection [l]: every drift of [l] is
    still at its index, in a later state. *)
Definition coverGrown (l l' : list Drift) : Prop :=
  forall i d, l !! i = Some d -> exists d', l' !! i = Some d' /\ grownFrom d d'.

(** The growth block leaves the drift as it is: its scale.y is not below
    its [maxHeight]. *)
Definition inert (d : Drift) : Prop := maxHeight d <= vy (scale d).

(** The drift is as the code makes a drift: at scale.y 1, the scale of a
    new mesh, with a [maxHeight], twice the height of its cone, below
    0.8. *)
Definition asMade (d : Drift) : Prop :=
  vy (scale d) = 1 /\ maxHeight d < 0.8.

(** What every operation on the collection keeps, [r] being its result
    and the stream of draws it leaves. *)
Definition keepsCover (children : list Drift) (r : list Drift * Rng.stream)
  : Prop :=
  Rng.unit_draws (snd r) /\ ratesNonneg (fst r) /\ coverGrown children (fst r).

End SnowCover.

(** ** The particle systems *)

Module Particles.

(** *** Falling snow: [this.snow]

    [positions] is the [Float32Array] of the position attribute and
    [velocities] is [userData.velocities]: three consecutive entries per
    snowflake.  Both arrays are created with the same length, a multiple
    of three; on any other shape the model stops the loop. *)

Definition wrapEdge (p : R) : R :=
  let p1 := if gtb p 60 then -60 else p in
  if ltb p1 (-60) then 60 else p1.

Fixpoint animateSnowLoop (time : R) (positions velocities : list R)
  : Rng.Rand (list R * list R) :=
  match positions, velocities with
  | x :: y :: z :: ps, vx :: vy :: vz :: vs =>
      let windX := sin (time * 0.5) * 0.1 in
      let windZ := cos (time * 0.3) * 0.1 in
      let x1 := x + (vx + windX) in
      let y1 := y + vy in
      let z1 := z + (vz + windZ) in
      flake <-
        (if ltb y1 0 then
           r1 <- Rng.Math_random ;;
           r2 <- Rng.Math_random ;;
           r3 <- Rng.Math_random ;;
           r4 <- Rng.Math_random ;;
           r5 <- Rng.Math_random ;;
           Rng.ret ((r1 - 0.5) * 120, 80, (r2 - 0.5) * 120,
                    ((r3 - 0.5) * 0.2, - r4 * 0.3 - 0.2, (r5 - 0.5) * 0.2))
         else Rng.ret (x1, y1, z1, (vx, vy, vz))) ;;
      let '(x2, y2, z2, (vx2, vy2, vz2)) := flake in
      rest <- animateSnowLoop time ps vs ;;
      Rng.ret (wrapEdge x2 :: y2 :: wrapEdge z2 :: fst rest,
               vx2 :: vy2 :: vz2 :: snd rest)
  | _, _ => Rng.ret (positions, velocities)
  end.

Record Snow : Type := mkSnow {
  snowPositions : list R;
  snowVelocities : list R
}.

(** [animateSnow()]; [time] is [this.clock.getElapsedTime()]. *)
Definition animateSnow (time : R) (snow : option Snow)
  : Rng.Rand (option Snow) :=
  match snow with
  | Some s =>
      r <- animateSnowLoop time (snowPositions s) (snowVelocities s) ;;
      Rng.ret (Some (mkSnow (fst r) (snd r)))
  | None => Rng.ret None
  end.

(** The second loop of [updateSnow]: a flake with [y <= 0] is added to
    the snow cover and put back at height 50. *)
Fixpoint settleSnowLoop (children : list SnowCover.Drift)
    (positions velocities : list R)
  : Rng.Rand (list SnowCover.Drift * (list R * list R)) :=
  match positions, velocities with
  | x :: y :: z :: ps, vx :: vy :: vz :: vs =>
      if leb y 0 then
        children1 <- SnowCover.addToSnowCover x z children ;;
        r1 <- Rng.Math_random ;;
        r2 <- Rng.Math_random ;;
        r3 <- Rng.Math_random ;;
        r4 <- Rng.Math_random ;;
        r5 <- Rng.Math_random ;;
        rest <- settleSnowLoop children1 ps vs ;;
        Rng.ret (fst rest,
                 ((r1 - 0.5) * 100 :: 50 :: (r2 - 0.5) * 100 :: fst (snd rest),
                  (r3 - 0.5) * 0.1 :: - r4 * 0.5 - 0.1 :: (r5 - 0.5) * 0.1
                    :: snd (snd rest)))
      else
        rest <- settleSnowLoop children ps vs ;;
        Rng.ret (fst rest,
                 (x :: y :: z :: fst (snd rest),
                  vx :: vy :: vz :: snd (snd rest)))
  | _, _ => Rng.ret (children, (positions, velocities))
  end.

(** [updateSnow()] *)
Definition updateSnow (children : list SnowCover.Drift) (snow : option Snow)
  : Rng.Rand (list SnowCover.Drift * option Snow) :=
  children1 <- SnowCover.growDrifts children ;;
  match snow with
  | Some s =>
      r <- settleSnowLoop children1 (snowPositions s) (snowVelocities s) ;;
      Rng.ret (fst r, Some (mkSnow (fst (snd r)) (snd (snd r))))
  | None => Rng.ret (children1, None)
  end.

(** No flake of the array is below the ground. *)
Fixpoint aboveGround (positions : list R) : Prop :=
  match positions with
  | _ :: y :: _ :: rest => 0 <= y /\ aboveGround rest
  | _ => True
  end.

(** *** Chimney smoke *)

Record Smoke : Type := mkSmoke {
  smokePositions : list R;
  smokeVelocities : list R;
  smokeLifetimes : list R
}.

(** The loop over the particles of one chimney.  [positions],
    [velocities] and [lifetimes] are [Float32Array]s: [+=] stores the
    rounded sum, and the test of the lifetime reads the stored one. *)
Fixpoint smokeLoop (deltaTime : R) (positions velocities lifetimes : list R)
  : Rng.Rand (list R * list R) :=
  match positions, velocities, lifetimes with
  | x :: y :: z :: ps, vx :: vy :: vz :: vs, life :: ls =>
      let life1 := Float32.fround (life + deltaTime) in
      if geb life1 1 then
        r1 <- Rng.Math_random ;;
        r2 <- Rng.Math_random ;;
        rest <- smokeLoop deltaTime ps vs ls ;;
        Rng.ret (Float32.fround ((r1 - 0.5) * 0.1) :: 0
                   :: Float32.fround ((r2 - 0.5) * 0.1) :: fst rest,
                 0 :: snd rest)
      else
        rest <- smokeLoop deltaTime ps vs ls ;;
        Rng.ret (Float32.fround (x + vx * deltaTime)
                   :: Float32.fround (y + vy * deltaTime)
                   :: Float32.fround (z + vz * deltaTime) :: fst rest,
                 life1 :: snd rest)
  | _, _, _ => Rng.ret (positions, lifetimes)
  end.

Definition updateSmoke (deltaTime : R) (smoke : Smoke) : Rng.Rand Smoke :=
  r <- smokeLoop deltaTime (smokePositions smoke) (smokeVelocities smoke)
         (smokeLifetimes smoke) ;;
  Rng.ret (mkSmoke (fst r) (smokeVelocities smoke) (snd r)).

(** [this.chimneySmoke.forEach(smoke => ...)] *)
Fixpoint updateChimneySmoke (deltaTime : R) (systems : list Smoke)
  : Rng.Rand (list Smoke) :=
  match systems with
  | [] => Rng.ret []
  | smoke :: rest =>
      smoke' <- updateSmoke deltaTime smoke ;;
      rest' <- updateChimneySmoke deltaTime rest ;;
      Rng.ret (smoke' :: rest')
  end.

(** *** Fireflies *)

Record Fireflies : Type := mkFireflies {
  fireflyPositions : list R;
  fireflySizes : list R
}.

(** [idx] is [i / 3], the number of the firefly.  [positions] and
    [sizes] are [Float32Array]s. *)
Fixpoint firefliesLoop (time : R) (idx : nat) (positions sizes : list R)
  : Rng.Rand (list R * list R) :=
  match positions, sizes with
  | x :: y :: z :: ps, _ :: ss =>
      r <- Rng.Math_random ;;
      let size := (sin (time * 2 + INR idx) * 0.1 + 0.2) * (r * 0.2 + 0.9) in
      rest <- firefliesLoop time (S idx) ps ss ;;
      Rng.ret (x :: Float32.fround (y + sin (time + INR idx) * 0.002) :: z
                 :: fst rest,
               Float32.fround size :: snd rest)
  | _, _ => Rng.ret (positions, sizes)
  end.

Definition updateFireflies (time : R) (f : Fireflies) : Rng.Rand Fireflies :=
  r <- firefliesLoop time 0 (fireflyPositions f) (fireflySizes f) ;;
  Rng.ret (mkFireflies (fst r) (snd r)).

(** *** Ground mist *)

(** [Math.atan2(y, x)] on finite arguments: the angle in (-PI, PI] of
    the point (x, y), and 0 at the origin. *)
Definition Math_atan2 (y x : R) : R :=
  if ltb 0 x then atan (y / x)
  else if ltb x 0 then
    (if leb 0 y then atan (y / x) + PI else atan (y / x) - PI)
  else if ltb 0 y then PI / 2
  else if ltb y 0 then - (PI / 2)
  else 0.

Record Mist : Type := mkMist {
  mistPositions : list R;
  mistVelocities : list R
}.

Definition mistBoundary : R := 40.

(** The body of the mist loop, on the particle whose first entry has
    array index [i].  [positions] is a [Float32Array]: the three [+=]
    store the rounded sums, the radius and the angle are computed from
    the stored [x1] and [z1], and the point of the boundary is stored
    rounded. *)
Definition mistStep (time : R) (i : nat) (x y z vx vz : R) : R * R * R :=
  let x1 := Float32.fround (x + vx) in
  let y1 := Float32.fround (y + sin (time + INR i) * 0.001) in
  let z1 := Float32.fround (z + vz) in
  let radius := sqrt (x1 * x1 + z1 * z1) in
  if gtb radius mistBoundary then
    let angle := Math_atan2 z1 x1 in
    (Float32.fround (cos angle * 40), y1, Float32.fround (sin angle * 40))
  else (x1, y1, z1).

(** [i] is the loop variable of the source, the array index: it goes up
    by three. *)
Fixpoint mistLoop (time : R) (i : nat) (positions velocities : list R)
  : list R :=
  match positions, velocities with
  | x :: y :: z :: ps, vx :: vy :: vz :: vs =>
      let '(x', y', z') := mistStep time i x y z vx vz in
      x' :: y' :: z' :: mistLoop time (i + 3) ps vs
  | _, _ => positions
  end.

Definition updateMist (time : R) (m : Mist) : Mist :=
  mkMist (mistLoop time 0 (mistPositions m) (mistVelocities m))
    (mistVelocities m).

(** *** [updateParticleSystems(deltaTime)] *)

Record Systems : Type := mkSystems {
  chimneySmoke : list Smoke;
  fireflies : option Fireflies;
  groundMist : option Mist
}.

(** [fireflyTime] and [mistTime] are the two readings of
    [this.clock.getElapsedTime()], one in the firefly block and one in the
    mist block. *)
Definition updateParticleSystems (deltaTime fireflyTime mistTime : R)
    (sys : Systems)
  : Rng.Rand Systems :=
  smoke' <- updateChimneySmoke deltaTime (chimneySmoke sys) ;;
  fireflies' <-
    match fireflies sys with
    | Some f => f' <- updateFireflies fireflyTime f ;; Rng.ret (Some f')
    | None => Rng.ret None
    end ;;
  let mist' :=
    match groundMist sys with
    | Some m => Some (updateMist mistTime m)
    | None => None
    end in
  Rng.ret (mkSystems smoke' fireflies' mist').

(** One [updateParticleSystems(deltaTime)] per pair of clock readings of
    [times]. *)
Fixpoint runParticleSystems (deltaTime : R) (times : list (R * R))
    (sys : Systems)
  : Rng.Rand Systems :=
  match times with
  | [] => Rng.ret sys
  | t :: rest =>
      sys' <- updateParticleSystems deltaTime (fst t) (snd t) sys ;;
      runParticleSystems deltaTime rest sys'
  end.

(** Every smoke particle of every chimney is still in its life. *)
Definition smokeAlive (sys : Systems) : Prop :=
  Forall (fun smoke => Forall (fun life => life < 1) (smokeLifetimes smoke))
    (chimneySmoke sys).

(** The positions and the lifetimes of every chimney's smoke are
    [Float32Array]s, as [createSmokeSystem] makes them. *)
Definition float32Smoke (sys : Systems) : Prop :=
  Forall (fun smoke => Float32.Float32Array (smokePositions smoke) /\
                       Float32.Float32Array (smokeLifetimes smoke))
    (chimneySmoke sys).

(** The calls that touch the drift collection: [addToSnowCover(x, z)]
    and [updateSnow()], the latter with the snow it finds. *)
Inductive CoverOp : Type :=
| Impact (x z : R)
| Update (snow : option Snow).

Definition coverOp (op : CoverOp) (children : list SnowCover.Drift)
  : Rng.Rand (list SnowCover.Drift) :=
  match op with
  | Impact x z => SnowCover.addToSnowCover x z children
  | Update snow => r <- updateSnow children snow ;; Rng.ret (fst r)
  end.

Fixpoint coverOps (ops : list CoverOp) (children : list SnowCover.Drift)
  : Rng.Rand (list SnowCover.Drift) :=
  match ops with
  | [] => Rng.ret children
  | op :: rest =>
      children' <- coverOp op children ;;
      coverOps rest children'
  end.

End Particles.

(** ** Path followers: the elves and Santa *)

Module PathFollower.

(** The part of a character [Group] that [animateCharacters] touches.
    [lookTarget] is the point last passed to [lookAt], which turns the
    character to face it; the four limb fields are the [rotation.x] of
    the arm and leg meshes. *)
Record Character : Type := mkCharacter {
  position : Vector3;
  lookTarget : option Vector3;
  leftArm : R;
  rightArm : R;
  leftLeg : R;
  rightLeg : R;
  path : list Vector3;
  pathIndex : nat;
  moveSpeed : R
}.

Definition nextIndex (c : Character) : nat :=
  ((pathIndex c + 1) mod List.length (path c))%nat.

(** The translation of one tick:
    [nextPoint.clone().sub(currentPoint)], normalized, times [moveSpeed]. *)
Definition stepVector (currentPoint nextPoint : Vector3) (speed : R)
  : Vector3 :=
  Vec.multiplyScalar (Vec.normalize (Vec.sub nextPoint currentPoint)) speed.

(** The body run for one character.  [freq] and [amp] are the limb
    constants: 5 and 0.5 for an elf, 4 and 0.3 for Santa.  Reading a
    point that [path] does not have is a [TypeError] in the source:
    [None]. *)
Definition animateCharacter (freq amp time : R) (c : Character)
  : option Character :=
  match path c !! pathIndex c, path c !! nextIndex c with
  | Some currentPoint, Some nextPoint =>
      let position' :=
        Vec.add (position c) (stepVector currentPoint nextPoint (moveSpeed c)) in
      let swing := sin (time * freq) * amp in
      let pathIndex' :=
        if ltb (Vec.distanceTo position' nextPoint) 0.1
        then nextIndex c else pathIndex c in
      Some (mkCharacter position' (Some nextPoint)
              swing (- swing) (- swing) swing
              (path c) pathIndex' (moveSpeed c))
  | _, _ => None
  end.

Definition animateElf := animateCharacter 5 0.5.
Definition animateSanta := animateCharacter 4 0.3.

Fixpoint animateElves (time : R) (elves : list Character)
  : option (list Character) :=
  match elves with
  | [] => Some []
  | elf :: rest =>
      match animateElf time elf with
      | Some elf' =>
          match animateElves time rest with
          | Some rest' => Some (elf' :: rest')
          | None => None
          end
      | None => None
      end
  end.

(** [animateCharacters()] *)
Definition animateCharacters (time : R) (elves : list Character)
    (santa : option Character)
  : option (list Character * option Character) :=
  match animateElves time elves with
  | Some elves' =>
      match santa with
      | Some s =>
          match animateSanta time s with
          | Some s' => Some (elves', Some s')
          | None => None
          end
      | None => Some (elves', None)
      end
  | None => None
  end.

(** One tick per clock reading of [times], on one character. *)
Fixpoint run (freq amp : R) (times : list R) (c : Character)
  : option Character :=
  match times with
  | [] => Some c
  | t :: rest =>
      match animateCharacter freq amp t c with
      | Some c' => run freq amp rest c'
      | None => None
      end
  end.

(** The arrival test of the tick that starts in [c]: the distance from
    the translated position to the upcoming waypoint is below 0.1. *)
Definition arrives (c : Character) : bool :=
  match path c !! pathIndex c, path c !! nextIndex c with
  | Some currentPoint, Some nextPoint =>
      ltb (Vec.distanceTo
             (Vec.add (position c)
                (stepVector currentPoint nextPoint (moveSpeed c)))
             nextPoint) 0.1
  | _, _ => false
  end.

(** The number of ticks of [run] whose arrival test succeeds. *)
Fixpoint arrivals (freq amp : R) (times : list R) (c : Character) : nat :=
  match times with
  | [] => 0
  | t :: rest =>
      match animateCharacter freq amp t c with
      | Some c' =>
          ((if arrives c then 1 else 0) + arrivals freq amp rest c')%nat
      | None => 0
      end
  end.

(** A closed path as [generateRandomPath] builds it, with four corners
    for its ten, and an elf that starts on it. *)
Definition squarePath : list Vector3 :=
  [ mkV 20 0 0; mkV 0 0 20; mkV (-20) 0 0; mkV 0 0 (-20); mkV 20 0 0 ].

Definition squareElf : Character :=
  mkCharacter (mkV 20 0 0) None 0 0 0 0 squarePath 0 0.03.

End PathFollower.

(** ** Level of detail of the houses *)

Module LOD.

Inductive Detail : Type := HighDetail | MediumDetail | LowDetail.

Record Level : Type := mkLevel { object : Detail; distance : R }.

(** The three [houseLOD.addLevel(model, distance)] calls of
    [createDetailedHouses], in the order of the source. *)
Definition houseLevels : list Level :=
  [ mkLevel HighDetail 0; mkLevel MediumDetail 50; mkLevel LowDetail 100 ].

(** Modelled from the spec: [THREE.LOD.update(camera)], which [animate]
    calls on every LOD object, belongs to the three.js package and is not
    part of the sources.  The spec's contract: "select the level whose
    threshold is the greatest value <= distance", "ties broken by
    preferring the higher-detail (lower-threshold) level", the levels
    being in ascending order; no level is at or below the distance when
    the result is [None]. *)
Fixpoint selectFrom (best : option Level) (levels : list Level) (d : R)
  : option Level :=
  match levels with
  | [] => best
  | l :: rest =>
      let best' :=
        if leb (distance l) d then
          match best with
          | None => Some l
          | Some b => if ltb (distance b) (distance l) then Some l else best
          end
        else best in
      selectFrom best' rest d
  end.

Definition selectLevel (levels : list Level) (d : R) : option Detail :=
  option_map object (selectFrom None levels d).

End LOD.

(** ** The frame loop: [animate] *)

Module Frame.

(** Truncation towards zero, as in the [%] of JavaScript. *)
Definition truncate (r : R) : Z :=
  if Rle_dec 0 r then Int_part r else (- Int_part (- r))%Z.

(** [a % b] on finite numbers, [b] not zero: the result has the sign of
    [a]. *)
Definition jsRem (a b : R) : R := a - b * IZR (truncate (a / b)).

(** [const frameSkip = time % 2 < deltaTime;] *)
Definition frameSkip (time deltaTime : R) : bool :=
  ltb (jsRem time 2) deltaTime.

(** What one call of [animate] reads from the two clocks:
    [clock.getDelta()], the [clock.getElapsedTime()] of [animate] and of
    the three update functions it calls, and [performance.now()]. *)
Record Readings : Type := mkReadings {
  deltaTime : R;
  time : R;
  currentTime : R;
  snowTime : R;
  characterTime : R;
  fireflyTime : R;
  mistTime : R
}.

Record Village : Type := mkVillage {
  lastFrameTime : option R;
  drifts : list SnowCover.Drift;
  snow : option Particles.Snow;
  systems : Particles.Systems;
  elves : list PathFollower.Character;
  santa : option PathFollower.Character
}.

Definition targetFPS : R := 60.
Definition frameTime : R := 1000 / targetFPS.

(** [!this.lastFrameTime || currentTime - this.lastFrameTime >= frameTime] *)
Definition frameDue (v : Village) (now : R) : bool :=
  match lastFrameTime v with
  | None => true
  | Some last => if Req_dec_T last 0 then true else geb (now - last) frameTime
  end.

(** The callback queued with [Promise.resolve().then]: it runs when the
    synchronous part of [animate] has returned. *)
Definition secondaryUpdates (r : Readings) (v : Village) : Rng.Rand Village :=
  systems' <-
    Particles.updateParticleSystems (deltaTime r * 2) (fireflyTime r)
      (mistTime r)
      (systems v) ;;
  cover <- Particles.updateSnow (drifts v) (snow v) ;;
  Rng.ret (mkVillage (lastFrameTime v) (fst cover) (snd cover) systems'
             (elves v) (santa v)).

(** One call of [animate()].  The renderer, the camera controls, the
    tweens, the LOD pass and the audio are not part of the state.  A
    [TypeError] of [animateCharacters] is [None]. *)
Definition animate (r : Readings) (v : Village) : Rng.Rand (option Village) :=
  if frameDue v (currentTime r) then
    snow' <- Particles.animateSnow (snowTime r) (snow v) ;;
    match PathFollower.animateCharacters (characterTime r) (elves v) (santa v)
    with
    | Some (elves', santa') =>
        let v1 :=
          mkVillage (Some (currentTime r)) (drifts v) snow' (systems v)
            elves' santa' in
        if frameSkip (time r) (deltaTime r) then
          v2 <- secondaryUpdates r v1 ;;
          Rng.ret (Some v2)
        else Rng.ret (Some v1)
    | None => Rng.ret None
    end
  else Rng.ret (Some v).

(** A village with no drift yet and one snowflake, 0.1 above the ground
    and falling by 0.2 a frame; and the readings of a frame that the
    frame-skipping test lets through, two seconds in. *)
Definition flakeVillage : Village :=
  mkVillage None []
    (Some (Particles.mkSnow [0; 0.1; 0] [0; -0.2; 0]))
    (Particles.mkSystems [] None None) [] None.

Definition evenSecond : Readings := mkReadings (1 / 60) 2 2000 2 2 2 2.

End Frame.

(** ** Setting the snow up and running it *)

Module SnowFall.

(** The loop of [createSnow], for [n] flakes: a position and a velocity
    per flake, from six draws. *)
Fixpoint createFlakes (n : nat) : Rng.Rand (list R * list R) :=
  match n with
  | O => Rng.ret ([], [])
  | S n' =>
      r1 <- Rng.Math_random ;;
      r2 <- Rng.Math_random ;;
      r3 <- Rng.Math_random ;;
      r4 <- Rng.Math_random ;;
      r5 <- Rng.Math_random ;;
      r6 <- Rng.Math_random ;;
      rest <- createFlakes n' ;;
      Rng.ret ((r1 - 0.5) * 120 :: r2 * 80 :: (r3 - 0.5) * 120 :: fst rest,
               (r4 - 0.5) * 0.2 :: - r5 * 0.3 - 0.2 :: (r6 - 0.5) * 0.2
                 :: snd rest)
  end.

(** [new Float32Array(3000 * 3)] *)
Definition numFlakes : nat := 3000.

(** [createSnow()] *)
Definition createSnow : Rng.Rand Particles.Snow :=
  r <- createFlakes numFlakes ;;
  Rng.ret (Particles.mkSnow (fst r) (snd r)).

(** The calls that move the snow. *)
Inductive SnowOp : Type :=
| AnimateSnow (time : R)
| UpdateSnow.

Definition snowOp (op : SnowOp)
    (st : list SnowCover.Drift * option Particles.Snow)
  : Rng.Rand (list SnowCover.Drift * option Particles.Snow) :=
  match op with
  | AnimateSnow time =>
      s <- Particles.animateSnow time (snd st) ;; Rng.ret (fst st, s)
  | UpdateSnow => Particles.updateSnow (fst st) (snd st)
  end.

Fixpoint snowOps (ops : list SnowOp)
    (st : list SnowCover.Drift * option Particles.Snow)
  : Rng.Rand (list SnowCover.Drift * option Particles.Snow) :=
  match ops with
  | [] => Rng.ret st
  | op :: rest => st' <- snowOp op st ;; snowOps rest st'
  end.

(** The two arrays hold whole flakes, as many in the one as in the other;
    every flake is inside the box of 120 by 80 by 120 and falls. *)
Fixpoint flakesInBox (positions velocities : list R) : Prop :=
  match positions, velocities with
  | x :: y :: z :: ps, _ :: vy :: _ :: vs =>
      -60 <= x <= 60 /\ 0 <= y <= 80 /\ -60 <= z <= 60 /\ vy < 0 /\
      flakesInBox ps vs
  | [], [] => True
  | _, _ => False
  end.

(** Every whole flake of the array is above the ground. *)
Fixpoint strictlyAbove (positions : list R) : Prop :=
  match positions with
  | _ :: y :: _ :: rest => 0 < y /\ strictlyAbove rest
  | _ => True
  end.

End SnowFall.

(** ** The drifts at the start, and where drifts are *)

Module DriftSites.

(** What [createInitialSnowDrifts] gives every drift. *)
Definition initialShape (d : SnowCover.Drift) : Prop :=
  -40 <= vx (SnowCover.position d) < 40 /\
  -40 <= vz (SnowCover.position d) < 40 /\
  vy (SnowCover.position d) = SnowCover.geomHeight d / 2 /\
  SnowCover.scale d = mkV 1 1 1 /\
  1 <= SnowCover.geomRadius d < 3 /\
  0.1 <= SnowCover.geomHeight d < 0.4 /\
  (6 <= SnowCover.geomSegments d <= 11)%nat /\
  SnowCover.maxHeight d = SnowCover.geomHeight d * 2 /\
  0.0001 <= SnowCover.growthRate d < 0.0002.

(** The ground point of a drift. *)
Definition site (d : SnowCover.Drift) : R * R :=
  (vx (SnowCover.position d), vz (SnowCover.position d)).

Definition sites (l : list SnowCover.Drift) : list (R * R) := map site l.

(** The point [s] is at least the radius of [addToSnowCover] away from
    every point of [others]. *)
Definition farFrom (s : R * R) (others : list (R * R)) : Prop :=
  Forall (fun t => SnowCover.radius
                   <= sqrt ((fst t - fst s) ^ 2 + (snd t - snd s) ^ 2))
    others.

(** Each point of [extra], in turn, is far from [base] and from the
    points of [extra] before it. *)
Fixpoint spacedAfter (base extra : list (R * R)) : Prop :=
  match extra with
  | [] => True
  | s :: rest => farFrom s base /\ spacedAfter (base ++ [s]) rest
  end.

End DriftSites.

(** ** Setting the particle systems up *)

Module ParticleSetup.

(** The loop of [createSmokeSystem], for [n] particles: positions,
    velocities, lifetimes and sizes, four [Float32Array]s, from seven
    draws a particle. *)
Fixpoint smokeParticles (n : nat)
  : Rng.Rand (list R * list R * list R * list R) :=
  match n with
  | O => Rng.ret ([], [], [], [])
  | S n' =>
      r1 <- Rng.Math_random ;;
      r2 <- Rng.Math_random ;;
      r3 <- Rng.Math_random ;;
      r4 <- Rng.Math_random ;;
      r5 <- Rng.Math_random ;;
      r6 <- Rng.Math_random ;;
      r7 <- Rng.Math_random ;;
      rest <- smokeParticles n' ;;
      let '(ps, vs, ls, ss) := rest in
      Rng.ret (Float32.fround ((r1 - 0.5) * 0.1) :: 0
                 :: Float32.fround ((r2 - 0.5) * 0.1) :: ps,
               Float32.fround ((r3 - 0.5) * 0.02)
                 :: Float32.fround (r4 * 0.05 + 0.05)
                 :: Float32.fround ((r5 - 0.5) * 0.02) :: vs,
               Float32.fround r6 :: ls,
               Float32.fround (r7 * 0.5 + 0.5) :: ss)
  end.

(** [createSmokeSystem()]: the smoke and its size attribute, which no
    update writes. *)
Definition createSmokeSystem : Rng.Rand (Particles.Smoke * list R) :=
  r <- smokeParticles 20 ;;
  let '(ps, vs, ls, ss) := r in
  Rng.ret (Particles.mkSmoke ps vs ls, ss).

(** The loop of [createFireflies]: four draws a firefly; positions and
    sizes are [Float32Array]s. *)
Fixpoint fireflyParticles (n : nat) : Rng.Rand (list R * list R) :=
  match n with
  | O => Rng.ret ([], [])
  | S n' =>
      r1 <- Rng.Math_random ;;
      let angle := r1 * PI * 2 in
      r2 <- Rng.Math_random ;;
      let radius := 20 + r2 * 30 in
      r3 <- Rng.Math_random ;;
      let height := r3 * 5 + 1 in
      r4 <- Rng.Math_random ;;
      rest <- fireflyParticles n' ;;
      Rng.ret (Float32.fround (cos angle * radius) :: Float32.fround height
                 :: Float32.fround (sin angle * radius) :: fst rest,
               Float32.fround (r4 * 0.2 + 0.1) :: snd rest)
  end.

(** [createFireflies()] *)
Definition createFireflies : Rng.Rand Particles.Fireflies :=
  r <- fireflyParticles 20 ;;
  Rng.ret (Particles.mkFireflies (fst r) (snd r)).

(** The loop of [createGroundMist]: seven draws a particle; positions,
    velocities and sizes are [Float32Array]s. *)
Fixpoint mistParticles (n : nat) : Rng.Rand (list R * list R * list R) :=
  match n with
  | O => Rng.ret ([], [], [])
  | S n' =>
      r1 <- Rng.Math_random ;;
      let angle := r1 * PI * 2 in
      r2 <- Rng.Math_random ;;
      let radius := r2 * 40 in
      r3 <- Rng.Math_random ;;
      let height := r3 * 0.5 in
      r4 <- Rng.Math_random ;;
      r5 <- Rng.Math_random ;;
      r6 <- Rng.Math_random ;;
      r7 <- Rng.Math_random ;;
      rest <- mistParticles n' ;;
      let '(ps, vs, ss) := rest in
      Rng.ret (Float32.fround (cos angle * radius) :: Float32.fround height
                 :: Float32.fround (sin angle * radius) :: ps,
               Float32.fround ((r4 - 0.5) * 0.01)
                 :: Float32.fround ((r5 - 0.5) * 0.001)
                 :: Float32.fround ((r6 - 0.5) * 0.01) :: vs,
               Float32.fround (r7 * 2 + 1) :: ss)
  end.

(** [createGroundMist()]: the mist and its size attribute. *)
Definition createGroundMist : Rng.Rand (Particles.Mist * list R) :=
  r <- mistParticles 100 ;;
  let '(ps, vs, ss) := r in
  Rng.ret (Particles.mkMist ps vs, ss).

(** Every whole particle of the array is within the mist boundary of the
    origin, over the ground, up to the 0.00001 that the rounding of a
    store can put it outside. *)
Fixpoint insideBoundary (positions : list R) : Prop :=
  match positions with
  | x :: _ :: z :: rest =>
      sqrt (x * x + z * z) <= Particles.mistBoundary + 0.00001 /\
      insideBoundary rest
  | _ => True
  end.

(** The three arrays of a smoke system hold whole particles, as many in
    each. *)
Definition smokeShaped (smoke : Particles.Smoke) : Prop :=
  length (Particles.smokePositions smoke)
  = (3 * length (Particles.smokeLifetimes smoke))%nat /\
  length (Particles.smokeVelocities smoke)
  = length (Particles.smokePositions smoke).

(** Every whole particle of the array is at the height [h]. *)
Fixpoint atHeight (h : R) (positions : list R) : Prop :=
  match positions with
  | _ :: y :: _ :: rest => y = h /\ atHeight h rest
  | _ => True
  end.

(** From [before] to [after] every firefly has kept its x and z, and one
    that is no more than 63 high has moved by no more than 0.00201 in
    height: the 0.002 of the sine term and the rounding of the store. *)
Fixpoint firefliesHover (before after : list R) : Prop :=
  match before, after with
  | x :: y :: z :: ps, x' :: y' :: z' :: ps' =>
      x' = x /\ z' = z /\ (Rabs y <= 63 -> Rabs (y' - y) <= 0.00201) /\
      firefliesHover ps ps'
  | [], [] => True
  | _, _ => False
  end.

End ParticleSetup.

(** ** Setting the characters up *)

Module Cast.

Definition numPoints : nat := 10.

Definition pathRadius : R := 20.

(** The loop of [generateRandomPath], from round [i] on, for [n] rounds:
    two draws a point. *)
Fixpoint pathPoints (i n : nat) : Rng.Rand (list Vector3) :=
  match n with
  | O => Rng.ret []
  | S n' =>
      let angle := INR i / INR numPoints * PI * 2 in
      r1 <- Rng.Math_random ;;
      let x := cos angle * pathRadius * (0.8 + r1 * 0.4) in
      r2 <- Rng.Math_random ;;
      let z := sin angle * pathRadius * (0.8 + r2 * 0.4) in
      rest <- pathPoints (S i) n' ;;
      Rng.ret (mkV x 0 z :: rest)
  end.

(** [generateRandomPath()].  [path.push(path[0].clone())] closes the
    path; with its ten points the path has a first one. *)
Definition generateRandomPath : Rng.Rand (list Vector3) :=
  path <- pathPoints 0 numPoints ;;
  match path with
  | first :: _ => Rng.ret (path ++ [first])
  | [] => Rng.ret path
  end.

(** The loop of [createElves], from elf [i] on, for [n] elves.  An elf
    from [createElf] is a group at the origin whose limbs are not
    turned. *)
Fixpoint elvesFrom (i n : nat) : Rng.Rand (list PathFollower.Character) :=
  match n with
  | O => Rng.ret []
  | S n' =>
      r1 <- Rng.Math_random ;;
      let radius := 15 + r1 * 10 in
      let startAngle := INR i / 8 * PI * 2 in
      path <- generateRandomPath ;;
      r2 <- Rng.Math_random ;;
      rest <- elvesFrom (S i) n' ;;
      Rng.ret
        (PathFollower.mkCharacter
           (mkV (cos startAngle * radius) 0 (sin startAngle * radius))
           None 0 0 0 0 path 0 (0.02 + r2 * 0.02)
         :: rest)
  end.

(** [createElves()], on the empty [this.elves]. *)
Definition createElves : Rng.Rand (list PathFollower.Character) :=
  elvesFrom 0 8.

(** [createSanta()]: the group is left at the origin.  The four limb
    fields are the [rotation.x] of the children 6 to 9, of which the last
    is built with [rotation.x = Math.PI / 2]. *)
Definition createSanta : Rng.Rand PathFollower.Character :=
  path <- generateRandomPath ;;
  Rng.ret (PathFollower.mkCharacter (mkV 0 0 0) None 0 0 0 (PI / 2)
             path 0 0.03).

(** A point of a path: on the ground, within 24 of the origin along
    both axes. *)
Definition onGround (p : Vector3) : Prop :=
  vy p = 0 /\ -24 <= vx p <= 24 /\ -24 <= vz p <= 24.

(** One [animateCharacters()] per clock reading of [times]. *)
Fixpoint runCast (times : list R) (elves : list PathFollower.Character)
    (santa : option PathFollower.Character)
  : option (list PathFollower.Character * option PathFollower.Character) :=
  match times with
  | [] => Some (elves, santa)
  | t :: rest =>
      match PathFollower.animateCharacters t elves santa with
      | Some (elves', santa') => runCast rest elves' santa'
      | None => None
      end
  end.

(** *** The meshes of a character *)

Inductive Part : Type :=
| Body | Head | Beard | Hat | PomPom
| LeftArm | RightArm | LeftLeg | RightLeg
| Belt | Buckle | Bag.

(** A child mesh of a character group: what it is, and its
    [rotation.x]. *)
Record Child : Type := mkChild { part : Part; rotationX : R }.

(** The children of the group that [createElf] returns, in the order of
    its [elf.add] calls. *)
Definition elfChildren : list Child :=
  [ mkChild Body 0; mkChild Head 0; mkChild Hat 0;
    mkChild LeftArm 0; mkChild RightArm 0;
    mkChild LeftLeg 0; mkChild RightLeg 0 ].

(** The children of the group that [createSanta] builds, in the order of
    its [santa.add] calls. *)
Definition santaChildren : list Child :=
  [ mkChild Body 0; mkChild Head 0; mkChild Beard 0; mkChild Hat 0;
    mkChild PomPom 0;
    mkChild LeftArm 0; mkChild RightArm 0;
    mkChild LeftLeg 0; mkChild RightLeg 0;
    mkChild Belt (PI / 2); mkChild Buckle 0; mkChild Bag 0 ].

Definition turn (c : Child) (angle : R) : Child := mkChild (part c) angle.

(** The limb block of [animateCharacters] on the children of a group:
    [leftArm], [rightArm], [leftLeg] and [rightLeg] are the children
    [first] to [first + 3].  A child that is not there is [undefined], and
    writing its rotation a [TypeError]: [None]. *)
Definition swingLimbs (first : nat) (swing : R) (children : list Child)
  : option (list Child) :=
  match children !! first, children !! (first + 1)%nat,
        children !! (first + 2)%nat, children !! (first + 3)%nat with
  | Some leftArm, Some rightArm, Some leftLeg, Some rightLeg =>
      Some (<[(first + 3)%nat := turn rightLeg swing]>
              (<[(first + 2)%nat := turn leftLeg (- swing)]>
                 (<[(first + 1)%nat := turn rightArm (- swing)]>
                    (<[first := turn leftArm swing]> children))))
  | _, _, _, _ => None
  end.

(** [children[3]] for an elf, [children[6]] for Santa. *)
Definition elfFirstLimb : nat := 3.
Definition santaFirstLimb : nat := 6.

(** The limb block, once per clock reading of [times]: the swing is
    [Math.sin(time * freq) * amp]. *)
Fixpoint runLimbs (first : nat) (freq amp : R) (times : list R)
    (children : list Child) : option (list Child) :=
  match times with
  | [] => Some children
  | time :: rest =>
      match swingLimbs first (sin (time * freq) * amp) children with
      | Some children' => runLimbs first freq amp rest children'
      | None => None
      end
  end.

(** *** Where a walk leads *)

Definition dot (a b : Vector3) : R :=
  vx a * vx b + vy a * vy b + vz a * vz b.

(** The square of the distance of [P] from the line through the
    waypoints [A] and [B] (from [B] itself when the two are one point). *)
Definition offLineSq (A B P : Vector3) : R :=
  let w := Vec.sub P B in
  let u := Vec.normalize (Vec.sub B A) in
  dot w w - dot w u * dot w u.

(** A character on a path of three points, well off its first leg. *)
Definition strayWalker : PathFollower.Character :=
  PathFollower.mkCharacter (mkV 0 0 10) None 0 0 0 0
    [mkV 0 0 0; mkV 3 0 4; mkV 0 0 0] 0 0.03.

End Cast.

(** ** The caches *)

Module Caches.

(** The options of a [THREE.MeshStandardMaterial] that the houses and the
    trees set. *)
Record Material : Type := mkMaterial {
  color : Z;
  roughness : R;
  metalness : R;
  flatShading : bool
}.

(** [getMaterial(key, createMaterial)] on [this.materialCache]: the
    material returned and the cache after the call. *)
Definition getMaterial (key : string) (createMaterial : unit -> Material)
    (materialCache : gmap string Material)
  : Material * gmap string Material :=
  match materialCache !! key with
  | Some m => (m, materialCache)
  | None =>
      let m := createMaterial tt in
      (m, <[key := m]> materialCache)
  end.

(** A sequence of [getMaterial] calls: the materials returned, in order,
    and the cache at the end. *)
Fixpoint getMaterials (requests : list (string * (unit -> Material)))
    (materialCache : gmap string Material)
  : list Material * gmap string Material :=
  match requests with
  | [] => ([], materialCache)
  | (key, createMaterial) :: rest =>
      let (m, cache1) := getMaterial key createMaterial materialCache in
      let (ms, cache2) := getMaterials rest cache1 in
      (m :: ms, cache2)
  end.

(** The two [getMaterial] calls of [createHouse(isHighDetail)]. *)
Definition houseRequests (isHighDetail : bool)
  : list (string * (unit -> Material)) :=
  [ ("building"%string,
     fun _ => mkMaterial 0xcc8866 0.7 0.1 (negb isHighDetail));
    ("roof"%string,
     fun _ => mkMaterial 0x883333 0.6 0.1 (negb isHighDetail)) ].

(** The three [getMaterial] calls of [createTree(isHighDetail)]. *)
Definition treeRequests (isHighDetail : bool)
  : list (string * (unit -> Material)) :=
  [ ("trunk"%string,
     fun _ => mkMaterial 0x4d2926 0.8 0.1 (negb isHighDetail));
    ("needles"%string,
     fun _ => mkMaterial 0x0d3d0d 0.8 0.1 (negb isHighDetail));
    ("snow"%string,
     fun _ => mkMaterial 0xffffff 0.9 0.1 (negb isHighDetail)) ].

(** The calls of a [forEach] that makes, at each of [n] positions, the
    high-detail model and then the medium-detail one. *)
Fixpoint lodRequests (requests : bool -> list (string * (unit -> Material)))
    (n : nat) : list (string * (unit -> Material)) :=
  match n with
  | O => []
  | S n' => requests true ++ requests false ++ lodRequests requests n'
  end.

(** The calls of [createDetailedHouses] with [houses] positions followed
    by those of [createDetailedTrees] with [trees] positions. *)
Definition villageRequests (houses trees : nat)
  : list (string * (unit -> Material)) :=
  lodRequests houseRequests houses ++ lodRequests treeRequests trees.

(** The first request of [requests] for [key], if any. *)
Fixpoint firstRequest (key : string)
    (requests : list (string * (unit -> Material)))
  : option (unit -> Material) :=
  match requests with
  | [] => None
  | (key', createMaterial) :: rest =>
      if decide (key' = key) then Some createMaterial
      else firstRequest key rest
  end.

End Caches.

(** ** The frame counter *)

Module Monitor.

(** [Math.round]: to the nearest integer, a half going up. *)
Definition Math_round (x : R) : Z := Int_part (x + 0.5).

Record PerformanceMonitor : Type := mkMonitor {
  lastTime : R;
  frames : nat;
  fps : Z
}.

(** [beginFrame()]; [currentTime] is [performance.now()]. *)
Definition beginFrame (currentTime : R) (m : PerformanceMonitor)
  : PerformanceMonitor :=
  let frames1 := S (frames m) in
  if gtb currentTime (lastTime m + 1000) then
    mkMonitor currentTime 0
      (Math_round (INR frames1 * 1000 / (currentTime - lastTime m)))
  else mkMonitor (lastTime m) frames1 (fps m).

(** One [beginFrame()] per reading of [times]. *)
Definition beginFrames (times : list R) (m : PerformanceMonitor)
  : PerformanceMonitor :=
  fold_left (fun m t => beginFrame t m) times m.

(** The readings of [n] calls that are [d] apart, the first one [d] after
    [t0]. *)
Definition steady (t0 d : R) (n : nat) : list R :=
  map (fun i => t0 + INR i * d) (seq 1 n).

End Monitor.

(** ** Placing the trees *)

Module Trees.

(** The [x] and [z] of the twelve houses of [createDetailedHouses]. *)
Definition housePositions : list (R * R) :=
  [ (-15, -15); (-8, -8); (0, -12); (8, -8); (15, -15); (-12, 0);
    (12, 0); (-15, 15); (-8, 8); (0, 12); (8, 8); (15, 15) ].

Definition numTrees : nat := 50.

Definition minDistance : R := 5.

Definition planar (x z : R) (p : R * R) : R :=
  let dx := x - fst p in
  let dz := z - snd p in
  sqrt (dx * dx + dz * dz).

(** The two [for] loops of one attempt: [validPosition] stays [true] when
    no house and no tree placed so far is nearer than [minDistance]. *)
Definition validPosition (x z : R) (houses treePositions : list (R * R))
  : bool :=
  forallb (fun p => negb (ltb (planar x z p) minDistance)) houses
  && forallb (fun p => negb (ltb (planar x z p) minDistance)) treePositions.

(** The [while (!validPosition)] loop for one tree, with [fuel] attempts
    at most: [None] when they are used up. *)
Fixpoint placeTree (fuel : nat) (houses treePositions : list (R * R))
  : Rng.Rand (option (R * R)) :=
  match fuel with
  | O => Rng.ret None
  | S fuel' =>
      r1 <- Rng.Math_random ;;
      r2 <- Rng.Math_random ;;
      let x := (r1 - 0.5) * 90 in
      let z := (r2 - 0.5) * 90 in
      if validPosition x z houses treePositions
      then Rng.ret (Some (x, z))
      else placeTree fuel' houses treePositions
  end.

(** The first loop of [createDetailedTrees], for [n] more trees. *)
Fixpoint placeTrees (fuel n : nat) (houses treePositions : list (R * R))
  : Rng.Rand (option (list (R * R))) :=
  match n with
  | O => Rng.ret (Some treePositions)
  | S n' =>
      placed <- placeTree fuel houses treePositions ;;
      match placed with
      | Some p => placeTrees fuel n' houses (treePositions ++ [p])
      | None => Rng.ret None
      end
  end.

Definition generateTreePositions (fuel : nat) (houses : list (R * R))
  : Rng.Rand (option (list (R * R))) :=
  placeTrees fuel numTrees houses [].

(** Each point of [extra], in turn, is at least [minDistance] from every
    point of [houses], of [base] and of [extra] before it, and inside the
    square of 90 by 90. *)
Fixpoint wellPlaced (houses base extra : list (R * R)) : Prop :=
  match extra with
  | [] => True
  | p :: rest =>
      Forall (fun h => minDistance <= planar (fst p) (snd p) h) houses /\
      Forall (fun t => minDistance <= planar (fst p) (snd p) t) base /\
      -45 <= fst p < 45 /\ -45 <= snd p < 45 /\
      wellPlaced houses (base ++ [p]) rest
  end.

End Trees.

(** * Properties *)

(** ** The comparisons *)

Lemma ltb_true a b : ltb a b = true <-> a < b.
Proof. unfold ltb. destruct (Rlt_dec a b); split; (done || lra). Qed.

Lemma ltb_false a b : ltb a b = false <-> b <= a.
Proof. unfold ltb. destruct (Rlt_dec a b); split; (done || lra). Qed.

Lemma leb_true a b : leb a b = true <-> a <= b.
Proof. unfold leb. destruct (Rle_dec a b); split; (done || lra). Qed.

Lemma leb_false a b : leb a b = false <-> b < a.
Proof. unfold leb. destruct (Rle_dec a b); split; (done || lra). Qed.

(** Rewrites the comparisons of the goal that linear arithmetic settles. *)
Ltac rdecide :=
  repeat (match goal with
          | |- context [ltb ?a ?b] =>
              first [ rewrite (proj2 (ltb_true a b)) by lra
                    | rewrite (proj2 (ltb_false a b)) by lra ]
          | |- context [leb ?a ?b] =>
              first [ rewrite (proj2 (leb_true a b)) by lra
                    | rewrite (proj2 (leb_false a b)) by lra ]
          end; simpl).

Lemma Rabs_le_both x a : Rabs x <= a -> - a <= x <= a.
Proof. unfold Rabs. destruct (Rcase_abs x); lra. Qed.

(** ** Single precision *)

Section SinglePrecision.

Import Float32.

Lemma Int_part_between r n : IZR n <= r < IZR n + 1 -> Int_part r = n.
Proof.
  intros [Hlo Hhi]. unfold Int_part.
  assert ((n + 1)%Z = up r) as <-; [|lia].
  apply tech_up; rewrite plus_IZR; lra.
Qed.

Lemma pow2_pos e : 0 < powerRZ 2 e.
Proof. apply powerRZ_lt. lra. Qed.

Lemma pow2_add a b : powerRZ 2 (a + b) = powerRZ 2 a * powerRZ 2 b.
Proof. apply powerRZ_add. lra. Qed.

Lemma pow2_exp e : powerRZ 2 e = exp (IZR e * ln 2).
Proof. rewrite powerRZ_Rpower by lra. reflexivity. Qed.

Lemma ln2_pos : 0 < ln 2.
Proof. pose proof ln_lt_2. lra. Qed.

Lemma pow2_lt a b : (a < b)%Z -> powerRZ 2 a < powerRZ 2 b.
Proof.
  intros H. rewrite !pow2_exp. apply exp_increasing.
  apply Rmult_lt_compat_r; [apply ln2_pos | by apply IZR_lt].
Qed.

Lemma pow2_le a b : (a <= b)%Z -> powerRZ 2 a <= powerRZ 2 b.
Proof.
  intros H. destruct (Z.eq_dec a b) as [->|Hne]; [lra|].
  left. apply pow2_lt. lia.
Qed.

Lemma pow2_lt_inv a b : powerRZ 2 a < powerRZ 2 b -> (a < b)%Z.
Proof.
  intros H. destruct (Z_lt_le_dec a b) as [Hlt|Hge]; [done|].
  pose proof (pow2_le b a Hge). lra.
Qed.

(** A power of two with an exponent that is not negative is a whole
    number. *)
Lemma pow2_IZR k : (0 <= k)%Z -> powerRZ 2 k = IZR (2 ^ k).
Proof.
  intros Hk. rewrite <- (Z2Nat.id k Hk).
  by rewrite <- pow_powerRZ, pow_IZR.
Qed.

(** The binade of a number other than 0. *)
Lemma log2_bounds x :
  x <> 0 ->
  powerRZ 2 (Int_part (ln (Rabs x) / ln 2)) <= Rabs x
  < powerRZ 2 (Int_part (ln (Rabs x) / ln 2) + 1).
Proof.
  intros Hx. assert (0 < Rabs x) as Ha by (by apply Rabs_pos_lt).
  pose proof ln2_pos as H2.
  destruct (base_Int_part (ln (Rabs x) / ln 2)) as [Hlo Hhi].
  set (L := Int_part (ln (Rabs x) / ln 2)) in *.
  assert (IZR L * ln 2 <= ln (Rabs x)) as Hlo'.
  { apply (Rmult_le_compat_r (ln 2)) in Hlo; [|lra].
    replace (ln (Rabs x) / ln 2 * ln 2) with (ln (Rabs x)) in Hlo
      by (field; lra). done. }
  assert (ln (Rabs x) < IZR (L + 1) * ln 2) as Hhi'.
  { rewrite plus_IZR.
    assert (ln (Rabs x) / ln 2 < IZR L + 1) as H by lra.
    apply (Rmult_lt_compat_r (ln 2)) in H; [|lra].
    replace (ln (Rabs x) / ln 2 * ln 2) with (ln (Rabs x)) in H
      by (field; lra). done. }
  rewrite !pow2_exp. pose proof (exp_ln (Rabs x) Ha) as Hexp.
  split.
  - destruct Hlo' as [Hlt|Heq].
    + apply exp_increasing in Hlt. lra.
    + rewrite Heq. lra.
  - apply exp_increasing in Hhi'. lra.
Qed.

Lemma log2_unique x e :
  powerRZ 2 e <= Rabs x < powerRZ 2 (e + 1) ->
  Int_part (ln (Rabs x) / ln 2) = e.
Proof.
  intros [Hlo Hhi].
  assert (x <> 0) as Hx.
  { intros ->. rewrite Rabs_R0 in Hlo. pose proof (pow2_pos e). lra. }
  destruct (log2_bounds x Hx) as [Hlo' Hhi'].
  set (L := Int_part (ln (Rabs x) / ln 2)) in *.
  assert (e < L + 1)%Z by (apply pow2_lt_inv; lra).
  assert (L < e + 1)%Z by (apply pow2_lt_inv; lra).
  lia.
Qed.

Lemma exponent_normal x e :
  (-126 <= e)%Z -> powerRZ 2 e <= Rabs x < powerRZ 2 (e + 1) ->
  exponent x = e.
Proof.
  intros He H. unfold exponent. rewrite (log2_unique x e H). lia.
Qed.

Lemma exponent_min x : (-126 <= exponent x)%Z.
Proof. unfold exponent. lia. Qed.

Lemma ulp_pos x : 0 < ulp x.
Proof. apply pow2_pos. Qed.

(** Below its exponent's next power of two. *)
Lemma exponent_above x : x <> 0 -> Rabs x < powerRZ 2 (exponent x + 1).
Proof.
  intros Hx. destruct (log2_bounds x Hx) as [_ Hhi].
  eapply Rlt_le_trans; [exact Hhi|]. apply pow2_le. unfold exponent. lia.
Qed.

(** The spacing at [x] against the size of [x]. *)
Lemma ulp_bound x :
  x <> 0 -> ulp x <= powerRZ 2 (-23) * Rabs x + powerRZ 2 (-149).
Proof.
  intros Hx. destruct (log2_bounds x Hx) as [Hlo _].
  unfold ulp, exponent.
  set (L := Int_part (ln (Rabs x) / ln 2)) in *.
  pose proof (pow2_pos (-149)). pose proof (pow2_pos (-23)).
  pose proof (Rabs_pos x).
  destruct (Z_le_gt_dec (-126) L) as [Hn|Hs].
  - rewrite Z.max_r by done.
    replace (L - 23)%Z with (-23 + L)%Z by lia. rewrite pow2_add. nra.
  - rewrite Z.max_l by lia. change (-126 - 23)%Z with (-149)%Z. nra.
Qed.

Lemma nearestEven_near y : Rabs (IZR (nearestEven y) - y) <= 1 / 2.
Proof.
  unfold nearestEven. destruct (base_Int_part y) as [Hlo Hhi].
  set (n := Int_part y) in *.
  destruct (ltb (y - IZR n) (1 / 2)) eqn:E1;
    [apply ltb_true in E1 | apply ltb_false in E1].
  { apply Rabs_le. lra. }
  destruct (ltb (1 / 2) (y - IZR n)) eqn:E2;
    [apply ltb_true in E2 | apply ltb_false in E2].
  { rewrite plus_IZR. apply Rabs_le. lra. }
  destruct (Z.even n); [|rewrite plus_IZR]; apply Rabs_le; lra.
Qed.

Lemma nearestEven_eval y m : Rabs (y - IZR m) < 1 / 2 -> nearestEven y = m.
Proof.
  intros H. apply Rabs_def2 in H as [Hhi Hlo]. unfold nearestEven.
  destruct (Rle_lt_dec (IZR m) y) as [Hge|Hlt].
  - rewrite (Int_part_between y m) by lra.
    by rewrite (proj2 (ltb_true _ _)) by lra.
  - rewrite (Int_part_between y (m - 1)) by (rewrite minus_IZR; lra).
    rewrite minus_IZR.
    rewrite (proj2 (ltb_false _ _)) by lra.
    rewrite (proj2 (ltb_true _ _)) by lra. lia.
Qed.

Lemma nearestEven_IZR z : nearestEven (IZR z) = z.
Proof.
  apply nearestEven_eval. replace (IZR z - IZR z) with 0 by lra.
  rewrite Rabs_R0. lra.
Qed.

(** The store is within half the spacing of the number stored. *)
Lemma fround_near x : Rabs (fround x - x) <= ulp x / 2.
Proof.
  unfold fround. pose proof (ulp_pos x) as Hu.
  pose proof (nearestEven_near (x / ulp x)) as H.
  set (n := nearestEven (x / ulp x)) in *.
  replace (IZR n * ulp x - x) with ((IZR n - x / ulp x) * ulp x)
    by (field; lra).
  rewrite Rabs_mult, (Rabs_pos_eq (ulp x)) by lra. nra.
Qed.

Lemma fround_0 : fround 0 = 0.
Proof.
  unfold fround. unfold Rdiv. rewrite Rmult_0_l.
  rewrite (nearestEven_IZR 0). lra.
Qed.

(** The rounding error of a store: a part in 2^24 of the number, or the
    half spacing of the subnormal numbers. *)
Lemma fround_error x :
  Rabs (fround x - x) <= powerRZ 2 (-24) * Rabs x + powerRZ 2 (-150).
Proof.
  destruct (Req_dec_T x 0) as [->|Hx].
  - rewrite fround_0, Rminus_diag, Rabs_R0.
    pose proof (pow2_pos (-24)). pose proof (pow2_pos (-150)). nra.
  - pose proof (fround_near x) as H. pose proof (ulp_bound x Hx) as Hu.
    change (-23)%Z with (1 + -24)%Z in Hu.
    change (-149)%Z with (1 + -150)%Z in Hu.
    rewrite !pow2_add in Hu. change (powerRZ 2 1) with (2 * 1) in Hu.
    pose proof (Rabs_pos x). pose proof (pow2_pos (-24)).
    pose proof (pow2_pos (-150)). nra.
Qed.

(** A number with a significand of 24 bits, and an exponent that single
    precision has, is stored as it is. *)
Lemma fround_dyadic m k :
  (Z.abs m < 2 ^ 24)%Z -> (-149 <= k)%Z ->
  fround (IZR m * powerRZ 2 k) = IZR m * powerRZ 2 k.
Proof.
  intros Hm Hk. destruct (Z.eq_dec m 0%Z) as [->|Hm0].
  { rewrite Rmult_0_l. apply fround_0. }
  set (x := IZR m * powerRZ 2 k).
  pose proof (pow2_pos k) as Hpk.
  assert (x <> 0) as Hx.
  { unfold x. apply Rmult_integral_contrapositive_currified; [|lra].
    by apply not_0_IZR. }
  assert (Rabs x < powerRZ 2 (24 + k)) as Hlt.
  { unfold x. rewrite Rabs_mult, (Rabs_pos_eq (powerRZ 2 k)) by lra.
    rewrite pow2_add, <- abs_IZR. apply Rmult_lt_compat_r; [done|].
    rewrite pow2_IZR by lia. by apply IZR_lt. }
  assert (exponent x - 23 <= k)%Z as He.
  { destruct (log2_bounds x Hx) as [Hlo _].
    assert (Int_part (ln (Rabs x) / ln 2) < 24 + k)%Z
      by (apply pow2_lt_inv; lra).
    unfold exponent. lia. }
  unfold fround, ulp. set (e := exponent x) in *. clearbody e.
  pose proof (pow2_pos (e - 23)) as Hpe.
  assert (x / powerRZ 2 (e - 23) = IZR (m * 2 ^ (k - (e - 23)))) as Hint.
  { rewrite mult_IZR, <- pow2_IZR by lia. unfold x.
    replace (powerRZ 2 k)
      with (powerRZ 2 (k - (e - 23)) * powerRZ 2 (e - 23)).
    - field. lra.
    - rewrite <- pow2_add. f_equal. lia. }
  rewrite Hint, nearestEven_IZR, <- Hint. field. lra.
Qed.

(** The store of a number whose binade [e] and nearest multiple [m] of
    the spacing are known. *)
Lemma fround_eval x e m :
  (-126 <= e)%Z -> powerRZ 2 e <= Rabs x < powerRZ 2 (e + 1) ->
  Rabs (x / powerRZ 2 (e - 23) - IZR m) < 1 / 2 ->
  fround x = IZR m * powerRZ 2 (e - 23).
Proof.
  intros He Hx Hm. unfold fround, ulp.
  rewrite (exponent_normal x e He Hx). by rewrite (nearestEven_eval _ m).
Qed.

Lemma nearestEven_le y j : y <= IZR j -> (nearestEven y <= j)%Z.
Proof.
  intros H. unfold nearestEven. destruct (base_Int_part y) as [Hlo Hhi].
  set (n := Int_part y) in *.
  assert (n <= j)%Z as Hn by (apply le_IZR; lra).
  destruct (ltb (y - IZR n) (1 / 2)) eqn:E1; [done|].
  apply ltb_false in E1.
  assert (n < j)%Z as Hlt by (apply lt_IZR; lra).
  destruct (ltb (1 / 2) (y - IZR n)); [lia|].
  destruct (Z.even n); lia.
Qed.

Lemma nearestEven_ge y j : IZR j <= y -> (j <= nearestEven y)%Z.
Proof.
  intros H. unfold nearestEven. destruct (base_Int_part y) as [Hlo Hhi].
  set (n := Int_part y) in *.
  assert (j <= n)%Z as Hn.
  { apply Z.lt_succ_r, lt_IZR. rewrite succ_IZR. lra. }
  destruct (ltb (y - IZR n) (1 / 2)); [done|].
  destruct (ltb (1 / 2) (y - IZR n)); [lia|].
  destruct (Z.even n); lia.
Qed.

(** A store keeps the sign. *)
Lemma fround_nonneg x : 0 <= x -> 0 <= fround x.
Proof.
  intros Hx. unfold fround. pose proof (ulp_pos x) as Hu.
  apply Rmult_le_pos; [|lra]. apply IZR_le.
  apply nearestEven_ge. apply Rmult_le_pos; [done|].
  left. by apply Rinv_0_lt_compat.
Qed.

(** A store does not pass a single-precision number. *)
Lemma fround_le_dyadic x m k :
  (Z.abs m < 2 ^ 24)%Z -> (-149 <= k)%Z ->
  x <= IZR m * powerRZ 2 k -> fround x <= IZR m * powerRZ 2 k.
Proof.
  intros Hm Hk Hx. set (c := IZR m * powerRZ 2 k) in *.
  destruct (Req_dec_T x 0) as [->|Hx0]; [by rewrite fround_0|].
  pose proof (pow2_pos k) as Hpk.
  assert (Rabs c < powerRZ 2 (24 + k)) as Hc.
  { unfold c. rewrite Rabs_mult, (Rabs_pos_eq (powerRZ 2 k)) by lra.
    rewrite pow2_add, <- abs_IZR. apply Rmult_lt_compat_r; [done|].
    rewrite pow2_IZR by lia. by apply IZR_lt. }
  destruct (log2_bounds x Hx0) as [Hlo _].
  unfold fround, ulp, exponent.
  set (L := Int_part (ln (Rabs x) / ln 2)) in *.
  set (e := Z.max (-126) L).
  pose proof (pow2_pos (e - 23)) as Hpe.
  destruct (Z_le_gt_dec (e - 23) k) as [Hle|Hgt].
  - assert (c = IZR (m * 2 ^ (k - (e - 23))) * powerRZ 2 (e - 23)) as Ec.
    { rewrite mult_IZR, <- pow2_IZR by lia. unfold c.
      replace (powerRZ 2 k)
        with (powerRZ 2 (k - (e - 23)) * powerRZ 2 (e - 23)).
      - ring.
      - rewrite <- pow2_add. f_equal. lia. }
    rewrite Ec. apply Rmult_le_compat_r; [lra|]. apply IZR_le.
    apply nearestEven_le.
    apply (Rmult_le_reg_r (powerRZ 2 (e - 23))); [done|].
    rewrite <- Ec. unfold Rdiv. rewrite Rmult_assoc, Rinv_l by lra. lra.
  - assert (e = L) as HeL by lia.
    assert (powerRZ 2 (24 + k) <= powerRZ 2 e) as H1 by (apply pow2_le; lia).
    apply Rabs_def2 in Hc as [Hc1 Hc2].
    assert (x <= - powerRZ 2 e) as Hneg.
    { rewrite HeL in *. unfold Rabs in Hlo.
      destruct (Rcase_abs x); lra. }
    assert (powerRZ 2 e = IZR (2 ^ 23) * powerRZ 2 (e - 23)) as E23.
    { rewrite <- pow2_IZR by lia. rewrite <- pow2_add. f_equal. lia. }
    assert (nearestEven (x / powerRZ 2 (e - 23)) <= - 2 ^ 23)%Z as Hn.
    { apply nearestEven_le. rewrite opp_IZR.
      apply (Rmult_le_reg_r (powerRZ 2 (e - 23))); [done|].
      unfold Rdiv. rewrite Rmult_assoc, Rinv_l by lra. lra. }
    apply IZR_le in Hn. rewrite opp_IZR in Hn.
    assert (IZR (nearestEven (x / powerRZ 2 (e - 23))) * powerRZ 2 (e - 23)
            <= - IZR (2 ^ 23) * powerRZ 2 (e - 23)) as H2
      by (apply Rmult_le_compat_r; lra).
    lra.
Qed.

(** What a store keeps is a single-precision number: storing it again
    gives it back. *)
Lemma fround_fround x : fround (fround x) = fround x.
Proof.
  destruct (Req_dec_T x 0) as [->|Hx]; [by rewrite !fround_0|].
  unfold fround at 2 3. unfold ulp.
  pose proof (exponent_min x) as He. pose proof (exponent_above x Hx) as Hup.
  set (e := exponent x) in *. clearbody e.
  pose proof (pow2_pos (e - 23)) as Hpe.
  assert (powerRZ 2 (e + 1) = IZR (2 ^ 24) * powerRZ 2 (e - 23)) as E24.
  { rewrite <- pow2_IZR by lia. rewrite <- pow2_add. f_equal. lia. }
  apply Rabs_def2 in Hup as [Hhi Hlo].
  set (n := nearestEven (x / powerRZ 2 (e - 23))).
  assert (n <= 2 ^ 24)%Z as Hn1.
  { apply nearestEven_le.
    apply (Rmult_le_reg_r (powerRZ 2 (e - 23))); [done|].
    unfold Rdiv. rewrite Rmult_assoc, Rinv_l by lra. lra. }
  assert (- 2 ^ 24 <= n)%Z as Hn2.
  { apply nearestEven_ge. rewrite opp_IZR.
    apply (Rmult_le_reg_r (powerRZ 2 (e - 23))); [done|].
    unfold Rdiv. rewrite Rmult_assoc, Rinv_l by lra. lra. }
  destruct (Z_lt_le_dec (Z.abs n) (2 ^ 24)) as [Hlt|Hge].
  - apply fround_dyadic; lia.
  - assert (powerRZ 2 (e - 23) = / 2 * powerRZ 2 (e - 22)) as E22.
    { replace (e - 22)%Z with (1 + (e - 23))%Z by lia. rewrite pow2_add.
      simpl. lra. }
    assert (IZR n * powerRZ 2 (e - 23)
            = IZR (n / 2) * powerRZ 2 (e - 22)) as ->.
    { assert (n = 2 ^ 24 \/ n = - 2 ^ 24)%Z as [-> | ->] by lia;
        rewrite E22; change (2 ^ 24 / 2)%Z with (2 ^ 23)%Z;
        change (- 2 ^ 24 / 2)%Z with (- 2 ^ 23)%Z;
        rewrite ?opp_IZR; change (IZR (2 ^ 24)) with 16777216;
        change (IZR (2 ^ 23)) with 8388608; lra. }
    apply fround_dyadic; [|lia].
    assert (n = 2 ^ 24 \/ n = - 2 ^ 24)%Z as [-> | ->] by lia; done.
Qed.

Lemma Float32Array_nil : Float32Array [].
Proof. constructor. Qed.

Lemma Float32Array_cons x l :
  Float32Array l -> Float32Array (fround x :: l).
Proof. intros H. constructor; [apply fround_fround | done]. Qed.

Lemma Float32Array_zero l : Float32Array l -> Float32Array (0 :: l).
Proof. intros H. constructor; [apply fround_0 | done]. Qed.

(** The rounding error of a store of a number within 64 of 0. *)
Lemma fround_error_64 x :
  Rabs x <= 64 -> Rabs (fround x - x) <= 0.000004.
Proof.
  intros Hx. pose proof (fround_error x) as H.
  assert (powerRZ 2 (-150) <= powerRZ 2 (-24)) as Ht by (apply pow2_le; lia).
  assert (powerRZ 2 (-24) = / 16777216) as E by (simpl; lra).
  rewrite E in *. pose proof (Rabs_pos x). lra.
Qed.

End SinglePrecision.

(** Solves [fround c = c] for the number [c] = [m] * 2^[k]. *)
Ltac stored m k :=
  match goal with
  | |- Float32.fround ?c = ?c =>
      replace c with (IZR m * powerRZ 2 k) by (simpl; lra);
      apply fround_dyadic; lia
  end.

(** ** Snow accumulation *)

Section SnowCoverFacts.

Import SnowCover.

Variables x z : R.

Lemma scanned_step pre drift acc :
  scanned x z pre acc ->
  scanned x z (pre ++ [drift]) (scanStep x z (length pre) drift acc).
Proof.
  unfold scanned, scanStep. intros H.
  destruct (ltb (planarDistance drift x z) radius) eqn:Hr.
  - apply ltb_true in Hr.
    destruct (nearestDrift acc) as [i|] eqn:Hn.
    + destruct H as (Hf & d & (Hi & Hw & Hmin) & Hm). rewrite Hm. simpl.
      destruct (ltb (planarDistance drift x z) (planarDistance d x z)) eqn:Hlt.
      * apply ltb_true in Hlt. simpl. split; [done|]. exists drift.
        split; [|done]. split; [|split; [done|]].
        { rewrite lookup_app_r by lia. by rewrite Nat.sub_diag. }
        intros j d' Hj Hw'. apply lookup_snoc_Some in Hj.
        destruct Hj as [[Hlen Hj] | [-> ->]].
        -- destruct (Hmin j d' Hj Hw') as [Hle _]. split; intros; lra.
        -- split; [lra | lia].
      * apply ltb_false in Hlt. simpl. split; [done|].
        exists d. split; [|done]. split; [|split; [done|]].
        { by apply lookup_app_l_Some. }
        intros j d' Hj Hw'. apply lookup_snoc_Some in Hj.
        destruct Hj as [[Hlen Hj] | [-> ->]].
        -- by apply Hmin.
        -- split; [lra|]. intros Hlt'. apply lookup_lt_Some in Hi. lia.
    + destruct H as (Hf & Hm & Hnone). rewrite Hm. simpl.
      split; [done|]. exists drift. split; [|done].
      split; [|split; [done|]].
      { rewrite lookup_app_r by lia. by rewrite Nat.sub_diag. }
      intros j d' Hj Hw'. apply lookup_snoc_Some in Hj.
      destruct Hj as [[Hlen Hj] | [-> ->]].
      -- by destruct (Hnone j d' Hj).
      -- split; [lra | lia].
  - apply ltb_false in Hr.
    destruct (nearestDrift acc) as [i|] eqn:Hn.
    + destruct H as (Hf & d & (Hi & Hw & Hmin) & Hm). split; [done|].
      exists d. split; [|done]. split; [|split; [done|]].
      { by apply lookup_app_l_Some. }
      intros j d' Hj Hw'. apply lookup_snoc_Some in Hj.
      destruct Hj as [[Hlen Hj] | [-> ->]].
      -- by apply Hmin.
      -- unfold within in Hw'. lra.
    + destruct H as (Hf & Hm & Hnone). split; [done|]. split; [done|].
      intros j d' Hj Hw'. apply lookup_snoc_Some in Hj.
      destruct Hj as [[Hlen Hj] | [-> ->]].
      -- by apply (Hnone j d').
      -- unfold within in Hw'. lra.
Qed.

Lemma scanned_from suf : forall pre acc,
  scanned x z pre acc ->
  scanned x z (pre ++ suf) (scanFrom x z (length pre) suf acc).
Proof.
  induction suf as [|drift rest IH]; intros pre acc H; simpl.
  - by rewrite app_nil_r.
  - replace (pre ++ drift :: rest) with ((pre ++ [drift]) ++ rest)
      by (by rewrite <- app_assoc).
    replace (S (length pre)) with (length (pre ++ [drift]))
      by (rewrite length_app; simpl; lia).
    apply IH. by apply scanned_step.
Qed.

Lemma scanned_children l : scanned x z l (scanChildren x z l).
Proof.
  apply (scanned_from l [] (mkScan false None None)).
  unfold scanned. simpl. repeat split. intros j d Hj. done.
Qed.

End SnowCoverFacts.

Section AddToSnowCover.

Import SnowCover.

Variables x z : R.

(** The three ways a call of [addToSnowCover] ends, with the stream of
    draws it leaves. *)
Lemma addToSnowCover_cases children g :
  (exists i d, nearestWithin x z children i d /\
     addToSnowCover x z children g = (<[i := growDrift d]> children, g))
  \/ (noneWithin x z children /\ g 0%nat < 0.05 /\
      addToSnowCover x z children g =
        (children ++ [fst (spawnDrift x z (Rng.tl g))], Rng.drop 4 g))
  \/ (noneWithin x z children /\ 0.05 <= g 0%nat /\
      addToSnowCover x z children g = (children, Rng.tl g)).
Proof.
  pose proof (scanned_children x z children) as H.
  unfold scanned in H. unfold addToSnowCover.
  destruct (nearestDrift (scanChildren x z children)) as [i|].
  - destruct H as (-> & d & Hn & _). left. exists i, d. split; [done|].
    destruct Hn as (-> & _). done.
  - destruct H as (-> & _ & Hnone). right.
    unfold Rng.bind, Rng.Math_random, Rng.ret. simpl.
    destruct (ltb (g 0%nat) 0.05) eqn:E.
    + apply ltb_true in E. left. done.
    + apply ltb_false in E. right. done.
Qed.

Lemma spawnDrift_fields g :
  let drift := fst (spawnDrift x z g) in
  let height := 0.2 + g 0%nat * 0.2 in
  position drift = mkV x (height / 2) z /\
  scale drift = mkV 1 1 1 /\
  rotationY drift = g 1%nat * PI /\
  geomRadius drift = 0.5 /\ geomHeight drift = height /\
  geomSegments drift = 8%nat /\
  maxHeight drift = height * 2 /\
  growthRate drift = 0.0001 + g 2%nat * 0.0001.
Proof. simpl. repeat split. Qed.

Lemma growDrift_below d :
  vy (scale d) < maxHeight d ->
  growDrift d =
    mkDrift
      (mkV (vx (position d))
           (geomHeight d * (vy (scale d) + growthRate d) / 2)
           (vz (position d)))
      (mkV (vx (scale d) + growthRate d * 0.5)
           (vy (scale d) + growthRate d)
           (vz (scale d) + growthRate d * 0.5))
      (rotationY d) (geomRadius d) (geomHeight d) (geomSegments d)
      (maxHeight d) (growthRate d).
Proof. intros H. unfold growDrift. apply ltb_true in H. by rewrite H. Qed.

Lemma growDrift_capped d : maxHeight d <= vy (scale d) -> growDrift d = d.
Proof. intros H. unfold growDrift. apply ltb_false in H. by rewrite H. Qed.

(** The fields a growth step never writes. *)
Lemma growDrift_frame d :
  let d' := growDrift d in
  vx (position d') = vx (position d) /\ vz (position d') = vz (position d) /\
  rotationY d' = rotationY d /\ geomRadius d' = geomRadius d /\
  geomHeight d' = geomHeight d /\ geomSegments d' = geomSegments d /\
  maxHeight d' = maxHeight d /\ growthRate d' = growthRate d.
Proof. unfold growDrift. destruct (ltb _ _); simpl; repeat split. Qed.

(** C8: [addToSnowCover(x, z)] grows the nearest drift within radius 2
    when its scale.y is below its maxHeight (scale.y by growthRate,
    scale.x and scale.z by half of it, position.y to half the scaled cone
    height, so that the base is at height 0) and leaves it as it is
    otherwise; with no drift within the radius it spawns one drift at
    (x, z) when the draw is below 0.05, with a drawn height, rotation and
    growth rate, and changes nothing when the draw is not. *)
Theorem addToSnowCover_spec children g :
  let result := fst (addToSnowCover x z children g) in
  (exists i d, nearestWithin x z children i d /\
     result = <[i := growDrift d]> children /\
     (vy (scale d) < maxHeight d ->
        scale (growDrift d) =
          mkV (vx (scale d) + growthRate d * 0.5)
              (vy (scale d) + growthRate d)
              (vz (scale d) + growthRate d * 0.5) /\
        vy (position (growDrift d)) =
          geomHeight d * vy (scale (growDrift d)) / 2 /\
        vy (position (growDrift d))
          - geomHeight (growDrift d) * vy (scale (growDrift d)) / 2 = 0) /\
     (maxHeight d <= vy (scale d) -> result = children))
  \/ (noneWithin x z children /\ g 0%nat < 0.05 /\
      exists drift height,
        result = children ++ [drift] /\
        height = 0.2 + g 1%nat * 0.2 /\
        position drift = mkV x (height / 2) z /\
        scale drift = mkV 1 1 1 /\
        rotationY drift = g 2%nat * PI /\
        geomRadius drift = 0.5 /\ geomHeight drift = height /\
        maxHeight drift = height * 2 /\
        growthRate drift = 0.0001 + g 3%nat * 0.0001)
  \/ (noneWithin x z children /\ 0.05 <= g 0%nat /\ result = children).
Proof.
  intros result. subst result.
  destruct (addToSnowCover_cases children g)
    as [(i & d & Hn & ->) | [(Hnone & Hg & ->) | (Hnone & Hg & ->)]].
  - left. exists i, d. split; [done|]. split; [done|]. split.
    + intros Hlt. rewrite (growDrift_below d Hlt). simpl.
      split; [done|]. split; [done|]. lra.
    + intros Hge. rewrite (growDrift_capped d Hge). simpl.
      apply list_insert_id. by destruct Hn.
  - right. left. split; [done|]. split; [done|].
    exists (fst (spawnDrift x z (Rng.tl g))), (0.2 + g 1%nat * 0.2).
    simpl. repeat split.
  - right. right. done.
Qed.

(** C10: one call of [addToSnowCover] keeps every drift of the
    collection in place, changes at most one of them, which is then the
    nearest within radius 2 and only in its scale and its position.y, and
    adds at most one drift at the end. *)
Theorem addToSnowCover_frame children g :
  let result := fst (addToSnowCover x z children g) in
  (length result = length children \/
   length result = S (length children)) /\
  (forall j d, children !! j = Some d -> exists d', result !! j = Some d') /\
  (exists i, forall j, j <> i -> (j < length children)%nat ->
     result !! j = children !! j) /\
  (forall i d d', children !! i = Some d -> result !! i = Some d' ->
     d' <> d ->
     nearestWithin x z children i d /\ d' = growDrift d /\
     vx (position d') = vx (position d) /\
     vz (position d') = vz (position d) /\
     rotationY d' = rotationY d /\ geomRadius d' = geomRadius d /\
     geomHeight d' = geomHeight d /\ geomSegments d' = geomSegments d /\
     maxHeight d' = maxHeight d /\ growthRate d' = growthRate d).
Proof.
  intros result. subst result.
  destruct (addToSnowCover_cases children g)
    as [(i & d & Hn & ->) | [(Hnone & Hg & ->) | (Hnone & Hg & ->)]]; simpl.
  - pose proof Hn as (Hi & _). split; [|split; [|split]].
    + left. apply length_insert.
    + intros j d0 Hj. destruct (decide (i = j)) as [->|Hne].
      * exists (growDrift d). apply list_lookup_insert_eq.
        by apply lookup_lt_Some in Hj.
      * exists d0. by rewrite list_lookup_insert_ne.
    + exists i. intros j Hne _. by rewrite list_lookup_insert_ne.
    + intros j d0 d' Hj Hj' Hd. destruct (decide (i = j)) as [->|Hne].
      * rewrite list_lookup_insert_eq in Hj'
          by (by apply lookup_lt_Some in Hj).
        assert (d0 = d) as -> by congruence.
        assert (d' = growDrift d) as -> by congruence.
        split; [done|]. split; [done|]. apply growDrift_frame.
      * rewrite list_lookup_insert_ne in Hj' by done. congruence.
  - split; [|split; [|split]].
    + right. rewrite length_app. simpl. lia.
    + intros j d Hj. exists d. by apply lookup_app_l_Some.
    + exists 0%nat. intros j _ Hlt. by apply lookup_app_l.
    + intros i d d' Hi Hi' Hd.
      rewrite (lookup_app_l_Some _ _ _ _ Hi) in Hi'. congruence.
  - split; [|split; [|split]].
    + by left.
    + intros j d Hj. by exists d.
    + exists 0%nat. done.
    + intros i d d' Hi Hi' Hd. congruence.
Qed.

End AddToSnowCover.

Section Growth.

Import SnowCover.

Lemma grownFrom_refl d : grownFrom d d.
Proof.
  unfold grownFrom. repeat split; try lra. apply Rmax_l.
Qed.

Lemma grownFrom_trans d1 d2 d3 :
  grownFrom d1 d2 -> grownFrom d2 d3 -> grownFrom d1 d3.
Proof.
  unfold grownFrom. intros (Hm & Hr & Hle & Hmax) (Hm' & Hr' & Hle' & Hmax').
  rewrite Hm, Hr in *. repeat split; try congruence; try lra.
  revert Hmax Hmax'. unfold Rmax.
  repeat destruct (Rle_dec _ _); lra.
Qed.

Lemma growDrift_grown d : 0 <= growthRate d -> grownFrom d (growDrift d).
Proof.
  intros Hr. unfold grownFrom, growDrift.
  destruct (ltb (vy (scale d)) (maxHeight d)) eqn:E; simpl.
  - apply ltb_true in E. repeat split; try lra.
    unfold Rmax. destruct (Rle_dec _ _); lra.
  - repeat split; try lra. apply Rmax_l.
Qed.

Lemma coverGrown_refl l : coverGrown l l.
Proof. intros i d H. exists d. split; [done | apply grownFrom_refl]. Qed.

Lemma coverGrown_trans l1 l2 l3 :
  coverGrown l1 l2 -> coverGrown l2 l3 -> coverGrown l1 l3.
Proof.
  intros H12 H23 i d1 H1.
  destruct (H12 i d1 H1) as (d2 & H2 & G12).
  destruct (H23 i d2 H2) as (d3 & H3 & G23).
  exists d3. split; [done|]. by apply (grownFrom_trans d1 d2 d3).
Qed.

Lemma unit_draws_tl g : Rng.unit_draws g -> Rng.unit_draws (Rng.tl g).
Proof. intros H n. apply H. Qed.

Lemma unit_draws_drop k : forall g,
  Rng.unit_draws g -> Rng.unit_draws (Rng.drop k g).
Proof.
  induction k as [|k IH]; intros g H; simpl; [done|].
  apply IH. by apply unit_draws_tl.
Qed.

Lemma addToSnowCover_keeps x z children g :
  Rng.unit_draws g -> ratesNonneg children ->
  keepsCover children (addToSnowCover x z children g).
Proof.
  intros Hg Hr. unfold keepsCover.
  destruct (addToSnowCover_cases x z children g)
    as [(i & d & Hn & ->) | [(Hnone & Hlt & ->) | (Hnone & Hge & ->)]]; simpl.
  - destruct Hn as (Hi & _). split; [done|]. split.
    + intros j d' Hj. apply list_lookup_insert_Some in Hj.
      destruct Hj as [(-> & <- & _) | (_ & Hj)].
      * destruct (growDrift_frame d) as (_ & _ & _ & _ & _ & _ & _ & ->).
        by apply (Hr j d).
      * by apply (Hr j d').
    + intros j d0 Hj. destruct (decide (i = j)) as [->|Hne].
      * exists (growDrift d). split.
        -- apply list_lookup_insert_eq. by apply lookup_lt_Some in Hj.
        -- assert (d0 = d) as -> by congruence.
           apply growDrift_grown. by apply (Hr j d).
      * exists d0. rewrite list_lookup_insert_ne by done.
        split; [done | apply grownFrom_refl].
  - split; [by apply (unit_draws_drop 4)|]. split.
    + intros j d' Hj. apply lookup_snoc_Some in Hj.
      destruct Hj as [[_ Hj] | [_ <-]]; [by apply (Hr j d')|]. simpl.
      unfold Rng.tl. pose proof (Hg 3%nat). lra.
    + intros j d Hj. exists d. split; [by apply lookup_app_l_Some|].
      apply grownFrom_refl.
  - split; [by apply unit_draws_tl|]. split; [done|]. apply coverGrown_refl.
Qed.

Lemma ratesNonneg_cons d l :
  ratesNonneg (d :: l) <-> 0 <= growthRate d /\ ratesNonneg l.
Proof.
  unfold ratesNonneg. split.
  - intros H. split; [apply (H 0%nat d); done|].
    intros i d' Hi. by apply (H (S i) d').
  - intros [H0 H] [|i] d' Hi; simpl in Hi; [congruence | by apply (H i d')].
Qed.

Lemma growDrifts_keeps children : forall g,
  Rng.unit_draws g -> ratesNonneg children ->
  keepsCover children (growDrifts children g).
Proof.
  unfold keepsCover.
  induction children as [|d rest IH]; intros g Hg Hr; simpl.
  - split; [done|]. split; [done|]. apply coverGrown_refl.
  - apply ratesNonneg_cons in Hr as [Hd Hrest].
    unfold Rng.bind, Rng.Math_random, Rng.ret. simpl.
    specialize (IH (fun n => g (S n)) (unit_draws_tl g Hg) Hrest).
    destruct (growDrifts rest (fun n => g (S n))) as [rest' g'] eqn:E.
    simpl in *. destruct IH as (Hg' & Hr' & Hgrown).
    assert (grownFrom d (if ltb (g 0%nat) 0.01 then growDrift d else d)) as Hd'.
    { destruct (ltb _ _); [by apply growDrift_grown | apply grownFrom_refl]. }
    split; [done|]. split.
    + apply ratesNonneg_cons. split; [|done].
      destruct Hd' as (_ & -> & _). done.
    + intros [|i] d0 Hi; simpl in *.
      * eexists. split; [done|]. by inversion Hi; subst.
      * by apply Hgrown.
Qed.

End Growth.

(** Induction over an array that is read three entries at a time. *)
Lemma triples_ind (P : list R -> Prop) :
  P [] -> (forall a, P [a]) -> (forall a b, P [a; b]) ->
  (forall a b c l, P l -> P (a :: b :: c :: l)) ->
  forall l, P l.
Proof.
  intros H0 H1 H2 H3.
  fix IH 1. intros [|a [|b [|c l]]]; [exact H0 | exact (H1 a) | exact (H2 a b) |].
  apply H3. apply IH.
Qed.

Section SnowSession.

Import SnowCover Particles.

Lemma keepsCover_trans l1 l2 l3 g2 g3 :
  keepsCover l1 (l2, g2) -> keepsCover l2 (l3, g3) -> keepsCover l1 (l3, g3).
Proof.
  unfold keepsCover. simpl. intros (_ & _ & H12) (Hg & Hr & H23).
  split; [done|]. split; [done|]. by apply (coverGrown_trans l1 l2 l3).
Qed.

Lemma keepsCover_refl l g :
  Rng.unit_draws g -> ratesNonneg l -> keepsCover l (l, g).
Proof.
  intros Hg Hr. split; [done|]. split; [done|]. apply coverGrown_refl.
Qed.

Lemma settleSnowLoop_keeps positions : forall velocities children g,
  Rng.unit_draws g -> ratesNonneg children ->
  let r := settleSnowLoop children positions velocities g in
  keepsCover children (fst (fst r), snd r).
Proof.
  induction positions as [| a | a b | x y z ps IH] using triples_ind;
    intros velocities children g Hg Hr; simpl;
    try (by apply keepsCover_refl).
  destruct velocities as [|vx [|vy [|vz vs]]];
    try (by apply keepsCover_refl).
  destruct (leb y 0).
  - unfold Rng.bind, Rng.Math_random, Rng.ret.
    pose proof (addToSnowCover_keeps x z children g Hg Hr) as H1.
    destruct (addToSnowCover x z children g) as [children1 g1].
    pose proof H1 as (Hg1 & Hr1 & _). simpl in Hg1, Hr1.
    specialize (IH vs children1 (Rng.drop 5 g1)
                  (unit_draws_drop 5 g1 Hg1) Hr1).
    simpl in IH. unfold Rng.tl in IH.
    destruct (settleSnowLoop children1 ps vs _) as [[children2 arrays] g2].
    simpl in *. by apply (keepsCover_trans children children1 children2 g1).
  - unfold Rng.bind, Rng.ret.
    specialize (IH vs children g Hg Hr). simpl in IH.
    destruct (settleSnowLoop children ps vs g) as [[children2 arrays] g2].
    done.
Qed.

Lemma updateSnow_keeps children snow g :
  Rng.unit_draws g -> ratesNonneg children ->
  let r := updateSnow children snow g in
  keepsCover children (fst (fst r), snd r).
Proof.
  intros Hg Hr. unfold updateSnow, Rng.bind, Rng.ret.
  pose proof (growDrifts_keeps children g Hg Hr) as H1.
  destruct (growDrifts children g) as [children1 g1].
  pose proof H1 as (Hg1 & Hr1 & _). simpl in Hg1, Hr1.
  destruct snow as [s|]; [|done].
  pose proof (settleSnowLoop_keeps (snowPositions s) (snowVelocities s)
                children1 g1 Hg1 Hr1) as H2.
  simpl in H2.
  destruct (settleSnowLoop children1 _ _ g1) as [[children2 arrays] g2].
  simpl in *. by apply (keepsCover_trans children children1 children2 g1).
Qed.

Lemma coverOp_keeps op children g :
  Rng.unit_draws g -> ratesNonneg children ->
  keepsCover children (coverOp op children g).
Proof.
  intros Hg Hr. destruct op as [x z | snow]; simpl.
  - by apply addToSnowCover_keeps.
  - pose proof (updateSnow_keeps children snow g Hg Hr) as H.
    unfold Rng.bind, Rng.ret. simpl in H.
    by destruct (updateSnow children snow g) as [[children' snow'] g'].
Qed.

Lemma coverOps_keeps ops : forall children g,
  Rng.unit_draws g -> ratesNonneg children ->
  keepsCover children (coverOps ops children g).
Proof.
  induction ops as [|op rest IH]; intros children g Hg Hr; simpl.
  - by apply keepsCover_refl.
  - unfold Rng.bind.
    pose proof (coverOp_keeps op children g Hg Hr) as H1.
    destruct (coverOp op children g) as [children1 g1].
    pose proof H1 as (Hg1 & Hr1 & _). simpl in Hg1, Hr1.
    specialize (IH children1 g1 Hg1 Hr1).
    destruct (coverOps rest children1 g1) as [children2 g2].
    by apply (keepsCover_trans children children1 children2 g1).
Qed.

(** Over any sequence of [addToSnowCover] and [updateSnow] calls, on any
    collection, every drift stays in the collection with its [maxHeight]
    and [growthRate], its scale.y never decreases, and it never exceeds
    the larger of where it started and [maxHeight + growthRate].  The
    growth rates stay non-negative and the draws in [[0, 1)], so the same
    holds from every later state on. *)
Lemma cover_grows_within_bounds ops children g :
  Rng.unit_draws g -> ratesNonneg children ->
  let children' := fst (coverOps ops children g) in
  Rng.unit_draws (snd (coverOps ops children g)) /\
  ratesNonneg children' /\
  forall i d, children !! i = Some d ->
    exists d', children' !! i = Some d' /\
      maxHeight d' = maxHeight d /\ growthRate d' = growthRate d /\
      vy (scale d) <= vy (scale d') /\
      vy (scale d') <= Rmax (vy (scale d)) (maxHeight d + growthRate d).
Proof.
  intros Hg Hr children'.
  destruct (coverOps_keeps ops children g Hg Hr) as (Hg' & Hr' & Hgrown).
  split; [done|]. split; [done|]. intros i d Hi.
  destruct (Hgrown i d Hi) as (d' & Hi' & G). by exists d'.
Qed.

End SnowSession.

Section SnowSessionExamples.

Import SnowCover Particles.

(** A drift as [addToSnowCover] spawns it is above its [maxHeight] from
    the start, so that no growth step ever changes it. *)
Lemma spawned_drift_never_grows x z g :
  Rng.unit_draws g ->
  let drift := fst (spawnDrift x z g) in
  maxHeight drift < vy (scale drift) /\ growDrift drift = drift.
Proof.
  intros Hg drift.
  assert (maxHeight drift < vy (scale drift)) as H.
  { subst drift. simpl. pose proof (Hg 0%nat). lra. }
  split; [done|]. apply growDrift_capped. lra.
Qed.

(** The first impact on an empty collection, with draws of 0, spawns a
    drift of scale.y 1 and maxHeight 0.4. *)
Lemma first_drift_above_maxHeight :
  exists d,
    fst (addToSnowCover 0 0 [] (Rng.const 0)) = [d] /\
    vy (scale d) = 1 /\ maxHeight d = 0.4 /\
    ~ vy (scale d) <= maxHeight d.
Proof.
  destruct (addToSnowCover_cases 0 0 [] (Rng.const 0))
    as [(i & d & (Hi & _) & _) | [(_ & _ & ->) | (_ & Hge & _)]].
  - done.
  - eexists. split; [reflexivity|]. simpl. unfold Rng.tl, Rng.const.
    repeat split; lra.
  - unfold Rng.const in Hge. lra.
Qed.

(** The guard comes before the step and nothing clamps the result: a
    drift just below its [maxHeight] ends above it. *)
Lemma growDrift_overshoots :
  let d := mkDrift (mkV 0 0.1 0) (mkV 0.3 0.39995 0.3) 0 0.5 0.2 8 0.4 0.0001 in
  vy (scale d) < maxHeight d /\
  maxHeight d < vy (scale (growDrift d)) /\
  vy (scale (growDrift d)) <= maxHeight d + growthRate d.
Proof.
  intros d. assert (vy (scale d) < maxHeight d) as H by (simpl; lra).
  split; [done|]. rewrite (growDrift_below d H). simpl. lra.
Qed.

End SnowSessionExamples.

(** ** The particle systems at a time step of zero *)

Section ZeroDeltaTime.

Import Float32 Particles.

Lemma smokeLoop_zero positions : forall velocities lifetimes g,
  Float32Array positions -> Float32Array lifetimes ->
  Forall (fun life => life < 1) lifetimes ->
  smokeLoop 0 positions velocities lifetimes g = ((positions, lifetimes), g).
Proof.
  induction positions as [| a | a b | x y z ps IH] using triples_ind;
    intros velocities lifetimes g Hp Hf Hl; simpl; try reflexivity.
  destruct velocities as [|vx [|vy [|vz vs]]]; try reflexivity.
  destruct lifetimes as [|life ls]; try reflexivity.
  inversion Hl as [|? ? Hlife Hls]; subst.
  inversion Hf as [|? ? Hflife Hfls]; subst.
  inversion Hp as [|? ? Hx Hp1]; subst.
  inversion Hp1 as [|? ? Hy Hp2]; subst.
  inversion Hp2 as [|? ? Hz Hps]; subst.
  rewrite Rplus_0_r, Hflife.
  unfold geb. rewrite (proj2 (leb_false 1 life)) by lra.
  unfold Rng.bind, Rng.ret. rewrite (IH vs ls g Hps Hfls Hls). simpl.
  rewrite !Rmult_0_r, !Rplus_0_r, Hx, Hy, Hz. reflexivity.
Qed.

Lemma updateSmoke_zero smoke g :
  Float32Array (smokePositions smoke) ->
  Float32Array (smokeLifetimes smoke) ->
  Forall (fun life => life < 1) (smokeLifetimes smoke) ->
  updateSmoke 0 smoke g = (smoke, g).
Proof.
  intros Hp Hf H. unfold updateSmoke, Rng.bind, Rng.ret.
  rewrite smokeLoop_zero by done. by destruct smoke.
Qed.

Lemma updateChimneySmoke_zero systems : forall g,
  Forall (fun smoke => Float32Array (smokePositions smoke) /\
                       Float32Array (smokeLifetimes smoke)) systems ->
  Forall (fun smoke => Forall (fun life => life < 1) (smokeLifetimes smoke))
    systems ->
  updateChimneySmoke 0 systems g = (systems, g).
Proof.
  induction systems as [|smoke rest IH]; intros g Hf H; simpl; [done|].
  inversion H as [|? ? Hs Hrest]; subst.
  inversion Hf as [|? ? [Hp Hl] Hfrest]; subst.
  unfold Rng.bind, Rng.ret.
  rewrite updateSmoke_zero by done. by rewrite IH.
Qed.

Lemma updateParticleSystems_zero_smoke fireflyTime mistTime sys g :
  float32Smoke sys -> smokeAlive sys ->
  chimneySmoke (fst (updateParticleSystems 0 fireflyTime mistTime sys g))
  = chimneySmoke sys.
Proof.
  intros Hf H. unfold updateParticleSystems, Rng.bind, Rng.ret.
  rewrite updateChimneySmoke_zero by done.
  destruct (fireflies sys) as [f|]; [|done].
  by destruct (updateFireflies fireflyTime f g).
Qed.

(** C2, as amended: for the chimney smoke, whose particles are all in
    their life (lifetime below 1, as after every update), any number of
    [updateParticleSystems(0)] calls leaves every position, and the
    lifetimes, as they are.  The smoke is read from its
    [Float32Array]s. *)
Theorem smoke_unchanged_at_zero_deltaTime times : forall sys g,
  float32Smoke sys -> smokeAlive sys ->
  chimneySmoke (fst (runParticleSystems 0 times sys g)) = chimneySmoke sys.
Proof.
  induction times as [|t rest IH]; intros sys g Hf H; simpl; [done|].
  unfold Rng.bind.
  pose proof (updateParticleSystems_zero_smoke (fst t) (snd t) sys g Hf H)
    as H1.
  destruct (updateParticleSystems 0 (fst t) (snd t) sys g) as [sys1 g1].
  simpl in H1.
  rewrite IH; [done | |]; unfold float32Smoke, smokeAlive; by rewrite H1.
Qed.

Lemma smoke_unchanged_at_zero_deltaTime_witness :
  float32Smoke
    (mkSystems [mkSmoke [0.5; 0; 0.25] [0.0078125; 0.0625; 0.015625] [0.5]]
       None (Some (mkMist [10; 0.25; 0] [0.5; 0; 0]))) /\
  smokeAlive
    (mkSystems [mkSmoke [0.5; 0; 0.25] [0.0078125; 0.0625; 0.015625] [0.5]]
       None (Some (mkMist [10; 0.25; 0] [0.5; 0; 0]))) /\
  chimneySmoke
    (fst (runParticleSystems 0 [(0, 0); (0.016, 0.016); (0.033, 0.033)]
            (mkSystems
               [mkSmoke [0.5; 0; 0.25] [0.0078125; 0.0625; 0.015625] [0.5]]
               None (Some (mkMist [10; 0.25; 0] [0.5; 0; 0])))
            (Rng.const 0.5)))
  = [mkSmoke [0.5; 0; 0.25] [0.0078125; 0.0625; 0.015625] [0.5]].
Proof.
  assert (float32Smoke
            (mkSystems
               [mkSmoke [0.5; 0; 0.25] [0.0078125; 0.0625; 0.015625] [0.5]]
               None (Some (mkMist [10; 0.25; 0] [0.5; 0; 0])))) as Hf.
  { repeat constructor; cbn [smokePositions smokeLifetimes].
    - stored 1%Z (-1)%Z.
    - apply fround_0.
    - stored 1%Z (-2)%Z.
    - stored 1%Z (-1)%Z. }
  assert (smokeAlive
            (mkSystems
               [mkSmoke [0.5; 0; 0.25] [0.0078125; 0.0625; 0.015625] [0.5]]
               None (Some (mkMist [10; 0.25; 0] [0.5; 0; 0])))) as H.
  { repeat constructor. simpl. lra. }
  split; [exact Hf|]. split; [exact H|].
  exact (smoke_unchanged_at_zero_deltaTime
           [(0, 0); (0.016, 0.016); (0.033, 0.033)] _ _ Hf H).
Defined.

Lemma sqrt_square_pos a b : 0 <= b -> a = b * b -> sqrt a = b.
Proof. intros Hb ->. by apply sqrt_square. Qed.

(** C2, the claim as stated fails: [updateParticleSystems(0)] moves a
    mist particle by its velocity, and [animateSnow], which takes no time
    step at all, moves a snowflake by its velocity. *)
Lemma zero_deltaTime_moves_particles :
  (forall g, exists m,
     groundMist
       (fst (updateParticleSystems 0 0 0
               (mkSystems [] None (Some (mkMist [10; 0.25; 0] [0.5; 0; 0])))
               g)) = Some m /\
     mistPositions m !! 0%nat = Some 10.5 /\
     mistPositions m <> [10; 0.25; 0]) /\
  (forall g, exists s,
     fst (animateSnow 0 (Some (mkSnow [0; 10; 0] [0; -0.25; 0])) g) = Some s /\
     snowPositions s !! 1%nat = Some 9.75 /\
     snowPositions s <> [0; 10; 0]).
Proof.
  split; intros g.
  - eexists. split; [reflexivity|]. simpl. unfold mistStep.
    assert (fround (10 + 0.5) = 10.5) as ->.
    { replace (10 + 0.5) with 10.5 by lra. stored 21%Z (-1)%Z. }
    assert (fround (0 + 0) = 0) as -> by (rewrite Rplus_0_r; apply fround_0).
    assert (sqrt (10.5 * 10.5 + 0 * 0) = 10.5)
      as -> by (apply sqrt_square_pos; lra).
    unfold gtb, mistBoundary.
    rewrite (proj2 (ltb_false 40 10.5)) by lra. simpl.
    split; [done|]. intros H. inversion H. lra.
  - unfold animateSnow, Rng.bind, Rng.ret. simpl.
    unfold Rng.bind, Rng.ret.
    rewrite (proj2 (ltb_false (10 + -0.25) 0)) by lra. simpl.
    eexists. split; [reflexivity|]. simpl.
    split; [f_equal; lra|]. intros H. inversion H. lra.
Qed.

End ZeroDeltaTime.

(** ** Level of detail *)

Section LevelOfDetail.

Import LOD.

(** The selection returns a level at or below the distance that no
    other such level of the list exceeds. *)
Lemma selectFrom_greatest levels d : forall best l,
  (forall b, best = Some b -> distance b <= d) ->
  selectFrom best levels d = Some l ->
  distance l <= d /\
  (forall b, best = Some b -> distance b <= distance l) /\
  (forall l', In l' levels -> distance l' <= d -> distance l' <= distance l).
Proof.
  induction levels as [|lv rest IH]; intros best l Hb Hsel; simpl in *.
  - split; [by apply Hb|]. split; [|done].
    intros b Hbest. assert (b = l) as -> by congruence. lra.
  - destruct (leb (distance lv) d) eqn:Hle.
    + apply leb_true in Hle. destruct best as [b|].
      * destruct (ltb (distance b) (distance lv)) eqn:Hlt.
        -- apply ltb_true in Hlt.
           destruct (IH (Some lv) l) as (H1 & H2 & H3); [|done|].
           { intros b' Hb'. by inversion Hb'; subst. }
           split; [done|]. split.
           ++ intros b' Hb'. inversion Hb'; subst.
              specialize (H2 lv eq_refl). lra.
           ++ intros l' [<-|Hin] Hl'; [by apply H2 | by apply H3].
        -- apply ltb_false in Hlt.
           destruct (IH (Some b) l Hb Hsel) as (H1 & H2 & H3).
           split; [done|]. split; [done|].
           intros l' [<-|Hin] Hl'; [|by apply H3].
           specialize (H2 b eq_refl). lra.
      * destruct (IH (Some lv) l) as (H1 & H2 & H3); [|done|].
        { intros b' Hb'. by inversion Hb'; subst. }
        split; [done|]. split; [done|].
        intros l' [<-|Hin] Hl'; [by apply H2 | by apply H3].
    + apply leb_false in Hle.
      destruct (IH best l Hb Hsel) as (H1 & H2 & H3).
      split; [done|]. split; [done|].
      intros l' [<-|Hin] Hl'; [lra | by apply H3].
Qed.

Lemma selectLevel_house d :
  0 <= d ->
  selectLevel houseLevels d =
    Some (if ltb d 50 then HighDetail
          else if ltb d 100 then MediumDetail else LowDetail).
Proof.
  intros Hd. unfold selectLevel, houseLevels. simpl.
  destruct (Rlt_dec d 50) as [H50|H50];
    destruct (Rlt_dec d 100) as [H100|H100]; try lra;
    rdecide; reflexivity.
Qed.

(** C3, the claim as stated fails: at distance 149 the greatest
    threshold at or below the distance is 100, the lowest-detail level,
    not the medium one. *)
Lemma medium_not_selected_at_149 :
  selectLevel houseLevels 149 = Some LowDetail /\
  selectLevel houseLevels 149 <> Some MediumDetail.
Proof.
  rewrite selectLevel_house by lra. rdecide. done.
Qed.

(** C3, as amended: the selected level is the one with the greatest
    threshold at or below the camera distance; on the house thresholds
    0, 50 and 100 that is the medium level at distance 75 and at every
    distance from 50 up to, not including, 100, and the lowest-detail
    level from 100 on, so at 149 as well as at 150. *)
Theorem house_level_selection :
  (forall levels d l,
     selectFrom None levels d = Some l ->
     distance l <= d /\
     forall l', In l' levels -> distance l' <= d ->
       distance l' <= distance l) /\
  selectLevel houseLevels 75 = Some MediumDetail /\
  selectLevel houseLevels 149 = Some LowDetail /\
  selectLevel houseLevels 150 = Some LowDetail /\
  (forall d, 0 <= d ->
     (selectLevel houseLevels d = Some MediumDetail <-> 50 <= d < 100) /\
     (selectLevel houseLevels d = Some LowDetail <-> 100 <= d)).
Proof.
  split; [|split; [|split; [|split]]].
  - intros levels d l Hsel.
    destruct (selectFrom_greatest levels d None l) as (H1 & _ & H3);
      [done | done | done].
  - rewrite selectLevel_house by lra. by rdecide.
  - rewrite selectLevel_house by lra. by rdecide.
  - rewrite selectLevel_house by lra. by rdecide.
  - intros d Hd. rewrite selectLevel_house by done.
    destruct (ltb d 50) eqn:E50;
      [apply ltb_true in E50 | apply ltb_false in E50];
      (destruct (ltb d 100) eqn:E100;
         [apply ltb_true in E100 | apply ltb_false in E100]);
      (split; split; intros H; try done; try lra).
Qed.

End LevelOfDetail.

(** ** The frame-skipping test *)

Section FrameSkip.

Import Frame.

Lemma truncate_between r n :
  (0 <= n)%Z -> IZR n <= r < IZR n + 1 -> truncate r = n.
Proof.
  intros Hn H. unfold truncate.
  destruct (Rle_dec 0 r) as [_|Hneg]; [by apply Int_part_between|].
  apply IZR_le in Hn. lra.
Qed.

(** On the part of a time within its two-second window. *)
Lemma jsRem_2 q r : (0 <= q)%Z -> 0 <= r < 2 -> jsRem (2 * IZR q + r) 2 = r.
Proof.
  intros Hq Hr. unfold jsRem.
  rewrite (truncate_between _ q Hq); lra.
Qed.

(** At a steady rate of [n] frames in two seconds, the frame [k] being
    at time [k * (2 / n)] with a time step of [2 / n], the test holds on
    the frames that start a two-second window: one frame in [n]. *)
Lemma frameSkip_steady (n k : nat) :
  (0 < n)%nat ->
  frameSkip (INR k * (2 / INR n)) (2 / INR n) = Nat.eqb (k mod n) 0.
Proof.
  intros Hn.
  pose proof (Nat.div_mod_eq k n) as Hk.
  pose proof (Nat.mod_upper_bound k n ltac:(lia)) as Hr.
  set (q := (k / n)%nat) in *. set (r := (k mod n)%nat) in *.
  assert (0 < INR n) as HN by (by apply lt_0_INR).
  assert (INR k = INR n * INR q + INR r) as HK.
  { rewrite Hk at 1. by rewrite plus_INR, mult_INR. }
  assert (0 <= INR r) as HR0 by apply pos_INR.
  assert (INR r < INR n) as HR by (by apply lt_INR).
  assert (0 < 2 / INR n) as Hdt by (apply Rdiv_lt_0_compat; lra).
  assert (INR r * (2 / INR n) < 2) as Hlt.
  { apply (Rmult_lt_reg_r (INR n)); [done|].
    replace (INR r * (2 / INR n) * INR n) with (2 * INR r) by (field; lra).
    lra. }
  unfold frameSkip.
  replace (INR k * (2 / INR n))
    with (2 * IZR (Z.of_nat q) + INR r * (2 / INR n))
    by (rewrite <- INR_IZR_INZ, HK; field; lra).
  rewrite jsRem_2; [|lia|split; [nra | done]].
  destruct (Nat.eqb_spec r 0) as [->|Hne].
  - apply ltb_true. simpl. lra.
  - apply ltb_false. assert (1 <= INR r) as H1 by (apply (le_INR 1); lia).
    nra.
Qed.

(** C9, the code at a steady 60 frames per second: the frame [k] is at
    time k/60 with a time step of 1/60, and the test [time % 2 <
    deltaTime] holds on one frame in 120, the one that starts a
    two-second window, not on every other frame: it fails on the frames 1
    and 2, one after the other. *)
Theorem frameSkip_at_60fps :
  (forall k : nat,
     frameSkip (INR k / 60) (1 / 60) = Nat.eqb (k mod 120) 0) /\
  frameSkip (1 / 60) (1 / 60) = false /\
  frameSkip (2 / 60) (1 / 60) = false.
Proof.
  assert (forall k : nat,
            frameSkip (INR k / 60) (1 / 60) = Nat.eqb (k mod 120) 0) as H.
  { intros k. rewrite <- (frameSkip_steady 120 k) by lia.
    simpl (INR 120). f_equal; lra. }
  split; [exact H|]. split.
  - replace (1 / 60) with (INR 1 / 60) at 1 by (simpl; lra). by rewrite H.
  - replace (2 / 60) with (INR 2 / 60) by (simpl; lra). by rewrite H.
Qed.

End FrameSkip.

(** ** Path followers *)

Section VectorFacts.

Lemma Vec_sub_add p t : Vec.sub (Vec.add p t) p = t.
Proof. destruct p, t. unfold Vec.sub, Vec.add. simpl. f_equal; lra. Qed.

Lemma sum_squares_nonneg u v w : 0 <= u * u + v * v + w * w.
Proof. nra. Qed.

Lemma sum_squares_zero u v w :
  u * u + v * v + w * w = 0 -> u = 0 /\ v = 0 /\ w = 0.
Proof.
  intros H.
  pose proof (Rle_0_sqr u). pose proof (Rle_0_sqr v).
  pose proof (Rle_0_sqr w). unfold Rsqr in *.
  repeat split; apply Rsqr_0_uniq; unfold Rsqr; lra.
Qed.

Lemma Vec_sub_zero a b : Vec.length (Vec.sub a b) = 0 -> a = b.
Proof.
  unfold Vec.length. intros H.
  destruct a as [ax ay az], b as [bx byy bz]. simpl in *.
  apply sqrt_eq_0 in H; [|apply sum_squares_nonneg].
  apply sum_squares_zero in H as (Hx & Hy & Hz).
  f_equal; lra.
Qed.

Lemma Vec_length_nonneg a : 0 <= Vec.length a.
Proof. apply sqrt_pos. Qed.

Lemma Vec_length_square a :
  Vec.length a * Vec.length a = vx a * vx a + vy a * vy a + vz a * vz a.
Proof. unfold Vec.length. apply sqrt_sqrt. apply sum_squares_nonneg. Qed.

(** A vector that is not zero, normalized and scaled by a speed that is
    not negative, has the length of the speed. *)
Lemma normalize_scaled_length v s :
  Vec.length v <> 0 -> 0 <= s ->
  Vec.length (Vec.multiplyScalar (Vec.normalize v) s) = s.
Proof.
  intros Hv Hs. pose proof (Vec_length_square v) as Hsq.
  pose proof (Vec_length_nonneg v) as Hpos.
  unfold Vec.normalize. destruct (Req_dec_T (Vec.length v) 0) as [|_]; [done|].
  set (l := Vec.length v) in *.
  unfold Vec.length at 1. unfold Vec.multiplyScalar. simpl.
  apply sqrt_lem_1; [apply sum_squares_nonneg | done |].
  transitivity (s * s * ((vx v * vx v + vy v * vy v + vz v * vz v) / (l * l))).
  - rewrite <- Hsq. field. done.
  - field. done.
Qed.

End VectorFacts.

Section PathFollowerFacts.

Import PathFollower.

Variables freq amp : R.

Lemma nextIndex_valid c :
  (pathIndex c < length (path c))%nat -> (nextIndex c < length (path c))%nat.
Proof. intros H. unfold nextIndex. apply Nat.mod_upper_bound. lia. Qed.

(** With its index inside the path a tick does not fail, and this is
    what it computes. *)
Lemma animateCharacter_defined time c :
  (pathIndex c < length (path c))%nat ->
  exists currentPoint nextPoint,
    path c !! pathIndex c = Some currentPoint /\
    path c !! nextIndex c = Some nextPoint /\
    animateCharacter freq amp time c =
      Some (mkCharacter
              (Vec.add (position c)
                 (stepVector currentPoint nextPoint (moveSpeed c)))
              (Some nextPoint)
              (sin (time * freq) * amp) (- (sin (time * freq) * amp))
              (- (sin (time * freq) * amp)) (sin (time * freq) * amp)
              (path c)
              (if arrives c then nextIndex c else pathIndex c)
              (moveSpeed c)).
Proof.
  intros H. pose proof (nextIndex_valid c H) as Hn.
  apply lookup_lt_is_Some_2 in H as [cur Hcur].
  apply lookup_lt_is_Some_2 in Hn as [nxt Hnxt].
  exists cur, nxt. split; [done|]. split; [done|].
  unfold animateCharacter, arrives. by rewrite Hcur, Hnxt.
Qed.

Lemma animateCharacter_index time c c' :
  (pathIndex c < length (path c))%nat ->
  animateCharacter freq amp time c = Some c' ->
  path c' = path c /\ moveSpeed c' = moveSpeed c /\
  (pathIndex c' < length (path c))%nat /\
  pathIndex c' =
    ((pathIndex c + (if arrives c then 1 else 0)) mod length (path c))%nat.
Proof.
  intros H Hc'.
  destruct (animateCharacter_defined time c H) as (cur & nxt & _ & _ & Heq).
  rewrite Heq in Hc'. inversion Hc'; subst; clear Hc'. simpl.
  split; [done|]. split; [done|].
  destruct (arrives c).
  - split; [by apply nextIndex_valid | done].
  - split; [done|]. rewrite Nat.add_0_r. by rewrite Nat.mod_small.
Qed.

Lemma run_index times : forall c,
  (pathIndex c < length (path c))%nat ->
  exists c', run freq amp times c = Some c' /\
    path c' = path c /\
    (pathIndex c' < length (path c))%nat /\
    pathIndex c' =
      ((pathIndex c + arrivals freq amp times c) mod length (path c))%nat.
Proof.
  induction times as [|t rest IH]; intros c H; simpl.
  - exists c. split; [done|]. split; [done|]. split; [done|].
    rewrite Nat.add_0_r. by rewrite Nat.mod_small.
  - destruct (animateCharacter_defined t c H) as (cur & nxt & _ & _ & Heq).
    destruct (animateCharacter_index t c _ H Heq) as (Hp & _ & Hlt & Hidx).
    rewrite Heq. set (c1 := mkCharacter _ _ _ _ _ _ _ _ _) in *.
    destruct (IH c1) as (c' & Hrun & Hp' & Hlt' & Hidx').
    { by rewrite Hp. }
    exists c'. split; [done|]. rewrite Hp in *. split; [done|].
    split; [done|]. rewrite Hidx', Hidx.
    rewrite Nat.Div0.add_mod_idemp_l. f_equal. lia.
Qed.

(** C4: with [pathIndex] inside the path of length L, a tick succeeds
    and leaves [pathIndex] inside the path: it becomes
    [(pathIndex + 1) mod L] exactly when the distance from the moved
    character to the upcoming waypoint is below 0.1, and stays as it is
    otherwise.  Over any number of ticks [pathIndex] is the start index
    plus the number of arrivals, modulo L: from 0, after L arrivals, it
    is 0 again. *)
Theorem pathIndex_loop time times c :
  (pathIndex c < length (path c))%nat ->
  (exists currentPoint nextPoint c1,
     path c !! pathIndex c = Some currentPoint /\
     path c !! ((pathIndex c + 1) mod length (path c))%nat = Some nextPoint /\
     animateCharacter freq amp time c = Some c1 /\
     path c1 = path c /\
     (pathIndex c1 < length (path c))%nat /\
     (Vec.distanceTo (position c1) nextPoint < 0.1 ->
        pathIndex c1 = ((pathIndex c + 1) mod length (path c))%nat) /\
     (~ Vec.distanceTo (position c1) nextPoint < 0.1 ->
        pathIndex c1 = pathIndex c)) /\
  (exists c', run freq amp times c = Some c' /\
     path c' = path c /\
     (pathIndex c' < length (path c))%nat /\
     pathIndex c' =
       ((pathIndex c + arrivals freq amp times c) mod length (path c))%nat /\
     (pathIndex c = 0%nat ->
      arrivals freq amp times c = length (path c) ->
      pathIndex c' = 0%nat)).
Proof.
  intros H. split.
  - destruct (animateCharacter_defined time c H)
      as (cur & nxt & Hcur & Hnxt & Heq).
    destruct (animateCharacter_index time c _ H Heq) as (_ & _ & Hlt & _).
    eexists cur, nxt, _. split; [done|]. split; [done|].
    split; [exact Heq|]. split; [done|]. split; [done|]. simpl.
    unfold arrives. rewrite Hcur, Hnxt.
    destruct (ltb _ 0.1) eqn:E;
      [apply ltb_true in E | apply ltb_false in E];
      split; intros; (done || lra).
  - destruct (run_index times c H) as (c' & Hrun & Hp & Hlt & Hidx).
    exists c'. split; [done|]. split; [done|]. split; [done|].
    split; [done|]. intros H0 HL. rewrite Hidx, H0, HL. simpl.
    apply Nat.Div0.mod_same.
Qed.

(** [animateCharacters] runs that tick on every elf, with the elf
    constants, and on Santa, with his. *)
Lemma animateElves_each time elves :
  Forall (fun c => (pathIndex c < length (path c))%nat) elves ->
  exists elves',
    animateElves time elves = Some elves' /\
    Forall2 (fun c c' => animateCharacter 5 0.5 time c = Some c') elves elves'.
Proof.
  induction elves as [|elf rest IH]; intros H; simpl.
  - exists []. split; [done | constructor].
  - inversion H as [|? ? Helf Hrest]; subst.
    destruct (IH Hrest) as (rest' & -> & Hall).
    unfold animateElf.
    destruct (animateCharacter 5 0.5 time elf) as [elf'|] eqn:E.
    + exists (elf' :: rest'). split; [done|]. by constructor.
    + exfalso. clear - Helf E. unfold animateCharacter in E.
      pose proof Helf as Hnext. unfold nextIndex in E.
      apply lookup_lt_is_Some_2 in Helf as [cur Hcur].
      assert ((pathIndex elf + 1) mod length (path elf) < length (path elf))%nat
        as Hn by (apply Nat.mod_upper_bound; lia).
      apply lookup_lt_is_Some_2 in Hn as [nxt Hnxt].
      by rewrite Hcur, Hnxt in E.
Qed.

(** C5: a tick translates the character by the normalized vector from
    [path[pathIndex]] to [path[(pathIndex + 1) mod L]], two waypoints and
    not the character's own position, times [moveSpeed]; neither the
    clock nor a time step enters.  When the two waypoints differ and
    [moveSpeed] is not negative the character moves by exactly
    [moveSpeed], and after the tick it faces the upcoming waypoint. *)
Theorem tick_translation time c :
  (pathIndex c < length (path c))%nat ->
  exists currentPoint nextPoint c',
    path c !! pathIndex c = Some currentPoint /\
    path c !! ((pathIndex c + 1) mod length (path c))%nat = Some nextPoint /\
    animateCharacter freq amp time c = Some c' /\
    position c' =
      Vec.add (position c)
        (Vec.multiplyScalar
           (Vec.normalize (Vec.sub nextPoint currentPoint)) (moveSpeed c)) /\
    lookTarget c' = Some nextPoint /\
    moveSpeed c' = moveSpeed c /\
    (currentPoint <> nextPoint -> 0 <= moveSpeed c ->
       Vec.length
         (Vec.multiplyScalar
            (Vec.normalize (Vec.sub nextPoint currentPoint)) (moveSpeed c))
         = moveSpeed c /\
       Vec.distanceTo (position c') (position c) = moveSpeed c).
Proof.
  intros H.
  destruct (animateCharacter_defined time c H)
    as (cur & nxt & Hcur & Hnxt & Heq).
  eexists cur, nxt, _. split; [done|]. split; [done|].
  split; [exact Heq|]. simpl. split; [done|]. split; [done|].
  split; [done|]. intros Hne Hs.
  assert (Vec.length (Vec.sub nxt cur) <> 0) as Hl.
  { intros Hz. apply Vec_sub_zero in Hz. congruence. }
  unfold Vec.distanceTo, stepVector. rewrite Vec_sub_add.
  split; by apply normalize_scaled_length.
Qed.

End PathFollowerFacts.

Lemma pathIndex_loop_witness :
  (PathFollower.pathIndex PathFollower.squareElf
   < length (PathFollower.path PathFollower.squareElf))%nat /\
  exists c',
    PathFollower.run 5 0.5 [0; 0.016; 0.033] PathFollower.squareElf = Some c' /\
    (PathFollower.pathIndex c'
     < length (PathFollower.path PathFollower.squareElf))%nat.
Proof.
  assert (PathFollower.pathIndex PathFollower.squareElf
          < length (PathFollower.path PathFollower.squareElf))%nat as H
    by (simpl; lia).
  split; [exact H|].
  destruct (pathIndex_loop 5 0.5 0 [0; 0.016; 0.033] PathFollower.squareElf H)
    as (_ & c' & Hrun & _ & Hlt & _).
  exists c'. split; assumption.
Defined.

Lemma tick_translation_witness :
  (PathFollower.pathIndex PathFollower.squareElf
   < length (PathFollower.path PathFollower.squareElf))%nat /\
  exists c',
    PathFollower.animateCharacter 5 0.5 0 PathFollower.squareElf = Some c' /\
    PathFollower.lookTarget c' = Some (mkV 0 0 20) /\
    Vec.distanceTo (PathFollower.position c')
      (PathFollower.position PathFollower.squareElf) = 0.03.
Proof.
  assert (PathFollower.pathIndex PathFollower.squareElf
          < length (PathFollower.path PathFollower.squareElf))%nat as H
    by (simpl; lia).
  split; [exact H|].
  destruct (tick_translation 5 0.5 0 PathFollower.squareElf H)
    as (cur & nxt & c' & Hcur & Hnxt & Heq & _ & Hlook & _ & Hlen).
  simpl in Hcur, Hnxt.
  assert (cur = mkV 20 0 0) as -> by congruence.
  assert (nxt = mkV 0 0 20) as -> by congruence.
  exists c'. split; [exact Heq|]. split; [exact Hlook|].
  apply Hlen.
  - intros Heq'. inversion Heq'. lra.
  - simpl. lra.
Defined.

(** ** Ground mist *)

Section GroundMist.

Import Float32 Particles.

Lemma squares_nonneg a b : 0 <= a * a + b * b.
Proof. nra. Qed.

Lemma sqrt_ratio x z :
  x <> 0 -> sqrt (1 + (z / x)²) = sqrt (x * x + z * z) / Rabs x.
Proof.
  intros Hx.
  assert (0 < Rabs x) as Ha by (by apply Rabs_pos_lt).
  assert (Rabs x * Rabs x = x * x) as Haa.
  { unfold Rabs. destruct (Rcase_abs x); lra. }
  assert (0 <= x * x + z * z) as HS by nra.
  pose proof (sqrt_sqrt _ HS) as Hr. pose proof (sqrt_pos (x * x + z * z)).
  set (r := sqrt (x * x + z * z)) in *.
  apply sqrt_lem_1.
  - unfold Rsqr. pose proof (Rle_0_sqr (z / x)). unfold Rsqr in *. lra.
  - apply Rmult_le_pos; [done|]. left. by apply Rinv_0_lt_compat.
  - transitivity ((r * r) / (Rabs x * Rabs x)); [field; lra|].
    rewrite Hr, Haa. unfold Rsqr. field. done.
Qed.

(** The cosine and sine of the angle of a point other than the origin. *)
Lemma cos_sin_atan2 x z :
  sqrt (x * x + z * z) <> 0 ->
  cos (Math_atan2 z x) = x / sqrt (x * x + z * z) /\
  sin (Math_atan2 z x) = z / sqrt (x * x + z * z).
Proof.
  intros Hr. unfold Math_atan2.
  destruct (Rtotal_order x 0) as [Hneg | [Hzero | Hpos]].
  - rdecide. assert (Rabs x = - x) as Ha by (by apply Rabs_left).
    assert (x <> 0) as Hx by lra.
    destruct (leb 0 z).
    + rewrite neg_cos, neg_sin, cos_atan, sin_atan, sqrt_ratio, Ha by done.
      split; field; lra.
    + rewrite cos_minus, sin_minus, cos_PI, sin_PI.
      rewrite cos_atan, sin_atan, sqrt_ratio, Ha by done.
      split; field; lra.
  - subst x. rdecide.
    destruct (Rtotal_order z 0) as [Hzn | [Hzz | Hzp]].
    + rdecide. rewrite cos_neg, sin_neg, cos_PI2, sin_PI2.
      assert (sqrt (0 * 0 + z * z) = - z) as ->
        by (apply sqrt_lem_1; lra || nra).
      split; field; lra.
    + subst z. exfalso. apply Hr.
      replace (0 * 0 + 0 * 0) with 0 by lra. apply sqrt_0.
    + rdecide. rewrite cos_PI2, sin_PI2.
      assert (sqrt (0 * 0 + z * z) = z) as ->
        by (apply sqrt_lem_1; lra || nra).
      split; field; lra.
  - rdecide. assert (Rabs x = x) as Ha by (apply Rabs_pos_eq; lra).
    assert (x <> 0) as Hx by lra.
    rewrite cos_atan, sin_atan, sqrt_ratio, Ha by done.
    split; field; lra.
Qed.


(** What [mistStep] does to a particle that integration has taken
    outside the boundary: [x1] and [z1] are the stored sums. *)
Lemma mistStep_outside time i x y z vx vz :
  let x1 := fround (x + vx) in
  let z1 := fround (z + vz) in
  let r := sqrt (x1 * x1 + z1 * z1) in
  40 < r ->
  mistStep time i x y z vx vz =
    (fround (40 / r * x1), fround (y + sin (time + INR i) * 0.001),
     fround (40 / r * z1)).
Proof.
  intros x1 z1 r Hout.
  unfold mistStep, gtb, mistBoundary. fold x1 z1. fold r.
  rewrite (proj2 (ltb_true 40 r)) by done.
  destruct (cos_sin_atan2 x1 z1) as [-> ->]; fold r; [lra|].
  f_equal; [f_equal|]; f_equal; field; lra.
Qed.

(** Two numbers off a point of the circle of radius [rho] by no more
    than [delta] each. *)
Lemma near_circle a b da db rho delta :
  0 <= rho -> a * a + b * b = rho * rho ->
  Rabs da <= delta -> Rabs db <= delta ->
  Rabs ((a + da) * (a + da) + (b + db) * (b + db) - rho * rho)
  <= 4 * rho * delta + 2 * delta * delta.
Proof.
  intros Hrho Hab Hda Hdb.
  apply Rabs_le_both in Hda. apply Rabs_le_both in Hdb.
  assert (- rho <= a <= rho) as Ha by (split; nra).
  assert (- rho <= b <= rho) as Hb by (split; nra).
  assert (0 <= delta) as Hd by lra.
  assert (- (rho * delta) <= a * da <= rho * delta) as Hada by (split; nra).
  assert (- (rho * delta) <= b * db <= rho * delta) as Hbdb by (split; nra).
  assert (0 <= da * da <= delta * delta) as Hdd by (split; nra).
  assert (0 <= db * db <= delta * delta) as Hdd' by (split; nra).
  replace ((a + da) * (a + da) + (b + db) * (b + db) - rho * rho)
    with (2 * (a * da) + 2 * (b * db) + da * da + db * db) by (rewrite <- Hab; ring).
  apply Rabs_le. lra.
Qed.

(** The stored coordinates of a point of the circle of radius [rho], up
    to 40: how far they are from the origin. *)
Lemma stored_radius a b rho :
  0 <= rho <= 40 -> a * a + b * b = rho * rho ->
  rho * rho - (0.000016 * rho + 0.000000000032)
  <= fround a * fround a + fround b * fround b
  <= rho * rho + (0.000016 * rho + 0.000000000032).
Proof.
  intros Hrho Hab.
  assert (Rabs a <= 64 /\ Rabs b <= 64) as [Ha Hb].
  { split; apply Rabs_le; split; nra. }
  pose proof (fround_error_64 a Ha) as Hda.
  pose proof (fround_error_64 b Hb) as Hdb.
  pose proof (near_circle a b (fround a - a) (fround b - b) rho 0.000004
                ltac:(lra) Hab Hda Hdb) as H.
  replace (a + (fround a - a)) with (fround a) in H by lra.
  replace (b + (fround b - b)) with (fround b) in H by lra.
  apply Rabs_le_both in H. lra.
Qed.

Lemma stored_radius_le a b rho :
  0 <= rho <= 40 -> a * a + b * b = rho * rho ->
  sqrt (fround a * fround a + fround b * fround b) <= rho + 0.00001.
Proof.
  intros Hrho Hab. pose proof (stored_radius a b rho Hrho Hab) as [_ H].
  rewrite <- (sqrt_square (rho + 0.00001)) by lra.
  apply sqrt_le_1_alt. nra.
Qed.


Lemma mistLoop_cons time i x y z ps vx vy vz vs :
  mistLoop time i (x :: y :: z :: ps) (vx :: vy :: vz :: vs) =
    let '(x', y', z') := mistStep time i x y z vx vz in
    x' :: y' :: z' :: mistLoop time (i + 3) ps vs.
Proof. reflexivity. Qed.



End GroundMist.


Section GroundMistExample.

Import Float32 Particles.


End GroundMistExample.

(** ** Snowflakes at the ground *)

Section SnowAtTheGround.

Import SnowCover Particles Frame.

Lemma wrapEdge_inside p : -60 <= p <= 60 -> wrapEdge p = p.
Proof. intros H. unfold wrapEdge, gtb. by rdecide. Qed.

(** [animateSnow] on a flake that the frame takes below the ground: the
    flake restarts at height 80 from five draws, and no function that
    touches the drifts is called. *)
Lemma animateSnowLoop_below time x y z vx vy vz g :
  y + vy < 0 ->
  animateSnowLoop time [x; y; z] [vx; vy; vz] g =
    (([wrapEdge ((g 0%nat - 0.5) * 120); 80;
       wrapEdge ((g 1%nat - 0.5) * 120)],
      [(g 2%nat - 0.5) * 0.2; - g 3%nat * 0.3 - 0.2; (g 4%nat - 0.5) * 0.2]),
     Rng.drop 5 g).
Proof.
  intros H. simpl. unfold Rng.bind, Rng.ret, Rng.Math_random.
  by rewrite (proj2 (ltb_true (y + vy) 0)) by done.
Qed.

(** [updateSnow] leaves a flake above the ground, and with it the
    drifts, alone. *)
Lemma settleSnowLoop_above children x y z vx vy vz g :
  0 < y ->
  settleSnowLoop children [x; y; z] [vx; vy; vz] g =
    ((children, ([x; y; z], [vx; vy; vz])), g).
Proof.
  intros H. simpl. unfold Rng.bind, Rng.ret.
  by rewrite (proj2 (leb_false y 0)) by done.
Qed.

(** The sibling path: [updateSnow] on a flake at or below the ground
    reports the impact to [addToSnowCover] before it resets the flake, to
    height 50. *)
Lemma settleSnowLoop_ground children x y z vx vy vz g :
  y <= 0 ->
  settleSnowLoop children [x; y; z] [vx; vy; vz] g =
    let (children', g') := addToSnowCover x z children g in
    ((children',
      ([(g' 0%nat - 0.5) * 100; 50; (g' 1%nat - 0.5) * 100],
       [(g' 2%nat - 0.5) * 0.1; - g' 3%nat * 0.5 - 0.1;
        (g' 4%nat - 0.5) * 0.1])),
     Rng.drop 5 g').
Proof.
  intros H. simpl. unfold Rng.bind, Rng.ret, Rng.Math_random.
  rewrite (proj2 (leb_true y 0)) by done.
  by destruct (addToSnowCover x z children g) as [children' g'].
Qed.

(** When [animateSnow] has run, no flake is below the ground: the test
    [positions[i + 1] <= 0] of [updateSnow], which runs after it, can
    only hold for a flake at height 0 exactly. *)
Lemma animateSnowLoop_aboveGround time positions : forall velocities g,
  length velocities = length positions ->
  aboveGround (fst (fst (animateSnowLoop time positions velocities g))).
Proof.
  induction positions as [| a | a b | x y z ps IH] using triples_ind;
    intros velocities g Hlen; try exact I.
  destruct velocities as [|vx [|vy [|vz vs]]]; try discriminate Hlen.
  simpl in Hlen. simpl. unfold Rng.bind, Rng.ret, Rng.Math_random.
  destruct (ltb (y + vy) 0) eqn:E.
  - specialize (IH vs (Rng.drop 5 g) ltac:(lia)). simpl in IH.
    unfold Rng.tl in IH.
    destruct (animateSnowLoop time ps vs _) as [[ps' vs'] g'].
    simpl. split; [lra | done].
  - apply ltb_false in E. specialize (IH vs g ltac:(lia)).
    destruct (animateSnowLoop time ps vs g) as [[ps' vs'] g'].
    simpl. split; [lra | done].
Qed.

Lemma frameSkip_evenSecond : frameSkip 2 (1 / 60) = true.
Proof.
  unfold frameSkip. replace 2 with (2 * IZR 1 + 0) at 1 by lra.
  rewrite jsRem_2; [|lia|lra]. apply ltb_true. lra.
Qed.

Lemma animateSnow_flake :
  animateSnow (snowTime evenSecond) (snow flakeVillage) (Rng.const 0) =
    (Some (mkSnow [-60; 80; -60] [-0.1; -0.2; -0.1]),
     Rng.drop 5 (Rng.const 0)).
Proof.
  unfold animateSnow, flakeVillage, snow, snowPositions, snowVelocities.
  unfold Rng.bind. rewrite animateSnowLoop_below by lra.
  unfold Rng.ret, Rng.const. cbn [fst snd].
  rewrite !wrapEdge_inside by lra.
  do 2 f_equal; repeat f_equal; lra.
Qed.

Lemma secondaryUpdates_flake r last g :
  secondaryUpdates r
    (mkVillage last []
       (Some (mkSnow [-60; 80; -60] [-0.1; -0.2; -0.1]))
       (mkSystems [] None None) [] None) g
  = (mkVillage last []
       (Some (mkSnow [-60; 80; -60] [-0.1; -0.2; -0.1]))
       (mkSystems [] None None) [] None, g).
Proof.
  unfold secondaryUpdates, updateParticleSystems, updateSnow.
  cbn [Frame.systems Frame.drifts Frame.snow chimneySmoke fireflies
       groundMist updateChimneySmoke growDrifts snowPositions
       snowVelocities Frame.lastFrameTime Frame.elves Frame.santa].
  unfold Rng.bind, Rng.ret.
  rewrite settleSnowLoop_above by lra. reflexivity.
Qed.

(** C6, the code at the failing input: a frame in which the secondary
    updates run, on a flake that falls below the ground over an empty
    drift collection, with every draw 0 (a draw below 0.05 is the one on
    which a reported impact spawns a drift).  [animateSnow] resets the
    flake to height 80 and reports nothing; [updateSnow], run next, finds
    the flake at 80: the collection is still empty. *)
Theorem ground_hit_without_impact :
  exists v,
    fst (animate evenSecond flakeVillage (Rng.const 0)) = Some v /\
    drifts v = [] /\
    snow v = Some (mkSnow [-60; 80; -60] [-0.1; -0.2; -0.1]).
Proof.
  exists (mkVillage (Some 2000) []
            (Some (mkSnow [-60; 80; -60] [-0.1; -0.2; -0.1]))
            (mkSystems [] None None) [] None).
  split; [|done].
  unfold animate.
  change (frameDue flakeVillage (currentTime evenSecond)) with true.
  change (frameSkip (time evenSecond) (deltaTime evenSecond))
    with (frameSkip 2 (1 / 60)).
  rewrite frameSkip_evenSecond. cbv beta iota.
  unfold Rng.bind at 1. rewrite animateSnow_flake.
  change (PathFollower.animateCharacters (characterTime evenSecond)
            (elves flakeVillage) (santa flakeVillage))
    with (Some (@nil PathFollower.Character, @None PathFollower.Character)).
  cbv beta iota. unfold Rng.bind at 1.
  by rewrite secondaryUpdates_flake.
Qed.

(** What [updateSnow] does when it is the one to find the same flake
    below the ground: the drift is spawned. *)
Lemma ground_hit_in_updateSnow :
  exists d,
    fst (fst (updateSnow [] (Some (mkSnow [0; -0.1; 0] [0; -0.2; 0]))
                (Rng.const 0))) = [d] /\
    position d = mkV 0 0.1 0.
Proof.
  unfold updateSnow. simpl. unfold Rng.bind, Rng.ret, Rng.Math_random.
  simpl. rewrite (proj2 (leb_true (-0.1) 0)) by lra.
  unfold addToSnowCover. simpl.
  unfold Rng.bind, Rng.ret, Rng.Math_random, Rng.const. simpl.
  rewrite (proj2 (ltb_true 0 0.05)) by lra. simpl.
  eexists. split; [reflexivity|]. simpl. f_equal; lra.
Qed.

End SnowAtTheGround.

(** ** The drifts that the code creates *)

Section CreatedDrifts.

Import SnowCover Particles.

Lemma initialDrift_inert g :
  Rng.unit_draws g -> inert (fst (initialDrift g)).
Proof.
  intros Hg. unfold inert. simpl. pose proof (Hg 1%nat). lra.
Qed.

Lemma initialDrifts_S n g :
  initialDrifts (S n) g =
    let (rest, g') := initialDrifts n (Rng.drop 7 g) in
    (fst (initialDrift g) :: rest, g').
Proof. reflexivity. Qed.

Lemma initialDrifts_inert n : forall g,
  Rng.unit_draws g ->
  Forall inert (fst (initialDrifts n g)) /\
  Rng.unit_draws (snd (initialDrifts n g)).
Proof.
  induction n as [|n IH]; intros g Hg; [by split|].
  rewrite initialDrifts_S.
  destruct (IH (Rng.drop 7 g) (unit_draws_drop 7 g Hg)) as [Hall Hg'].
  destruct (initialDrifts n (Rng.drop 7 g)) as [rest g2].
  split; [|done]. constructor; [by apply initialDrift_inert | done].
Qed.

Lemma growDrift_inert d : inert d -> growDrift d = d.
Proof. apply growDrift_capped. Qed.

Lemma growDrifts_inert children : forall g,
  Forall inert children -> fst (growDrifts children g) = children.
Proof.
  induction children as [|d rest IH]; intros g H; simpl; [done|].
  inversion H as [|? ? Hd Hrest]; subst.
  unfold Rng.bind, Rng.Math_random, Rng.ret.
  specialize (IH (fun n => g (S n)) Hrest).
  destruct (growDrifts rest _) as [rest' g']. simpl in *. subst rest'.
  rewrite growDrift_inert by done. by destruct (ltb _ _).
Qed.

(** On a collection of inert drifts an impact changes no drift: it can
    only add one, inert as well. *)
Lemma addToSnowCover_inert x z children g :
  Rng.unit_draws g -> Forall inert children ->
  exists extra,
    fst (addToSnowCover x z children g) = children ++ extra /\
    Forall inert extra /\
    Rng.unit_draws (snd (addToSnowCover x z children g)).
Proof.
  intros Hg Hall.
  destruct (addToSnowCover_cases x z children g)
    as [(i & d & (Hi & _) & ->) | [(_ & _ & ->) | (_ & _ & ->)]]; simpl.
  - exists []. rewrite app_nil_r. split; [|split; [constructor | done]].
    rewrite growDrift_inert; [by apply list_insert_id|].
    rewrite Forall_forall in Hall. apply Hall.
    by apply (list_elem_of_lookup_2 _ i).
  - exists [fst (spawnDrift x z (Rng.tl g))]. split; [reflexivity|].
    split; [|by apply (unit_draws_drop 4)].
    constructor; [|constructor].
    destruct (spawned_drift_never_grows x z (Rng.tl g) (unit_draws_tl g Hg))
      as [Hlt _].
    unfold inert. apply Rlt_le. exact Hlt.
  - exists []. rewrite app_nil_r. split; [done|].
    split; [constructor | by apply unit_draws_tl].
Qed.

Lemma settleSnowLoop_inert positions : forall velocities children g,
  Rng.unit_draws g -> Forall inert children ->
  exists extra,
    fst (fst (settleSnowLoop children positions velocities g))
      = children ++ extra /\
    Forall inert extra /\
    Rng.unit_draws (snd (settleSnowLoop children positions velocities g)).
Proof.
  induction positions as [| a | a b | x y z ps IH] using triples_ind;
    intros velocities children g Hg Hall; simpl;
    try (exists []; rewrite app_nil_r;
         split; [done | split; [constructor | done]]).
  destruct velocities as [|vx [|vy [|vz vs]]];
    try (exists []; rewrite app_nil_r;
         split; [done | split; [constructor | done]]).
  destruct (leb y 0).
  - unfold Rng.bind, Rng.Math_random, Rng.ret.
    destruct (addToSnowCover_inert x z children g Hg Hall)
      as (extra1 & H1 & Hi1 & Hg1).
    destruct (addToSnowCover x z children g) as [children1 g1].
    simpl in H1, Hg1. subst children1.
    destruct (IH vs (children ++ extra1) (Rng.drop 5 g1)) as (extra2 & H2 & Hi2 & Hg2).
    { by apply (unit_draws_drop 5). }
    { by apply Forall_app. }
    simpl Rng.drop in *. unfold Rng.tl in *.
    destruct (settleSnowLoop (children ++ extra1) ps vs _)
      as [[children2 arrays] g2].
    simpl in *. exists (extra1 ++ extra2). rewrite app_assoc.
    split; [done|]. split; [by apply Forall_app | done].
  - unfold Rng.bind, Rng.ret.
    destruct (IH vs children g Hg Hall) as (extra & H & Hi & Hg').
    destruct (settleSnowLoop children ps vs g) as [[children2 arrays] g2].
    simpl in *. by exists extra.
Qed.

Lemma growDrifts_draws children : forall g,
  Rng.unit_draws g -> Rng.unit_draws (snd (growDrifts children g)).
Proof.
  induction children as [|d rest IH]; intros g Hg; simpl; [done|].
  unfold Rng.bind, Rng.Math_random, Rng.ret.
  specialize (IH (fun n => g (S n)) (unit_draws_tl g Hg)).
  by destruct (growDrifts rest _) as [rest' g'].
Qed.

Lemma coverOp_inert op children g :
  Rng.unit_draws g -> Forall inert children ->
  exists extra,
    fst (coverOp op children g) = children ++ extra /\
    Forall inert extra /\
    Rng.unit_draws (snd (coverOp op children g)).
Proof.
  intros Hg Hall. destruct op as [x z | snow]; simpl.
  - by apply addToSnowCover_inert.
  - unfold updateSnow, Rng.bind, Rng.ret.
    pose proof (growDrifts_inert children g Hall) as H1.
    pose proof (growDrifts_draws children g Hg) as Hg1.
    destruct (growDrifts children g) as [children1 g1].
    simpl in H1, Hg1. subst children1.
    destruct snow as [s|].
    + destruct (settleSnowLoop_inert (snowPositions s) (snowVelocities s)
                  children g1 Hg1 Hall) as (extra & H & Hi & Hg2).
      destruct (settleSnowLoop children _ _ g1) as [[children2 arrays] g2].
      simpl in *. by exists extra.
    + exists []. rewrite app_nil_r. simpl.
      split; [done | split; [constructor | done]].
Qed.

Lemma coverOps_inert ops : forall children g,
  Rng.unit_draws g -> Forall inert children ->
  exists extra,
    fst (coverOps ops children g) = children ++ extra /\ Forall inert extra.
Proof.
  induction ops as [|op rest IH]; intros children g Hg Hall; simpl.
  - exists []. rewrite app_nil_r. split; [done | constructor].
  - unfold Rng.bind.
    destruct (coverOp_inert op children g Hg Hall) as (extra1 & H1 & Hi1 & Hg1).
    destruct (coverOp op children g) as [children1 g1].
    simpl in H1, Hg1. subst children1.
    destruct (IH (children ++ extra1) g1 Hg1) as (extra2 & H2 & Hi2).
    { by apply Forall_app. }
    exists (extra1 ++ extra2). rewrite app_assoc.
    split; [done | by apply Forall_app].
Qed.

(** The snow cover as the code builds it never grows: the hundred initial
    drifts, like every drift spawned later, have scale.y 1 and a
    [maxHeight] below 0.8, and whatever sequence of [addToSnowCover] and
    [updateSnow] calls follows leaves each of them as it was created. *)
Lemma created_drifts_never_change ops g :
  Rng.unit_draws g ->
  exists spawned,
    fst (coverOps ops (fst (createInitialSnowDrifts g))
           (snd (createInitialSnowDrifts g)))
    = fst (createInitialSnowDrifts g) ++ spawned /\
    Forall inert spawned.
Proof.
  intros Hg.
  destruct (initialDrifts_inert numInitialDrifts g Hg) as [Hall Hg'].
  by apply coverOps_inert.
Qed.

Lemma asMade_inert d : asMade d -> inert d.
Proof. unfold asMade, inert. lra. Qed.

Lemma initialDrift_asMade g :
  Rng.unit_draws g -> asMade (fst (initialDrift g)).
Proof.
  intros Hg. unfold asMade. simpl. pose proof (Hg 1%nat). split; lra.
Qed.

Lemma initialDrifts_asMade n : forall g,
  Rng.unit_draws g -> Forall asMade (fst (initialDrifts n g)).
Proof.
  induction n as [|n IH]; intros g Hg; [constructor|].
  rewrite initialDrifts_S.
  specialize (IH (Rng.drop 7 g) (unit_draws_drop 7 g Hg)).
  destruct (initialDrifts n (Rng.drop 7 g)) as [rest g2].
  constructor; [by apply initialDrift_asMade | done].
Qed.

Lemma spawnDrift_asMade x z g :
  Rng.unit_draws g -> asMade (fst (spawnDrift x z g)).
Proof.
  intros Hg. unfold asMade. simpl. pose proof (Hg 0%nat). split; lra.
Qed.

(** An impact on a collection of drifts as made changes none of them and
    can only add one, as made too. *)
Lemma addToSnowCover_asMade x z children g :
  Rng.unit_draws g -> Forall asMade children ->
  exists extra,
    fst (addToSnowCover x z children g) = children ++ extra /\
    Forall asMade extra /\
    Rng.unit_draws (snd (addToSnowCover x z children g)).
Proof.
  intros Hg Hall.
  destruct (addToSnowCover_cases x z children g)
    as [(i & d & (Hi & _) & ->) | [(_ & _ & ->) | (_ & _ & ->)]]; simpl.
  - exists []. rewrite app_nil_r. split; [|split; [constructor | done]].
    rewrite growDrift_inert; [by apply list_insert_id|].
    apply asMade_inert. rewrite Forall_forall in Hall. apply Hall.
    by apply (list_elem_of_lookup_2 _ i).
  - exists [fst (spawnDrift x z (Rng.tl g))]. split; [reflexivity|].
    split; [|by apply (unit_draws_drop 4)].
    constructor; [|constructor].
    apply spawnDrift_asMade. by apply unit_draws_tl.
  - exists []. rewrite app_nil_r. split; [done|].
    split; [constructor | by apply unit_draws_tl].
Qed.

Lemma settleSnowLoop_asMade positions : forall velocities children g,
  Rng.unit_draws g -> Forall asMade children ->
  exists extra,
    fst (fst (settleSnowLoop children positions velocities g))
      = children ++ extra /\
    Forall asMade extra /\
    Rng.unit_draws (snd (settleSnowLoop children positions velocities g)).
Proof.
  induction positions as [| a | a b | x y z ps IH] using triples_ind;
    intros velocities children g Hg Hall; simpl;
    try (exists []; rewrite app_nil_r;
         split; [done | split; [constructor | done]]).
  destruct velocities as [|vx [|vy [|vz vs]]];
    try (exists []; rewrite app_nil_r;
         split; [done | split; [constructor | done]]).
  destruct (leb y 0).
  - unfold Rng.bind, Rng.Math_random, Rng.ret.
    destruct (addToSnowCover_asMade x z children g Hg Hall)
      as (extra1 & H1 & Hi1 & Hg1).
    destruct (addToSnowCover x z children g) as [children1 g1].
    simpl in H1, Hg1. subst children1.
    destruct (IH vs (children ++ extra1) (Rng.drop 5 g1))
      as (extra2 & H2 & Hi2 & Hg2).
    { by apply (unit_draws_drop 5). }
    { by apply Forall_app. }
    simpl Rng.drop in *. unfold Rng.tl in *.
    destruct (settleSnowLoop (children ++ extra1) ps vs _)
      as [[children2 arrays] g2].
    simpl in *. exists (extra1 ++ extra2). rewrite app_assoc.
    split; [done|]. split; [by apply Forall_app | done].
  - unfold Rng.bind, Rng.ret.
    destruct (IH vs children g Hg Hall) as (extra & H & Hi & Hg').
    destruct (settleSnowLoop children ps vs g) as [[children2 arrays] g2].
    simpl in *. by exists extra.
Qed.

Lemma coverOp_asMade op children g :
  Rng.unit_draws g -> Forall asMade children ->
  exists extra,
    fst (coverOp op children g) = children ++ extra /\
    Forall asMade extra /\
    Rng.unit_draws (snd (coverOp op children g)).
Proof.
  intros Hg Hall. destruct op as [x z | snow]; simpl.
  - by apply addToSnowCover_asMade.
  - unfold updateSnow, Rng.bind, Rng.ret.
    assert (Forall inert children) as Hin.
    { eapply Forall_impl; [exact Hall | apply asMade_inert]. }
    pose proof (growDrifts_inert children g Hin) as H1.
    pose proof (growDrifts_draws children g Hg) as Hg1.
    destruct (growDrifts children g) as [children1 g1].
    simpl in H1, Hg1. subst children1.
    destruct snow as [s|].
    + destruct (settleSnowLoop_asMade (snowPositions s) (snowVelocities s)
                  children g1 Hg1 Hall) as (extra & H & Hi & Hg2).
      destruct (settleSnowLoop children _ _ g1) as [[children2 arrays] g2].
      simpl in *. by exists extra.
    + exists []. rewrite app_nil_r. simpl.
      split; [done | split; [constructor | done]].
Qed.

Lemma coverOps_asMade ops : forall children g,
  Rng.unit_draws g -> Forall asMade children ->
  exists extra,
    fst (coverOps ops children g) = children ++ extra /\
    Forall asMade extra.
Proof.
  induction ops as [|op rest IH]; intros children g Hg Hall; simpl.
  - exists []. rewrite app_nil_r. split; [done | constructor].
  - unfold Rng.bind.
    destruct (coverOp_asMade op children g Hg Hall)
      as (extra1 & H1 & Hi1 & Hg1).
    destruct (coverOp op children g) as [children1 g1].
    simpl in H1, Hg1. subst children1.
    destruct (IH (children ++ extra1) g1 Hg1) as (extra2 & H2 & Hi2).
    { by apply Forall_app. }
    exists (extra1 ++ extra2). rewrite app_assoc.
    split; [done | by apply Forall_app].
Qed.

Lemma initialDrifts_length n : forall g,
  length (fst (initialDrifts n g)) = n.
Proof.
  induction n as [|n IH]; intros g; [done|].
  rewrite initialDrifts_S. specialize (IH (Rng.drop 7 g)).
  destruct (initialDrifts n (Rng.drop 7 g)). simpl in *. by rewrite IH.
Qed.

(** C1, the defect: the growth step is guarded by scale.y < maxHeight
    and adds [growthRate], but scale.y is a scale factor that every new
    mesh has as 1, and [maxHeight] is twice the height of the cone and
    below 0.8.  So every drift that the code makes, the hundred of
    [createInitialSnowDrifts] and every one that an impact spawns, is
    above its [maxHeight] from the moment it is made, and over any
    sequence of [addToSnowCover] and [updateSnow] calls it is never
    changed: no drift of the program ever grows. *)
Theorem drifts_made_above_maxHeight ops g :
  Rng.unit_draws g ->
  let created := fst (createInitialSnowDrifts g) in
  let cover :=
    fst (coverOps ops created (snd (createInitialSnowDrifts g))) in
  (forall d,
     vy (scale (growDrift d)) =
       if ltb (vy (scale d)) (maxHeight d)
       then vy (scale d) + growthRate d else vy (scale d)) /\
  length created = 100%nat /\
  (exists spawned, cover = created ++ spawned) /\
  Forall (fun d => vy (scale d) = 1 /\ maxHeight d < 0.8 /\
                   growDrift d = d) cover.
Proof.
  intros Hg created cover.
  split.
  { intros d. unfold growDrift. by destruct (ltb _ _). }
  pose proof (initialDrifts_asMade numInitialDrifts g Hg) as Hall.
  destruct (initialDrifts_inert numInitialDrifts g Hg) as [_ Hg'].
  destruct (coverOps_asMade ops created _ Hg' Hall) as (spawned & Hc & Hsp).
  split; [apply (initialDrifts_length numInitialDrifts)|].
  assert (cover = created ++ spawned) as Hc' by exact Hc.
  split; [by exists spawned|]. rewrite Hc'.
  assert (Forall asMade (created ++ spawned)) as H by (by apply Forall_app).
  eapply Forall_impl; [exact H|].
  intros d [H1 H2]. split; [done|]. split; [done|].
  apply growDrift_inert. unfold inert. lra.
Qed.

Lemma drifts_made_above_maxHeight_witness :
  Rng.unit_draws (Rng.const 0) /\
  Forall (fun d => vy (scale d) = 1 /\ maxHeight d < 0.8 /\
                   growDrift d = d)
    (fst (coverOps [Impact 0 0; Update None; Impact 3 3]
            (fst (createInitialSnowDrifts (Rng.const 0)))
            (snd (createInitialSnowDrifts (Rng.const 0))))).
Proof.
  assert (Rng.unit_draws (Rng.const 0)) as Hg
    by (intros n; unfold Rng.const; lra).
  split; [exact Hg|].
  apply (drifts_made_above_maxHeight [Impact 0 0; Update None; Impact 3 3]
           (Rng.const 0) Hg).
Defined.

End CreatedDrifts.

(** * Further properties of the code *)

(** ** The snow stays in its box *)

Section SnowBox.

Import SnowCover Particles SnowFall.

Lemma wrapEdge_range p : -60 <= wrapEdge p <= 60.
Proof.
  unfold wrapEdge, gtb.
  destruct (ltb 60 p) eqn:E1;
    [apply ltb_true in E1 | apply ltb_false in E1].
  - rdecide. lra.
  - destruct (ltb p (-60)) eqn:E2;
      [apply ltb_true in E2 | apply ltb_false in E2]; lra.
Qed.

Lemma addToSnowCover_draws x z children g :
  Rng.unit_draws g -> Rng.unit_draws (snd (addToSnowCover x z children g)).
Proof.
  intros Hg.
  destruct (addToSnowCover_cases x z children g)
    as [(i & d & _ & ->) | [(_ & _ & ->) | (_ & _ & ->)]]; simpl.
  - done.
  - by apply (unit_draws_drop 4).
  - by apply unit_draws_tl.
Qed.

Lemma createFlakes_S n g :
  createFlakes (S n) g =
    let (rest, g') := createFlakes n (Rng.drop 6 g) in
    (((g 0%nat - 0.5) * 120 :: g 1%nat * 80 :: (g 2%nat - 0.5) * 120
        :: fst rest,
      (g 3%nat - 0.5) * 0.2 :: - g 4%nat * 0.3 - 0.2 :: (g 5%nat - 0.5) * 0.2
        :: snd rest), g').
Proof. reflexivity. Qed.

Lemma createFlakes_box n : forall g,
  Rng.unit_draws g ->
  flakesInBox (fst (fst (createFlakes n g))) (snd (fst (createFlakes n g))) /\
  length (fst (fst (createFlakes n g))) = (3 * n)%nat /\
  length (snd (fst (createFlakes n g))) = (3 * n)%nat /\
  Rng.unit_draws (snd (createFlakes n g)).
Proof.
  induction n as [|n IH]; intros g Hg.
  { simpl. split; [exact I|]. repeat (split; [reflexivity|]). exact Hg. }
  rewrite createFlakes_S.
  destruct (IH (Rng.drop 6 g) (unit_draws_drop 6 g Hg))
    as (Hbox & Hlen & Hlenv & Hg').
  destruct (createFlakes n (Rng.drop 6 g)) as [[ps vs] g'].
  simpl in *.
  pose proof (Hg 0%nat). pose proof (Hg 1%nat). pose proof (Hg 2%nat).
  pose proof (Hg 4%nat).
  split; [|split; [lia | split; [lia | done]]].
  repeat split; try lra; done.
Qed.

Lemma animateSnowLoop_box time positions : forall velocities g,
  Rng.unit_draws g -> flakesInBox positions velocities ->
  let r := animateSnowLoop time positions velocities g in
  flakesInBox (fst (fst r)) (snd (fst r)) /\
  length (fst (fst r)) = length positions /\
  Rng.unit_draws (snd r).
Proof.
  induction positions as [| a | a b | x y z ps IH] using triples_ind;
    intros velocities g Hg Hbox; try (by destruct velocities).
  destruct velocities as [|vx [|vy [|vz vs]]]; try done.
  destruct Hbox as (Hx & Hy & Hz & Hvy & Hrest).
  simpl. unfold Rng.bind, Rng.ret, Rng.Math_random.
  destruct (ltb (y + vy) 0) eqn:E.
  - destruct (IH vs (Rng.drop 5 g) (unit_draws_drop 5 g Hg) Hrest)
      as (Hbox' & Hlen & Hg').
    simpl in Hbox', Hlen, Hg'. unfold Rng.tl in *.
    destruct (animateSnowLoop time ps vs _) as [[ps' vs'] g'].
    simpl in *. pose proof (Hg 3%nat).
    split; [|split; [by rewrite Hlen | done]].
    repeat split; try apply wrapEdge_range; try lra; done.
  - apply ltb_false in E.
    destruct (IH vs g Hg Hrest) as (Hbox' & Hlen & Hg').
    destruct (animateSnowLoop time ps vs g) as [[ps' vs'] g'].
    simpl in *.
    split; [|split; [by rewrite Hlen | done]].
    repeat split; try apply wrapEdge_range; try lra; done.
Qed.

Lemma settleSnowLoop_box positions : forall velocities children g,
  Rng.unit_draws g -> flakesInBox positions velocities ->
  let r := settleSnowLoop children positions velocities g in
  flakesInBox (fst (snd (fst r))) (snd (snd (fst r))) /\
  strictlyAbove (fst (snd (fst r))) /\
  length (fst (snd (fst r))) = length positions /\
  Rng.unit_draws (snd r).
Proof.
  induction positions as [| a | a b | x y z ps IH] using triples_ind;
    intros velocities children g Hg Hbox; try (by destruct velocities).
  destruct velocities as [|vx [|vy [|vz vs]]]; try done.
  destruct Hbox as (Hx & Hy & Hz & Hvy & Hrest).
  simpl. destruct (leb y 0) eqn:E.
  - unfold Rng.bind, Rng.ret, Rng.Math_random.
    pose proof (addToSnowCover_draws x z children g Hg) as Hg1.
    destruct (addToSnowCover x z children g) as [children1 g1].
    simpl in Hg1.
    destruct (IH vs children1 (Rng.drop 5 g1) (unit_draws_drop 5 g1 Hg1) Hrest)
      as (Hbox' & Habove & Hlen & Hg').
    simpl in Hbox', Habove, Hlen, Hg'. unfold Rng.tl in *.
    destruct (settleSnowLoop children1 ps vs _) as [[children2 [ps' vs']] g2].
    simpl in *. pose proof (Hg1 0%nat). pose proof (Hg1 1%nat).
    pose proof (Hg1 3%nat).
    split; [|split; [|split; [by rewrite Hlen | done]]].
    + repeat split; try lra; done.
    + split; [lra | done].
  - apply leb_false in E. unfold Rng.bind, Rng.ret.
    destruct (IH vs children g Hg Hrest) as (Hbox' & Habove & Hlen & Hg').
    destruct (settleSnowLoop children ps vs g) as [[children2 [ps' vs']] g2].
    simpl in *.
    split; [|split; [|split; [by rewrite Hlen | done]]].
    + repeat split; try lra; done.
    + split; [lra | done].
Qed.

Lemma snowOp_box op children s g :
  Rng.unit_draws g ->
  flakesInBox (snowPositions s) (snowVelocities s) ->
  exists children' s',
    fst (snowOp op (children, Some s) g) = (children', Some s') /\
    flakesInBox (snowPositions s') (snowVelocities s') /\
    length (snowPositions s') = length (snowPositions s) /\
    Rng.unit_draws (snd (snowOp op (children, Some s) g)).
Proof.
  intros Hg Hbox. destruct op as [time|]; simpl.
  - unfold Rng.bind, Rng.ret.
    destruct (animateSnowLoop_box time _ _ g Hg Hbox) as (Hbox' & Hlen & Hg').
    destruct (animateSnowLoop time _ _ g) as [[ps' vs'] g'].
    simpl in *. by exists children, (mkSnow ps' vs').
  - unfold updateSnow, Rng.bind, Rng.ret.
    pose proof (growDrifts_draws children g Hg) as Hg1.
    destruct (growDrifts children g) as [children1 g1]. simpl in Hg1.
    destruct (settleSnowLoop_box _ _ children1 g1 Hg1 Hbox)
      as (Hbox' & _ & Hlen & Hg').
    destruct (settleSnowLoop children1 _ _ g1) as [[children2 [ps' vs']] g2].
    simpl in *. by exists children2, (mkSnow ps' vs').
Qed.

Lemma snowOps_box ops : forall children s g,
  Rng.unit_draws g ->
  flakesInBox (snowPositions s) (snowVelocities s) ->
  exists children' s',
    fst (snowOps ops (children, Some s) g) = (children', Some s') /\
    flakesInBox (snowPositions s') (snowVelocities s') /\
    length (snowPositions s') = length (snowPositions s).
Proof.
  induction ops as [|op rest IH]; intros children s g Hg Hbox; simpl.
  - by exists children, s.
  - unfold Rng.bind.
    destruct (snowOp_box op children s g Hg Hbox)
      as (children1 & s1 & Heq & Hbox1 & Hlen1 & Hg1).
    destruct (snowOp op (children, Some s) g) as [st1 g1].
    simpl in Heq, Hg1. subst st1.
    destruct (IH children1 s1 g1 Hg1 Hbox1) as (children2 & s2 & Heq2 & Hbox2 & Hlen2).
    exists children2, s2. split; [done|]. split; [done|]. congruence.
Qed.

(** X1: the snow that [createSnow] sets up, 3000 flakes in two arrays of
    three entries a flake, stays what it is through any sequence of
    [animateSnow] and [updateSnow] calls: the arrays keep their length,
    and every flake keeps x and z within 60 of the origin, a height from 0
    to 80 and a negative vertical velocity. *)
Theorem snow_stays_in_box ops children g :
  Rng.unit_draws g ->
  exists children' s',
    fst (snowOps ops (children, Some (fst (createSnow g)))
           (snd (createSnow g))) = (children', Some s') /\
    flakesInBox (snowPositions s') (snowVelocities s') /\
    length (snowPositions s') = (3 * numFlakes)%nat /\
    length (snowPositions (fst (createSnow g))) = (3 * numFlakes)%nat /\
    length (snowVelocities (fst (createSnow g))) = (3 * numFlakes)%nat.
Proof.
  intros Hg. unfold createSnow, Rng.bind, Rng.ret.
  destruct (createFlakes_box numFlakes g Hg) as (Hbox & Hlen & Hlenv & Hg').
  destruct (createFlakes numFlakes g) as [[ps vs] g0].
  cbn [fst snd snowPositions snowVelocities] in *.
  destruct (snowOps_box ops children (mkSnow ps vs) g0 Hg' Hbox)
    as (children' & s' & Heq & Hbox' & Hlen').
  exists children', s'. split; [done|]. split; [done|].
  cbn [snowPositions] in Hlen'. split; [congruence | done].
Qed.

Lemma snow_stays_in_box_witness :
  Rng.unit_draws (Rng.const 0.5) /\
  exists children' s',
    fst (snowOps [AnimateSnow 0; UpdateSnow; AnimateSnow 0.02]
           ([], Some (fst (createSnow (Rng.const 0.5))))
           (snd (createSnow (Rng.const 0.5)))) = (children', Some s') /\
    flakesInBox (snowPositions s') (snowVelocities s').
Proof.
  assert (Rng.unit_draws (Rng.const 0.5)) as Hg
    by (intros n; unfold Rng.const; lra).
  split; [exact Hg|].
  destruct (snow_stays_in_box [AnimateSnow 0; UpdateSnow; AnimateSnow 0.02]
              [] (Rng.const 0.5) Hg) as (children' & s' & Heq & Hbox & _).
  exists children', s'. split; assumption.
Defined.

End SnowBox.

(** ** [updateSnow] and the flakes above the ground *)

Section SnowAboveGround.

Import SnowCover Particles SnowFall.

Lemma settleSnowLoop_strictlyAbove positions : forall velocities children g,
  strictlyAbove positions ->
  settleSnowLoop children positions velocities g =
    ((children, (positions, velocities)), g).
Proof.
  induction positions as [| a | a b | x y z ps IH] using triples_ind;
    intros velocities children g Habove; try reflexivity.
  destruct velocities as [|vx [|vy [|vz vs]]]; try reflexivity.
  destruct Habove as [Hy Hrest]. simpl.
  rewrite (proj2 (leb_false y 0)) by done.
  unfold Rng.bind, Rng.ret. by rewrite (IH vs children g Hrest).
Qed.

Lemma settleSnowLoop_leaves_above positions : forall velocities children g,
  length velocities = length positions ->
  strictlyAbove (fst (snd (fst (settleSnowLoop children positions velocities g)))) /\
  length (snd (snd (fst (settleSnowLoop children positions velocities g))))
  = length (fst (snd (fst (settleSnowLoop children positions velocities g)))).
Proof.
  induction positions as [| a | a b | x y z ps IH] using triples_ind;
    intros velocities children g Hlen; try (by split).
  destruct velocities as [|vx [|vy [|vz vs]]]; try discriminate Hlen.
  simpl in Hlen. simpl. destruct (leb y 0) eqn:E.
  - unfold Rng.bind, Rng.ret, Rng.Math_random.
    destruct (addToSnowCover x z children g) as [children1 g1].
    destruct (IH vs children1 (Rng.drop 5 g1) ltac:(lia)) as [Habove Hl].
    simpl in Habove, Hl. unfold Rng.tl in *.
    destruct (settleSnowLoop children1 ps vs _) as [[children2 [ps' vs']] g2].
    simpl in *. split; [split; [lra | done] | lia].
  - apply leb_false in E. unfold Rng.bind, Rng.ret.
    destruct (IH vs children g ltac:(lia)) as [Habove Hl].
    destruct (settleSnowLoop children ps vs g) as [[children2 [ps' vs']] g2].
    simpl in *. split; [split; [lra | done] | lia].
Qed.

(** X2: [updateSnow] resets and reports only flakes at or below height 0.
    When every flake is above the ground it leaves both arrays as they
    are, calls [addToSnowCover] for none, and the only change to the
    drifts is the 1% growth pass. *)
Theorem updateSnow_above_ground children s g :
  strictlyAbove (snowPositions s) ->
  updateSnow children (Some s) g =
    ((fst (growDrifts children g), Some s), snd (growDrifts children g)).
Proof.
  intros Habove. unfold updateSnow, Rng.bind, Rng.ret.
  destruct (growDrifts children g) as [children1 g1].
  rewrite settleSnowLoop_strictlyAbove by done. by destruct s.
Qed.

Lemma updateSnow_above_ground_witness :
  strictlyAbove (snowPositions (mkSnow [3; 41.5; -7; 12; 0.3; 59]
                                  [0.05; -0.3; 0.01; -0.02; -0.45; 0])) /\
  updateSnow [] (Some (mkSnow [3; 41.5; -7; 12; 0.3; 59]
                         [0.05; -0.3; 0.01; -0.02; -0.45; 0])) (Rng.const 0)
  = (([], Some (mkSnow [3; 41.5; -7; 12; 0.3; 59]
                  [0.05; -0.3; 0.01; -0.02; -0.45; 0])), Rng.const 0).
Proof.
  assert (strictlyAbove
            (snowPositions (mkSnow [3; 41.5; -7; 12; 0.3; 59]
                              [0.05; -0.3; 0.01; -0.02; -0.45; 0]))) as H.
  { simpl. repeat split; lra. }
  split; [exact H|].
  exact (updateSnow_above_ground [] _ (Rng.const 0) H).
Defined.

(** X3: when [updateSnow] has run, on arrays of equal length, every flake
    is above the ground, so that an [updateSnow] run right after it finds
    nothing to reset: the snow after the second run is the snow after the
    first. *)
Theorem updateSnow_twice children s g :
  length (snowVelocities s) = length (snowPositions s) ->
  exists children1 s1 g1,
    updateSnow children (Some s) g = ((children1, Some s1), g1) /\
    strictlyAbove (snowPositions s1) /\
    snd (fst (updateSnow children1 (Some s1) g1)) = Some s1.
Proof.
  intros Hlen. unfold updateSnow at 1. unfold Rng.bind, Rng.ret.
  destruct (growDrifts children g) as [children0 g0].
  destruct (settleSnowLoop_leaves_above (snowPositions s) (snowVelocities s)
              children0 g0 Hlen) as [Habove _].
  destruct (settleSnowLoop children0 _ _ g0) as [[children1 [ps1 vs1]] g1].
  simpl in Habove.
  exists children1, (mkSnow ps1 vs1), g1. split; [done|]. split; [done|].
  unfold updateSnow, Rng.bind, Rng.ret.
  destruct (growDrifts children1 g1) as [children2 g2].
  by rewrite settleSnowLoop_strictlyAbove.
Qed.

Lemma updateSnow_twice_witness :
  length [0.05; -0.3; 0.01; -0.02; -0.45; 0] = length [3; 0; -7; 12; -0.2; 59]
  /\
  exists children1 s1 g1,
    updateSnow [] (Some (mkSnow [3; 0; -7; 12; -0.2; 59]
                           [0.05; -0.3; 0.01; -0.02; -0.45; 0]))
      (Rng.const 0.5) = ((children1, Some s1), g1) /\
    strictlyAbove (snowPositions s1) /\
    snd (fst (updateSnow children1 (Some s1) g1)) = Some s1.
Proof.
  split; [reflexivity|].
  exact (updateSnow_twice []
           (mkSnow [3; 0; -7; 12; -0.2; 59] [0.05; -0.3; 0.01; -0.02; -0.45; 0])
           (Rng.const 0.5) eq_refl).
Defined.

End SnowAboveGround.

(** ** The drifts at the start, and where drifts appear *)

Section DriftSitesFacts.

Import SnowCover Particles DriftSites.

Lemma Int_part_unit_scaled r :
  0 <= r < 1 -> (0 <= Int_part (r * 6) <= 5)%Z.
Proof.
  intros Hr. destruct (base_Int_part (r * 6)) as [Hlo Hhi].
  split.
  - assert (-1 < Int_part (r * 6))%Z; [|lia].
    apply lt_IZR. lra.
  - assert (Int_part (r * 6) < 6)%Z; [|lia].
    apply lt_IZR. lra.
Qed.

Lemma initialDrift_shape g :
  Rng.unit_draws g -> initialShape (fst (initialDrift g)).
Proof.
  intros Hg. unfold initialShape. simpl.
  pose proof (Hg 0%nat). pose proof (Hg 1%nat). pose proof (Hg 3%nat).
  pose proof (Hg 4%nat). pose proof (Hg 6%nat).
  pose proof (Int_part_unit_scaled (g 2%nat) (Hg 2%nat)).
  repeat split; try lra; try lia; done.
Qed.

Lemma initialDrifts_shape n : forall g,
  Rng.unit_draws g ->
  length (fst (initialDrifts n g)) = n /\
  Forall initialShape (fst (initialDrifts n g)).
Proof.
  induction n as [|n IH]; intros g Hg; [by split|].
  rewrite initialDrifts_S.
  destruct (IH (Rng.drop 7 g) (unit_draws_drop 7 g Hg)) as [Hlen Hall].
  destruct (initialDrifts n (Rng.drop 7 g)) as [rest g2]. simpl in *.
  split; [by rewrite Hlen|]. constructor; [|done].
  by apply initialDrift_shape.
Qed.

(** X4: [createInitialSnowDrifts] makes exactly 100 drifts.  Each sits on
    the ground (its centre at half its cone height, at scale 1) inside the
    square of 80 by 80, with a cone of radius from 1 to 3, height from 0.1
    to 0.4 and 6 to 11 segments, a [maxHeight] of twice its cone height
    and a growth rate from 0.0001 to 0.0002. *)
Theorem createInitialSnowDrifts_shape g :
  Rng.unit_draws g ->
  length (fst (createInitialSnowDrifts g)) = 100%nat /\
  Forall initialShape (fst (createInitialSnowDrifts g)).
Proof. intros Hg. by apply (initialDrifts_shape numInitialDrifts). Qed.

Lemma createInitialSnowDrifts_shape_witness :
  Rng.unit_draws (Rng.const 0.25) /\
  length (fst (createInitialSnowDrifts (Rng.const 0.25))) = 100%nat /\
  Forall initialShape (fst (createInitialSnowDrifts (Rng.const 0.25))).
Proof.
  assert (Rng.unit_draws (Rng.const 0.25)) as Hg
    by (intros n; unfold Rng.const; lra).
  split; [exact Hg|].
  exact (createInitialSnowDrifts_shape (Rng.const 0.25) Hg).
Defined.

(** X5: the growth block of [updateSnow] never changes a drift of the
    program.  After any sequence of [addToSnowCover] and [updateSnow]
    calls on the drifts of [createInitialSnowDrifts], these are all still
    there as they were made, every drift has a scale.y that is not below
    its [maxHeight], and one more pass of the growth block leaves the
    whole collection as it is. *)
Theorem snow_cover_never_grows ops g g' :
  Rng.unit_draws g ->
  exists spawned,
    let cover :=
      fst (coverOps ops (fst (createInitialSnowDrifts g))
             (snd (createInitialSnowDrifts g))) in
    cover = fst (createInitialSnowDrifts g) ++ spawned /\
    Forall (fun d => maxHeight d <= vy (scale d)) cover /\
    fst (growDrifts cover g') = cover.
Proof.
  intros Hg.
  destruct (created_drifts_never_change ops g Hg) as (spawned & -> & Hsp).
  destruct (initialDrifts_inert numInitialDrifts g Hg) as [Hall _].
  exists spawned. cbv zeta.
  assert (Forall inert (fst (createInitialSnowDrifts g) ++ spawned)) as Hi
    by (by apply Forall_app).
  split; [done|]. split; [exact Hi|]. by apply growDrifts_inert.
Qed.

Lemma snow_cover_never_grows_witness :
  Rng.unit_draws (Rng.const 0) /\
  exists spawned,
    let cover :=
      fst (coverOps [Impact 0 0; Update None; Impact 3 3]
             (fst (createInitialSnowDrifts (Rng.const 0)))
             (snd (createInitialSnowDrifts (Rng.const 0)))) in
    cover = fst (createInitialSnowDrifts (Rng.const 0)) ++ spawned /\
    Forall (fun d => maxHeight d <= vy (scale d)) cover /\
    fst (growDrifts cover (Rng.const 0.5)) = cover.
Proof.
  assert (Rng.unit_draws (Rng.const 0)) as Hg
    by (intros n; unfold Rng.const; lra).
  split; [exact Hg|].
  exact (snow_cover_never_grows [Impact 0 0; Update None; Impact 3 3]
           (Rng.const 0) (Rng.const 0.5) Hg).
Defined.

Lemma growDrift_site d : site (growDrift d) = site d.
Proof.
  unfold site.
  pose proof (growDrift_frame d) as (Hx & Hz & _). simpl in Hx, Hz.
  by rewrite Hx, Hz.
Qed.

Lemma sites_insert_grown l i d :
  l !! i = Some d -> sites (<[i := growDrift d]> l) = sites l.
Proof.
  intros Hi. unfold sites. rewrite list_fmap_insert.
  apply list_insert_id. rewrite list_lookup_fmap, Hi. simpl.
  by rewrite growDrift_site.
Qed.

Lemma spacedAfter_app base e1 : forall e2,
  spacedAfter base e1 -> spacedAfter (base ++ e1) e2 ->
  spacedAfter base (e1 ++ e2).
Proof.
  revert base. induction e1 as [|s e1 IH]; intros base e2 H1 H2; simpl in *.
  - by rewrite app_nil_r in H2.
  - destruct H1 as [Hfar Hrest]. split; [done|].
    apply IH; [done|]. by rewrite <- app_assoc.
Qed.

Lemma noneWithin_farFrom x z l : noneWithin x z l -> farFrom (x, z) (sites l).
Proof.
  intros Hnone. unfold farFrom, sites. rewrite Forall_fmap.
  apply Forall_lookup. intros i d Hi. simpl.
  specialize (Hnone i d Hi). unfold within, planarDistance in Hnone.
  apply Rnot_lt_le. exact Hnone.
Qed.

Lemma addToSnowCover_sites x z children g :
  exists extra,
    sites (fst (addToSnowCover x z children g)) = sites children ++ extra /\
    spacedAfter (sites children) extra.
Proof.
  destruct (addToSnowCover_cases x z children g)
    as [(i & d & (Hi & _) & ->) | [(Hnone & _ & ->) | (_ & _ & ->)]]; simpl.
  - exists []. rewrite app_nil_r. split; [by apply sites_insert_grown | done].
  - exists [(x, z)]. split.
    + unfold sites. by rewrite fmap_app.
    + simpl. split; [by apply noneWithin_farFrom | done].
  - exists []. by rewrite app_nil_r.
Qed.

Lemma growDrifts_sites children : forall g,
  sites (fst (growDrifts children g)) = sites children.
Proof.
  induction children as [|d rest IH]; intros g; simpl; [done|].
  unfold Rng.bind, Rng.Math_random, Rng.ret.
  specialize (IH (fun n => g (S n))).
  destruct (growDrifts rest _) as [rest' g']. simpl in *.
  unfold sites in *. simpl. rewrite IH. f_equal.
  destruct (ltb _ _); [apply growDrift_site | done].
Qed.

Lemma settleSnowLoop_sites positions : forall velocities children g,
  exists extra,
    sites (fst (fst (settleSnowLoop children positions velocities g)))
      = sites children ++ extra /\
    spacedAfter (sites children) extra.
Proof.
  induction positions as [| a | a b | x y z ps IH] using triples_ind;
    intros velocities children g; simpl;
    try (exists []; by rewrite app_nil_r).
  destruct velocities as [|vx [|vy [|vz vs]]];
    try (exists []; by rewrite app_nil_r).
  destruct (leb y 0).
  - unfold Rng.bind, Rng.Math_random, Rng.ret.
    destruct (addToSnowCover_sites x z children g) as (e1 & H1 & S1).
    destruct (addToSnowCover x z children g) as [children1 g1].
    simpl in H1.
    destruct (IH vs children1 (Rng.drop 5 g1)) as (e2 & H2 & S2).
    simpl Rng.drop in *. unfold Rng.tl in *.
    destruct (settleSnowLoop children1 ps vs _) as [[children2 arrays] g2].
    simpl in *. exists (e1 ++ e2). rewrite H2, H1, app_assoc.
    split; [done|]. apply spacedAfter_app; [done|]. by rewrite <- H1.
  - unfold Rng.bind, Rng.ret.
    destruct (IH vs children g) as (e & H & S).
    destruct (settleSnowLoop children ps vs g) as [[children2 arrays] g2].
    by exists e.
Qed.

Lemma coverOp_sites op children g :
  exists extra,
    sites (fst (coverOp op children g)) = sites children ++ extra /\
    spacedAfter (sites children) extra.
Proof.
  destruct op as [x z | snow]; simpl.
  - apply addToSnowCover_sites.
  - unfold updateSnow, Rng.bind, Rng.ret.
    pose proof (growDrifts_sites children g) as H0.
    destruct (growDrifts children g) as [children1 g1]. simpl in H0.
    destruct snow as [s|].
    + destruct (settleSnowLoop_sites (snowPositions s) (snowVelocities s)
                  children1 g1) as (e & H & S).
      destruct (settleSnowLoop children1 _ _ g1) as [[children2 arrays] g2].
      simpl in *. exists e. by rewrite <- H0.
    + exists []. simpl. by rewrite app_nil_r.
Qed.

(** X6: no call ever moves a drift over the ground or takes one away, and
    a drift is only ever added at a point that is at least 2 away from
    every drift there is at that moment: over any sequence of
    [addToSnowCover] and [updateSnow] calls the ground points of the
    collection are those it had, in their order, followed by new ones of
    which each is at least 2 from all points before it. *)
Theorem drifts_spawn_apart ops : forall children g,
  exists extra,
    sites (fst (coverOps ops children g)) = sites children ++ extra /\
    spacedAfter (sites children) extra.
Proof.
  induction ops as [|op rest IH]; intros children g; simpl.
  - exists []. by rewrite app_nil_r.
  - unfold Rng.bind.
    destruct (coverOp_sites op children g) as (e1 & H1 & S1).
    destruct (coverOp op children g) as [children1 g1]. simpl in H1.
    destruct (IH children1 g1) as (e2 & H2 & S2).
    exists (e1 ++ e2). rewrite H2, H1, app_assoc. split; [done|].
    apply spacedAfter_app; [done|]. by rewrite <- H1.
Qed.

End DriftSitesFacts.

(** ** The mist stays inside its boundary *)

Section MistBoundary.

Import Float32 Particles ParticleSetup.

Lemma scaled_radius k x z :
  0 <= k -> sqrt (k * x * (k * x) + k * z * (k * z)) = k * sqrt (x * x + z * z).
Proof.
  intros Hk.
  replace (k * x * (k * x) + k * z * (k * z)) with (k * k * (x * x + z * z))
    by ring.
  rewrite sqrt_mult; [|nra|apply squares_nonneg].
  by rewrite sqrt_square.
Qed.

Lemma mistStep_inside time i x y z vx vz :
  sqrt (fst (fst (mistStep time i x y z vx vz))
        * fst (fst (mistStep time i x y z vx vz))
        + snd (mistStep time i x y z vx vz)
          * snd (mistStep time i x y z vx vz)) <= mistBoundary + 0.00001.
Proof.
  set (x1 := fround (x + vx)). set (z1 := fround (z + vz)).
  set (r := sqrt (x1 * x1 + z1 * z1)).
  destruct (Rlt_dec 40 r) as [Hout|Hin].
  - rewrite (mistStep_outside time i x y z vx vz Hout). cbn [fst snd].
    fold x1 z1. fold r. unfold mistBoundary.
    apply stored_radius_le; [lra|].
    assert (r * r = x1 * x1 + z1 * z1) as Hr
      by (apply sqrt_sqrt, squares_nonneg).
    transitivity (1600 * (x1 * x1 + z1 * z1) / (r * r));
      [field; lra | rewrite <- Hr; field; lra].
  - unfold mistStep, gtb. fold x1 z1. fold r.
    rewrite (proj2 (ltb_false mistBoundary r)) by (unfold mistBoundary; lra).
    cbn [fst snd]. fold r. unfold mistBoundary. lra.
Qed.

Lemma mistLoop_inside time positions : forall i velocities,
  length velocities = length positions ->
  insideBoundary (mistLoop time i positions velocities) /\
  length (mistLoop time i positions velocities) = length positions.
Proof.
  induction positions as [| a | a b | x y z ps IH] using triples_ind;
    intros i velocities Hlen; try (by split).
  destruct velocities as [|vx [|vy [|vz vs]]]; try discriminate Hlen.
  rewrite mistLoop_cons.
  pose proof (mistStep_inside time i x y z vx vz) as Hin.
  destruct (mistStep time i x y z vx vz) as [[x' y'] z'].
  destruct (IH (i + 3)%nat vs ltac:(simpl in Hlen; lia)) as [Hrest Hl].
  cbn [fst snd] in Hin. simpl. split; [by split | by rewrite Hl].
Qed.

Lemma updateMist_inside time m :
  length (mistVelocities m) = length (mistPositions m) ->
  insideBoundary (mistPositions (updateMist time m)) /\
  length (mistPositions (updateMist time m)) = length (mistPositions m) /\
  mistVelocities (updateMist time m) = mistVelocities m.
Proof.
  intros Hlen. destruct (mistLoop_inside time _ 0 _ Hlen) as [Hin Hl].
  by repeat split.
Qed.

(** X7: after [updateParticleSystems] has run on a mist whose two arrays
    have the same length, every mist particle is within 40.00001 of the
    origin over the ground, wherever it was before: within 40 but for
    the rounding of the store that puts it back.  The arrays keep their
    lengths, and the velocities stay. *)
Theorem mist_inside_after_update time m :
  length (mistVelocities m) = length (mistPositions m) ->
  insideBoundary (mistPositions (updateMist time m)) /\
  length (mistPositions (updateMist time m)) = length (mistPositions m) /\
  mistVelocities (updateMist time m) = mistVelocities m.
Proof. apply updateMist_inside. Qed.

Lemma mist_inside_after_update_witness :
  length (mistVelocities (mkMist [39.75; 0.25; 0; 500; 0.125; -500]
                            [0.5; 0; 0; 0.25; 0; 0.125]))
  = length (mistPositions (mkMist [39.75; 0.25; 0; 500; 0.125; -500]
                             [0.5; 0; 0; 0.25; 0; 0.125])) /\
  insideBoundary
    (mistPositions
       (updateMist 0 (mkMist [39.75; 0.25; 0; 500; 0.125; -500]
                        [0.5; 0; 0; 0.25; 0; 0.125]))).
Proof.
  split; [reflexivity|].
  apply (mist_inside_after_update 0
           (mkMist [39.75; 0.25; 0; 500; 0.125; -500]
              [0.5; 0; 0; 0.25; 0; 0.125]) eq_refl).
Defined.

Lemma mistParticles_S n g :
  mistParticles (S n) g =
    let '(ps, vs, ss, g') := mistParticles n (Rng.drop 7 g) in
    ((fround (cos (g 0%nat * PI * 2) * (g 1%nat * 40))
        :: fround (g 2%nat * 0.5)
        :: fround (sin (g 0%nat * PI * 2) * (g 1%nat * 40)) :: ps,
      fround ((g 3%nat - 0.5) * 0.01) :: fround ((g 4%nat - 0.5) * 0.001)
        :: fround ((g 5%nat - 0.5) * 0.01) :: vs,
      fround (g 6%nat * 2 + 1) :: ss), g').
Proof.
  simpl. unfold Rng.bind, Rng.Math_random, Rng.ret. simpl.
  by destruct (mistParticles n _) as [[[ps vs] ss] g'].
Qed.

Lemma mistParticles_inside n : forall g,
  Rng.unit_draws g ->
  insideBoundary (fst (fst (fst (mistParticles n g)))) /\
  length (fst (fst (fst (mistParticles n g)))) = (3 * n)%nat /\
  length (snd (fst (fst (mistParticles n g)))) = (3 * n)%nat.
Proof.
  induction n as [|n IH]; intros g Hg; [by repeat split|].
  rewrite mistParticles_S.
  destruct (IH (Rng.drop 7 g) (unit_draws_drop 7 g Hg)) as (Hin & Hl & Hlv).
  destruct (mistParticles n (Rng.drop 7 g)) as [[[ps vs] ss] g'].
  cbn [fst snd] in *. split; [|simpl; lia].
  simpl. split; [|done].
  pose proof (Hg 1%nat) as H1.
  set (a := g 0%nat * PI * 2). set (rho := g 1%nat * 40).
  assert (sqrt (fround (cos a * rho) * fround (cos a * rho)
                + fround (sin a * rho) * fround (sin a * rho))
          <= rho + 0.00001) as Hle.
  { apply stored_radius_le; [unfold rho; lra|].
    pose proof (sin2_cos2 a) as Hsc. unfold Rsqr in Hsc.
    transitivity (rho * rho * (sin a * sin a + cos a * cos a)); [ring|].
    rewrite Hsc. ring. }
  unfold rho, mistBoundary in *. lra.
Qed.

(** X8: the mist that [createGroundMist] sets up, 100 particles, starts
    within 40.00001 of the origin over the ground, the rounding of the
    stores included, and is there after every update, whatever the clock
    reads. *)
Theorem created_mist_stays_inside g times :
  Rng.unit_draws g ->
  insideBoundary
    (mistPositions
       (fold_left (fun m time => updateMist time m) times
          (fst (fst (createGroundMist g))))) /\
  length
    (mistPositions
       (fold_left (fun m time => updateMist time m) times
          (fst (fst (createGroundMist g))))) = 300%nat.
Proof.
  intros Hg. unfold createGroundMist, Rng.bind, Rng.ret.
  destruct (mistParticles_inside 100 g Hg) as (Hin & Hl & Hlv).
  destruct (mistParticles 100 g) as [[[ps vs] ss] g'].
  cbn [fst snd] in *.
  assert (forall m,
            insideBoundary (mistPositions m) ->
            length (mistPositions m) = 300%nat ->
            length (mistVelocities m) = 300%nat ->
            insideBoundary
              (mistPositions (fold_left (fun m t => updateMist t m) times m)) /\
            length
              (mistPositions (fold_left (fun m t => updateMist t m) times m))
            = 300%nat) as Hrun.
  { induction times as [|t rest IH]; intros m Hm Hlm Hlvm; [done|].
    simpl. destruct (updateMist_inside t m) as (H1 & H2 & H3); [congruence|].
    apply IH; [done | congruence | congruence]. }
  by apply Hrun.
Qed.

Lemma created_mist_stays_inside_witness :
  Rng.unit_draws (Rng.const 0.5) /\
  insideBoundary
    (mistPositions
       (fold_left (fun m time => updateMist time m) [0; 0.016; 0.033]
          (fst (fst (createGroundMist (Rng.const 0.5)))))).
Proof.
  assert (Rng.unit_draws (Rng.const 0.5)) as Hg
    by (intros n; unfold Rng.const; lra).
  split; [exact Hg|].
  apply (created_mist_stays_inside (Rng.const 0.5) [0; 0.016; 0.033] Hg).
Defined.

End MistBoundary.

(** ** The smoke and its lifetimes *)

Section SmokeLife.

Import Float32 Particles ParticleSetup.

Lemma smokeLoop_life deltaTime positions : forall velocities lifetimes g,
  0 <= deltaTime ->
  length positions = (3 * length lifetimes)%nat ->
  length velocities = length positions ->
  Forall (fun life => 0 <= life) lifetimes ->
  let r := smokeLoop deltaTime positions velocities lifetimes g in
  Forall (fun life => 0 <= life < 1) (snd (fst r)) /\
  length (fst (fst r)) = length positions /\
  length (snd (fst r)) = length lifetimes /\
  Float32Array (fst (fst r)) /\ Float32Array (snd (fst r)).
Proof.
  induction positions as [| a | a b | x y z ps IH] using triples_ind;
    intros velocities lifetimes g Hdt Hlen Hv Hl;
    try (destruct lifetimes; simpl in Hlen; lia).
  - destruct lifetimes; [|simpl in Hlen; lia].
    destruct velocities; [|discriminate Hv].
    repeat split; constructor.
  - destruct lifetimes as [|life ls]; [simpl in Hlen; lia|].
    destruct velocities as [|vx [|vy [|vz vs]]]; try discriminate Hv.
    inversion Hl as [|? ? Hlife Hls]; subst.
    assert (0 <= fround (life + deltaTime)) as Hpos
      by (apply fround_nonneg; lra).
    cbn [smokeLoop]. unfold geb.
    destruct (leb 1 (fround (life + deltaTime))) eqn:E.
    + unfold Rng.bind, Rng.Math_random, Rng.ret.
      destruct (IH vs ls (Rng.drop 2 g) Hdt ltac:(simpl in Hlen; lia)
                  ltac:(simpl in Hv; lia) Hls)
        as (Hall & Hlp & Hll & Hfp & Hfl).
      simpl Rng.drop in *. unfold Rng.tl in *.
      destruct (smokeLoop deltaTime ps vs ls _) as [[ps' ls'] g'].
      cbn [fst snd] in *.
      split; [constructor; [lra | done]|].
      split; [simpl; lia|]. split; [simpl; lia|].
      split; [|by apply Float32Array_zero].
      by apply Float32Array_cons, Float32Array_zero, Float32Array_cons.
    + apply leb_false in E. unfold Rng.bind, Rng.ret.
      destruct (IH vs ls g Hdt ltac:(simpl in Hlen; lia)
                  ltac:(simpl in Hv; lia) Hls)
        as (Hall & Hlp & Hll & Hfp & Hfl).
      destruct (smokeLoop deltaTime ps vs ls g) as [[ps' ls'] g'].
      cbn [fst snd] in *.
      split; [constructor; [lra | done]|].
      split; [simpl; lia|]. split; [simpl; lia|].
      split; [|by apply Float32Array_cons].
      by repeat apply Float32Array_cons.
Qed.

(** X9: after an update of a chimney's smoke, whatever the time step,
    every particle is in its life again: its stored lifetime is below 1,
    a particle whose lifetime had reached 1 having been put back at 0.
    With lifetimes and a time step that are not negative no lifetime
    becomes negative.  The three arrays keep their lengths, the positions
    and the lifetimes are single-precision numbers, and no velocity is
    written. *)
Theorem smoke_in_life_after_update deltaTime smoke g :
  0 <= deltaTime ->
  smokeShaped smoke ->
  Forall (fun life => 0 <= life) (smokeLifetimes smoke) ->
  let smoke' := fst (updateSmoke deltaTime smoke g) in
  Forall (fun life => 0 <= life < 1) (smokeLifetimes smoke') /\
  smokeShaped smoke' /\
  Float32Array (smokePositions smoke') /\
  Float32Array (smokeLifetimes smoke') /\
  smokeVelocities smoke' = smokeVelocities smoke.
Proof.
  intros Hdt [Hlen Hv] Hl smoke'. subst smoke'.
  unfold updateSmoke, Rng.bind, Rng.ret.
  destruct (smokeLoop_life deltaTime _ _ _ g Hdt Hlen Hv Hl)
    as (Hall & Hlp & Hll & Hfp & Hfl).
  destruct (smokeLoop deltaTime _ _ _ g) as [[ps' ls'] g'].
  cbn [fst snd smokePositions smokeVelocities smokeLifetimes] in *.
  split; [done|]. split; [|done]. unfold smokeShaped.
  cbn [smokePositions smokeVelocities smokeLifetimes]. lia.
Qed.

Lemma smoke_in_life_after_update_witness :
  0 <= 0.034 /\
  smokeShaped (mkSmoke [0.5; 0.25; -0.5; 0; 0.5; 0.25]
                 [0.0078125; 0.0625; 0.015625; 0; 0.0625; 0] [0.5; 0.984375])
  /\
  Forall (fun life => 0 <= life) [0.5; 0.984375] /\
  Forall (fun life => 0 <= life < 1)
    (smokeLifetimes
       (fst (updateSmoke 0.034
               (mkSmoke [0.5; 0.25; -0.5; 0; 0.5; 0.25]
                  [0.0078125; 0.0625; 0.015625; 0; 0.0625; 0]
                  [0.5; 0.984375])
               (Rng.const 0.5)))).
Proof.
  assert (smokeShaped
            (mkSmoke [0.5; 0.25; -0.5; 0; 0.5; 0.25]
               [0.0078125; 0.0625; 0.015625; 0; 0.0625; 0] [0.5; 0.984375]))
    as Hs by (by split).
  assert (Forall (fun life => 0 <= life) [0.5; 0.984375]) as Hl
    by (repeat constructor; lra).
  split; [lra|]. split; [exact Hs|]. split; [exact Hl|].
  apply (smoke_in_life_after_update 0.034
           (mkSmoke [0.5; 0.25; -0.5; 0; 0.5; 0.25]
              [0.0078125; 0.0625; 0.015625; 0; 0.0625; 0] [0.5; 0.984375])
           (Rng.const 0.5) ltac:(lra) Hs Hl).
Defined.

Lemma smokeParticles_S n g :
  smokeParticles (S n) g =
    let '(ps, vs, ls, ss, g') := smokeParticles n (Rng.drop 7 g) in
    ((fround ((g 0%nat - 0.5) * 0.1) :: 0
        :: fround ((g 1%nat - 0.5) * 0.1) :: ps,
      fround ((g 2%nat - 0.5) * 0.02) :: fround (g 3%nat * 0.05 + 0.05)
        :: fround ((g 4%nat - 0.5) * 0.02) :: vs,
      fround (g 5%nat) :: ls,
      fround (g 6%nat * 0.5 + 0.5) :: ss), g').
Proof.
  simpl. unfold Rng.bind, Rng.Math_random, Rng.ret. simpl.
  by destruct (smokeParticles n _) as [[[[ps vs] ls] ss] g'].
Qed.

(** A draw is stored as a number from 0 to 1. *)
Lemma stored_draw r : 0 <= r < 1 -> 0 <= fround r <= 1.
Proof.
  intros Hr. split; [apply fround_nonneg; lra|].
  replace 1 with (IZR 1 * powerRZ 2 0) by (simpl; lra).
  apply fround_le_dyadic; [lia | lia | simpl; lra].
Qed.

(** The draw 1 - 2^(-26), which is below 1, is stored as 1. *)
Lemma stored_draw_one : fround (1 - / 67108864) = 1.
Proof.
  rewrite (fround_eval (1 - / 67108864) (-1) 16777216).
  - simpl. lra.
  - lia.
  - rewrite Rabs_pos_eq by lra. simpl. lra.
  - apply Rabs_def1; simpl; lra.
Qed.

Lemma smokeParticles_shape n : forall g,
  Rng.unit_draws g ->
  let r := fst (smokeParticles n g) in
  length (fst (fst (fst r))) = (3 * n)%nat /\
  length (snd (fst (fst r))) = (3 * n)%nat /\
  length (snd (fst r)) = n /\
  length (snd r) = n /\
  atHeight 0 (fst (fst (fst r))) /\
  Forall (fun life => 0 <= life <= 1) (snd (fst r)) /\
  Float32Array (fst (fst (fst r))) /\ Float32Array (snd (fst (fst r))) /\
  Float32Array (snd (fst r)) /\ Float32Array (snd r).
Proof.
  induction n as [|n IH]; intros g Hg; [repeat split; constructor|].
  rewrite smokeParticles_S.
  destruct (IH (Rng.drop 7 g) (unit_draws_drop 7 g Hg))
    as (Hp & Hv & Hl & Hs & Hat & Hlife & Hfp & Hfv & Hfl & Hfs).
  destruct (smokeParticles n (Rng.drop 7 g)) as [[[[ps vs] ls] ss] g'].
  cbn [fst snd] in *.
  split; [simpl; lia|]. split; [simpl; lia|]. split; [simpl; lia|].
  split; [simpl; lia|]. split; [by split|].
  split; [constructor; [|done]; apply stored_draw; apply Hg|].
  split;
    [by apply Float32Array_cons, Float32Array_zero, Float32Array_cons|].
  split; [by repeat apply Float32Array_cons|].
  split; by apply Float32Array_cons.
Qed.

(** X10: [createSmokeSystem] makes 20 particles in arrays of 60, 60, 20
    and 20 single-precision numbers, each particle at height 0 with a
    stored lifetime from 0 to 1.  The lifetime can be 1 itself, although
    every draw is below 1: the draw 1 - 2^(-26) is stored as 1, so that
    such a particle is not in its life until the first update. *)
Theorem createSmokeSystem_shape g :
  Rng.unit_draws g ->
  let smoke := fst (fst (createSmokeSystem g)) in
  smokeShaped smoke /\
  length (smokeLifetimes smoke) = 20%nat /\
  length (snd (fst (createSmokeSystem g))) = 20%nat /\
  atHeight 0 (smokePositions smoke) /\
  Forall (fun life => 0 <= life <= 1) (smokeLifetimes smoke) /\
  (Float32Array (smokePositions smoke) /\
   Float32Array (smokeVelocities smoke) /\
   Float32Array (smokeLifetimes smoke)) /\
  (g 5%nat = 1 - / 67108864 -> smokeLifetimes smoke !! 0%nat = Some 1).
Proof.
  intros Hg smoke. subst smoke. unfold createSmokeSystem, Rng.bind, Rng.ret.
  destruct (smokeParticles_shape 20 g Hg)
    as (Hp & Hv & Hl & Hs & Hat & Hlife & Hfp & Hfv & Hfl & _).
  assert (g 5%nat = 1 - / 67108864 ->
          snd (fst (fst (smokeParticles 20 g))) !! 0%nat = Some 1) as Hone.
  { intros E. rewrite smokeParticles_S.
    destruct (smokeParticles 19 (Rng.drop 7 g)) as [[[[ps vs] ls] ss] g'].
    cbn [fst snd]. by rewrite E, stored_draw_one. }
  destruct (smokeParticles 20 g) as [[[[ps vs] ls] ss] g'].
  cbn [fst snd smokePositions smokeVelocities smokeLifetimes] in *.
  unfold smokeShaped.
  cbn [smokePositions smokeVelocities smokeLifetimes].
  repeat split; try done; lia.
Qed.

Lemma createSmokeSystem_shape_witness :
  Rng.unit_draws (Rng.const (1 - / 67108864)) /\
  Forall (fun life => 0 <= life <= 1)
    (smokeLifetimes
       (fst (fst (createSmokeSystem (Rng.const (1 - / 67108864)))))) /\
  smokeLifetimes (fst (fst (createSmokeSystem (Rng.const (1 - / 67108864)))))
    !! 0%nat = Some 1.
Proof.
  assert (Rng.unit_draws (Rng.const (1 - / 67108864))) as Hg
    by (intros n; unfold Rng.const; lra).
  split; [exact Hg|].
  destruct (createSmokeSystem_shape (Rng.const (1 - / 67108864)) Hg)
    as (_ & _ & _ & _ & Hlife & _ & Hone).
  split; [exact Hlife|]. by apply Hone.
Defined.

End SmokeLife.

(** ** The fireflies hover *)

Section FirefliesHover.

Import Float32 Particles ParticleSetup.

Lemma firefliesLoop_hover time positions : forall idx sizes g,
  Rng.unit_draws g ->
  length positions = (3 * length sizes)%nat ->
  let r := firefliesLoop time idx positions sizes g in
  firefliesHover positions (fst (fst r)) /\
  Forall (fun s => 0.0899 <= s <= 0.3301) (snd (fst r)) /\
  length (snd (fst r)) = length sizes /\
  Rng.unit_draws (snd r).
Proof.
  induction positions as [| a | a b | x y z ps IH] using triples_ind;
    intros idx sizes g Hg Hlen;
    try (destruct sizes; simpl in Hlen; lia).
  - destruct sizes; [|simpl in Hlen; lia]. simpl.
    split; [exact I|]. split; [constructor|]. split; [reflexivity | exact Hg].
  - destruct sizes as [|s ss]; [simpl in Hlen; lia|].
    simpl. unfold Rng.bind, Rng.Math_random, Rng.ret.
    destruct (IH (S idx) ss (fun n => g (S n)) (unit_draws_tl g Hg)
                ltac:(simpl in Hlen; lia)) as (Hh & Hs & Hl & Hg').
    destruct (firefliesLoop time (S idx) ps ss _) as [[ps' ss'] g'].
    cbn [fst snd] in *.
    pose proof (SIN_bound (time + INR idx)) as Hsin.
    pose proof (SIN_bound (time * 2 + INR idx)) as Hsin2.
    pose proof (Hg 0%nat) as H0.
    split; [|split; [|split; [simpl; lia | done]]].
    + simpl. repeat split; try done.
      intros Hy. apply Rabs_le_both in Hy.
      set (t := y + sin (time + INR idx) * 0.002).
      assert (Rabs t <= 64) as Ht by (apply Rabs_le; unfold t; lra).
      pose proof (fround_error_64 t Ht) as He. apply Rabs_le_both in He.
      apply Rabs_le. unfold t in *. lra.
    + constructor; [|done].
      set (t := (sin (time * 2 + INR idx) * 0.1 + 0.2) * (g 0%nat * 0.2 + 0.9)).
      assert (0.09 <= t <= 0.33) as Hb by (unfold t; split; nra).
      assert (Rabs t <= 64) as Ht by (apply Rabs_le; lra).
      pose proof (fround_error_64 t Ht) as He. apply Rabs_le_both in He.
      lra.
Qed.

(** X11: an update of the fireflies, on arrays of matching lengths, moves
    no firefly sideways: it writes no x and no z.  It moves a firefly
    that is no more than 63 high by no more than 0.00201 in height, the
    0.002 of the sine term and the rounding of the store, and stores for
    every firefly a size from 0.0899 to 0.3301. *)
Theorem fireflies_hover time f g :
  Rng.unit_draws g ->
  length (fireflyPositions f) = (3 * length (fireflySizes f))%nat ->
  let f' := fst (updateFireflies time f g) in
  firefliesHover (fireflyPositions f) (fireflyPositions f') /\
  Forall (fun s => 0.0899 <= s <= 0.3301) (fireflySizes f') /\
  length (fireflySizes f') = length (fireflySizes f).
Proof.
  intros Hg Hlen f'. subst f'. unfold updateFireflies, Rng.bind, Rng.ret.
  destruct (firefliesLoop_hover time _ 0 _ g Hg Hlen) as (Hh & Hs & Hl & _).
  by destruct (firefliesLoop time 0 _ _ g) as [[ps' ss'] g'].
Qed.

Lemma fireflies_hover_witness :
  Rng.unit_draws (Rng.const 0.5) /\
  length (fireflyPositions (mkFireflies [21; 3; 4; -30; 5.5; 12] [0.25; 0.125]))
  = (3 * length (fireflySizes
                   (mkFireflies [21; 3; 4; -30; 5.5; 12]%R
                      [0.25; 0.125]%R)))%nat /\
  firefliesHover [21; 3; 4; -30; 5.5; 12]
    (fireflyPositions
       (fst (updateFireflies 1.5
               (mkFireflies [21; 3; 4; -30; 5.5; 12] [0.25; 0.125])
               (Rng.const 0.5)))).
Proof.
  assert (Rng.unit_draws (Rng.const 0.5)) as Hg
    by (intros n; unfold Rng.const; lra).
  split; [exact Hg|]. split; [reflexivity|].
  apply (fireflies_hover 1.5
           (mkFireflies [21; 3; 4; -30; 5.5; 12] [0.25; 0.125])
           (Rng.const 0.5) Hg eq_refl).
Defined.

End FirefliesHover.

(** ** The paths and the characters on them *)

Section CastFacts.

Import PathFollower Cast.

Lemma pathPoints_S i n g :
  pathPoints i (S n) g =
    let (rest, g') := pathPoints (S i) n (Rng.drop 2 g) in
    (mkV (cos (INR i / INR numPoints * PI * 2) * pathRadius
            * (0.8 + g 0%nat * 0.4))
         0
         (sin (INR i / INR numPoints * PI * 2) * pathRadius
            * (0.8 + g 1%nat * 0.4)) :: rest, g').
Proof. reflexivity. Qed.

Lemma pathPoints_shape n : forall i g,
  Rng.unit_draws g ->
  length (fst (pathPoints i n g)) = n /\
  Forall onGround (fst (pathPoints i n g)) /\
  Rng.unit_draws (snd (pathPoints i n g)).
Proof.
  induction n as [|n IH]; intros i g Hg.
  { simpl. split; [done|]. split; [constructor | done]. }
  rewrite pathPoints_S.
  destruct (IH (S i) (Rng.drop 2 g) (unit_draws_drop 2 g Hg))
    as (Hlen & Hall & Hg').
  destruct (pathPoints (S i) n (Rng.drop 2 g)) as [rest g'].
  cbn [fst snd] in *. split; [simpl; lia|]. split; [|done].
  constructor; [|done]. unfold onGround, pathRadius. cbn [vx vy vz].
  pose proof (COS_bound (INR i / INR numPoints * PI * 2)) as Hc.
  pose proof (SIN_bound (INR i / INR numPoints * PI * 2)) as Hs.
  pose proof (Hg 0%nat). pose proof (Hg 1%nat).
  split; [done|]. split; split; nra.
Qed.

Lemma generateRandomPath_first g :
  exists first rest,
    fst (pathPoints 0 numPoints g) = first :: rest /\
    fst (generateRandomPath g) = (first :: rest) ++ [first] /\
    snd (generateRandomPath g) = snd (pathPoints 0 numPoints g) /\
    first = mkV (cos (INR 0 / INR numPoints * PI * 2) * pathRadius
                   * (0.8 + g 0%nat * 0.4))
                0
                (sin (INR 0 / INR numPoints * PI * 2) * pathRadius
                   * (0.8 + g 1%nat * 0.4)).
Proof.
  unfold generateRandomPath, Rng.bind, Rng.ret.
  change numPoints with (S 9). rewrite pathPoints_S.
  destruct (pathPoints 1 9 (Rng.drop 2 g)) as [rest g'].
  eexists _, rest. by repeat split.
Qed.

Lemma generateRandomPath_length g :
  length (fst (generateRandomPath g)) = 11%nat.
Proof.
  unfold generateRandomPath, Rng.bind, Rng.ret.
  assert (forall n i g, length (fst (pathPoints i n g)) = n) as Hlen.
  { clear. induction n as [|n IH]; intros i g; [done|].
    rewrite pathPoints_S. specialize (IH (S i) (Rng.drop 2 g)).
    destruct (pathPoints (S i) n (Rng.drop 2 g)). simpl in *. lia. }
  specialize (Hlen numPoints 0%nat g).
  destruct (pathPoints 0 numPoints g) as [[|first rest] g']; [done|].
  simpl in *. rewrite length_app. simpl. unfold numPoints in Hlen. lia.
Qed.

(** X12: [generateRandomPath] returns 11 points of which the last is the
    first: a closed path.  Every point is on the ground, within 24 of the
    origin along both axes, and the path starts on the x axis, 16 to 24
    out. *)
Theorem generateRandomPath_shape g :
  Rng.unit_draws g ->
  let path := fst (generateRandomPath g) in
  length path = 11%nat /\
  path !! 10%nat = path !! 0%nat /\
  Forall onGround path /\
  exists x, path !! 0%nat = Some (mkV x 0 0) /\ 16 <= x < 24.
Proof.
  intros Hg path. subst path.
  split; [apply generateRandomPath_length|].
  destruct (generateRandomPath_first g) as (first & rest & Hpts & -> & _ & Hf).
  destruct (pathPoints_shape numPoints 0 g Hg) as (Hl & Hall & _).
  rewrite Hpts in Hl, Hall. unfold numPoints in Hl.
  split; [|split].
  - rewrite lookup_app_r by lia. by rewrite Hl.
  - apply Forall_app. split; [done|]. constructor; [|constructor].
    by inversion Hall.
  - exists (pathRadius * (0.8 + g 0%nat * 0.4)). split.
    + simpl. f_equal. rewrite Hf.
      replace (INR 0 / INR numPoints * PI * 2) with 0
        by (simpl (INR 0); lra).
      rewrite cos_0, sin_0. f_equal; lra.
    + unfold pathRadius. pose proof (Hg 0%nat). lra.
Qed.

Lemma generateRandomPath_shape_witness :
  Rng.unit_draws (Rng.const 0.5) /\
  length (fst (generateRandomPath (Rng.const 0.5))) = 11%nat /\
  fst (generateRandomPath (Rng.const 0.5)) !! 10%nat
  = fst (generateRandomPath (Rng.const 0.5)) !! 0%nat.
Proof.
  assert (Rng.unit_draws (Rng.const 0.5)) as Hg
    by (intros n; unfold Rng.const; lra).
  split; [exact Hg|].
  destruct (generateRandomPath_shape (Rng.const 0.5) Hg) as (H1 & H2 & _).
  split; assumption.
Defined.

End CastFacts.

Section CastRuns.

Import PathFollower Cast.

Lemma elvesFrom_valid n : forall i g,
  length (fst (elvesFrom i n g)) = n /\
  Forall (fun c => pathIndex c = 0%nat /\ length (path c) = 11%nat)
    (fst (elvesFrom i n g)).
Proof.
  induction n as [|n IH]; intros i g; [by split|].
  simpl. unfold Rng.bind, Rng.Math_random, Rng.ret.
  pose proof (generateRandomPath_length (fun n => g (S n))) as Hp.
  destruct (generateRandomPath (fun n => g (S n))) as [path g1].
  destruct (IH (S i) (fun n => g1 (S n))) as [Hlen Hall].
  destruct (elvesFrom (S i) n _) as [rest g2].
  simpl in *. split; [lia|]. by constructor.
Qed.

Lemma animateCharacters_valid time elves santa :
  Forall (fun c => (pathIndex c < length (path c))%nat) elves ->
  (pathIndex santa < length (path santa))%nat ->
  exists elves' santa',
    animateCharacters time elves (Some santa) = Some (elves', Some santa') /\
    Forall (fun c => (pathIndex c < length (path c))%nat) elves' /\
    (pathIndex santa' < length (path santa'))%nat /\
    length elves' = length elves.
Proof.
  intros Helves Hsanta. unfold animateCharacters.
  destruct (animateElves_each time elves Helves) as (elves' & -> & Hall).
  destruct (animateCharacter_defined 4 0.3 time santa Hsanta)
    as (cur & nxt & _ & _ & Heq).
  unfold animateSanta. rewrite Heq.
  destruct (animateCharacter_index 4 0.3 time santa _ Hsanta Heq)
    as (Hp & _ & Hlt & _).
  eexists _, _. split; [reflexivity|]. split; [|split].
  - clear - Helves Hall. induction Hall as [|c c' l l' Hc _ IH]; [done|].
    inversion Helves as [|? ? Hv Hrest]; subst.
    constructor; [|by apply IH].
    destruct (animateCharacter_index 5 0.5 time c c' Hv Hc)
      as (Hp & _ & Hlt & _).
    by rewrite Hp.
  - by rewrite Hp.
  - symmetry. by apply (Forall2_length _ _ _ Hall).
Qed.

Lemma runCast_valid times : forall elves santa,
  Forall (fun c => (pathIndex c < length (path c))%nat) elves ->
  (pathIndex santa < length (path santa))%nat ->
  exists elves' santa',
    runCast times elves (Some santa) = Some (elves', Some santa') /\
    length elves' = length elves.
Proof.
  induction times as [|t rest IH]; intros elves santa Helves Hsanta; simpl.
  - by exists elves, santa.
  - destruct (animateCharacters_valid t elves santa Helves Hsanta)
      as (elves1 & santa1 & -> & Helves1 & Hsanta1 & Hlen1).
    destruct (IH elves1 santa1 Helves1 Hsanta1)
      as (elves2 & santa2 & Hrun & Hlen2).
    exists elves2, santa2. split; [done | congruence].
Qed.

(** X13: the eight elves of [createElves] and the Santa of
    [createSanta] can be animated for ever: whatever was drawn and
    whatever the clock reads, no [animateCharacters] call reads a waypoint
    that the path does not have, and all nine characters are there after
    any number of frames. *)
Theorem created_cast_never_fails g times :
  exists elves' santa',
    runCast times (fst (createElves g))
      (Some (fst (createSanta (snd (createElves g)))))
    = Some (elves', Some santa') /\
    length elves' = 8%nat.
Proof.
  destruct (elvesFrom_valid 8 0 g) as [Hlen Hall].
  fold createElves in Hlen, Hall.
  destruct (runCast_valid times (fst (createElves g))
              (fst (createSanta (snd (createElves g)))))
    as (elves' & santa' & Hrun & Hlen').
  - eapply Forall_impl; [exact Hall|]. intros c [-> ->]. lia.
  - unfold createSanta, Rng.bind, Rng.ret.
    pose proof (generateRandomPath_length (snd (createElves g))) as Hp.
    destruct (generateRandomPath (snd (createElves g))) as [path g1].
    simpl in *. lia.
  - exists elves', santa'. split; [done | congruence].
Qed.

End CastRuns.

(** ** Where a walk leads *)

Section WalkOff.

Import PathFollower Cast.

(** A normalized vector has length 1, or is the zero vector that it was. *)
Lemma normalize_unit_or_zero v :
  dot (Vec.normalize v) (Vec.normalize v) = 1 \/
  (vx (Vec.normalize v) = 0 /\ vy (Vec.normalize v) = 0 /\
   vz (Vec.normalize v) = 0).
Proof.
  pose proof (Vec_length_square v) as Hsq.
  unfold Vec.normalize. destruct (Req_dec_T (Vec.length v) 0) as [Hz|Hnz].
  - right. rewrite Hz in Hsq.
    assert (vx v * vx v + vy v * vy v + vz v * vz v = 0) as H0 by lra.
    apply sum_squares_zero in H0 as (Hx & Hy & Hz').
    unfold Vec.multiplyScalar. simpl. rewrite Hx, Hy, Hz'. lra.
  - left. unfold dot, Vec.multiplyScalar. simpl.
    set (l := Vec.length v) in *.
    transitivity ((vx v * vx v + vy v * vy v + vz v * vz v) / (l * l)).
    + field. done.
    + rewrite <- Hsq. field. done.
Qed.

(** A step along the line leaves the distance from the line as it is. *)
Lemma offLineSq_step A B P s :
  offLineSq A B (Vec.add P (stepVector A B s)) = offLineSq A B P.
Proof.
  unfold offLineSq, stepVector.
  pose proof (normalize_unit_or_zero (Vec.sub B A)) as Hu.
  remember (Vec.normalize (Vec.sub B A)) as u eqn:Eu. clear Eu.
  destruct u as [a b c], P as [px py pz], B as [bx byy bz].
  unfold dot, Vec.sub, Vec.add, Vec.multiplyScalar in *. simpl in *.
  destruct Hu as [H1 | (-> & -> & ->)]; [|ring].
  set (wu := (px - bx) * a + (py - byy) * b + (pz - bz) * c).
  set (Q := a * a + b * b + c * c) in *.
  match goal with
  | |- ?L = ?Rhs =>
      assert (L - Rhs = (1 - Q) * (2 * s * wu + s * s * Q)) as Hd
        by (unfold wu, Q; ring)
  end.
  rewrite H1 in Hd. lra.
Qed.

Lemma sqrt_hundredth : sqrt 0.01 = 0.1.
Proof. apply sqrt_lem_1; lra. Qed.

(** Off the line by 0.1 or more, a character is not within 0.1 of the
    waypoint ahead. *)
Lemma offLine_not_arrived A B P :
  0.01 <= offLineSq A B P -> 0.1 <= Vec.distanceTo P B.
Proof.
  unfold offLineSq. intros H.
  set (w := Vec.sub P B) in *. set (u := Vec.normalize (Vec.sub B A)) in *.
  assert (0.01 <= dot w w) as Hw.
  { pose proof (Rle_0_sqr (dot w u)) as Hsq. unfold Rsqr in Hsq. lra. }
  unfold Vec.distanceTo. fold w. unfold Vec.length.
  change (vx w * vx w + vy w * vy w + vz w * vz w) with (dot w w).
  rewrite <- sqrt_hundredth. apply sqrt_le_1; lra.
Qed.

Lemma tick_off_line freq amp time c A B :
  path c !! pathIndex c = Some A -> path c !! nextIndex c = Some B ->
  0.01 <= offLineSq A B (position c) ->
  arrives c = false /\
  exists c',
    animateCharacter freq amp time c = Some c' /\
    path c' = path c /\ pathIndex c' = pathIndex c /\
    moveSpeed c' = moveSpeed c /\
    position c' = Vec.add (position c) (stepVector A B (moveSpeed c)).
Proof.
  intros HA HB Hoff.
  assert (ltb (Vec.distanceTo
                 (Vec.add (position c) (stepVector A B (moveSpeed c))) B) 0.1
          = false) as Hno.
  { apply ltb_false. apply offLine_not_arrived with (A := A).
    by rewrite offLineSq_step. }
  unfold arrives, animateCharacter. rewrite HA, HB, Hno.
  split; [done|]. eexists. split; [reflexivity|]. by simpl.
Qed.

Lemma Vec_add_steps P v n :
  Vec.add (Vec.add P v) (Vec.multiplyScalar v (INR n))
  = Vec.add P (Vec.multiplyScalar v (INR (S n))).
Proof.
  rewrite S_INR. destruct P, v. unfold Vec.add, Vec.multiplyScalar. simpl.
  f_equal; ring.
Qed.

Lemma run_off_line freq amp times : forall c A B,
  path c !! pathIndex c = Some A -> path c !! nextIndex c = Some B ->
  0.01 <= offLineSq A B (position c) ->
  arrivals freq amp times c = 0%nat /\
  exists c',
    run freq amp times c = Some c' /\
    pathIndex c' = pathIndex c /\
    position c' =
      Vec.add (position c)
        (Vec.multiplyScalar (stepVector A B (moveSpeed c))
           (INR (length times))).
Proof.
  induction times as [|t rest IH]; intros c A B HA HB Hoff.
  - split; [done|]. exists c. split; [done|]. split; [done|].
    destruct (position c), (stepVector A B (moveSpeed c)).
    unfold Vec.add, Vec.multiplyScalar. simpl. f_equal; ring.
  - destruct (tick_off_line freq amp t c A B HA HB Hoff)
      as (Harr & c1 & Heq & Hp & Hi & Hs & Hpos).
    destruct (IH c1 A B) as (Hcount & c' & Hrun & Hi' & Hpos').
    + by rewrite Hp, Hi.
    + unfold nextIndex in *. by rewrite Hp, Hi.
    + rewrite Hpos. by rewrite offLineSq_step.
    + simpl. rewrite Heq, Harr, Hcount. split; [done|].
      exists c'. split; [done|]. split; [congruence|].
      rewrite Hpos', Hs, Hpos. apply Vec_add_steps.
Qed.

(** X14: a character that is 0.1 or more off the line through its
    current and its next waypoint never reaches the next waypoint.  Every
    tick moves it by the same step along that line, so after n ticks it is
    n steps from where it began, its [pathIndex] is what it was and no
    arrival has been counted: it walks off in a straight line. *)
Theorem walks_off_the_path freq amp times c A B :
  path c !! pathIndex c = Some A -> path c !! nextIndex c = Some B ->
  0.01 <= offLineSq A B (position c) ->
  arrivals freq amp times c = 0%nat /\
  exists c',
    run freq amp times c = Some c' /\
    pathIndex c' = pathIndex c /\
    position c' =
      Vec.add (position c)
        (Vec.multiplyScalar (stepVector A B (moveSpeed c))
           (INR (length times))).
Proof. apply run_off_line. Qed.

End WalkOff.

Section WalkOffExamples.

Import PathFollower Cast.

Lemma strayWalker_off_line :
  0.01 <= offLineSq (mkV 0 0 0) (mkV 3 0 4) (position strayWalker).
Proof.
  unfold offLineSq, Vec.normalize.
  assert (Vec.length (Vec.sub (mkV 3 0 4) (mkV 0 0 0)) = 5) as ->.
  { unfold Vec.length, Vec.sub. simpl. apply sqrt_lem_1; lra. }
  destruct (Req_dec_T 5 0) as [H|_]; [lra|].
  unfold dot, Vec.sub, Vec.multiplyScalar, strayWalker. simpl. lra.
Qed.

Lemma walks_off_the_path_witness :
  path strayWalker !! pathIndex strayWalker = Some (mkV 0 0 0) /\
  path strayWalker !! nextIndex strayWalker = Some (mkV 3 0 4) /\
  0.01 <= offLineSq (mkV 0 0 0) (mkV 3 0 4) (position strayWalker) /\
  arrivals 5 0.5 [0; 0.016; 0.033] strayWalker = 0%nat.
Proof.
  split; [reflexivity|]. split; [reflexivity|].
  split; [exact strayWalker_off_line|].
  apply (walks_off_the_path 5 0.5 [0; 0.016; 0.033] strayWalker
           (mkV 0 0 0) (mkV 3 0 4) eq_refl eq_refl strayWalker_off_line).
Defined.

Lemma fifth_turn_bounds :
  0 <= cos (INR 1 / INR numPoints * PI * 2) <= 1 /\
  1 / 2 <= sin (INR 1 / INR numPoints * PI * 2) <= 1.
Proof.
  replace (INR 1 / INR numPoints * PI * 2) with (PI / 5)
    by (unfold numPoints; simpl; field).
  pose proof PI_RGT_0 as Hpi.
  pose proof (COS_bound (PI / 5)). pose proof (SIN_bound (PI / 5)).
  split; split; try lra.
  - apply cos_ge_0; lra.
  - rewrite <- sin_PI6. apply sin_incr_1; lra.
Qed.

(** The first two waypoints of Santa's path: one on the x axis, the next
    a fifth of a half turn on. *)
Lemma santa_waypoints g :
  Rng.unit_draws g ->
  exists a X Z rest,
    path (fst (createSanta g)) = mkV a 0 0 :: mkV X 0 Z :: rest /\
    pathIndex (fst (createSanta g)) = 0%nat /\
    position (fst (createSanta g)) = mkV 0 0 0 /\
    moveSpeed (fst (createSanta g)) = 0.03 /\
    length (path (fst (createSanta g))) = 11%nat /\
    16 <= a < 24 /\ 0 <= X <= 24 /\ 8 <= Z <= 24.
Proof.
  intros Hg.
  pose proof (generateRandomPath_length g) as Hlen.
  unfold createSanta, Rng.bind, Rng.ret.
  destruct (generateRandomPath_first g) as (first & rest & Hpts & Hpath & _ & Hf).
  destruct (generateRandomPath g) as [p g1]. cbn [fst snd] in *. subst p.
  change numPoints with (S (S 8)) in Hpts.
  rewrite pathPoints_S in Hpts.
  change (pathPoints 1 (S 8) (Rng.drop 2 g))
    with (let (rest', g') := pathPoints 2 8 (Rng.drop 4 g) in
          (mkV (cos (INR 1 / INR numPoints * PI * 2) * pathRadius
                  * (0.8 + g 2%nat * 0.4))
               0
               (sin (INR 1 / INR numPoints * PI * 2) * pathRadius
                  * (0.8 + g 3%nat * 0.4)) :: rest', g')) in Hpts.
  destruct (pathPoints 2 8 (Rng.drop 4 g)) as [rest' g'].
  cbn [fst] in Hpts. injection Hpts as Hfirst Hrest. subst rest.
  destruct fifth_turn_bounds as [Hc Hs].
  set (c := cos (INR 1 / INR numPoints * PI * 2)) in *.
  set (s := sin (INR 1 / INR numPoints * PI * 2)) in *.
  pose proof (Hg 0%nat). pose proof (Hg 2%nat). pose proof (Hg 3%nat).
  exists (pathRadius * (0.8 + g 0%nat * 0.4)),
    (c * pathRadius * (0.8 + g 2%nat * 0.4)),
    (s * pathRadius * (0.8 + g 3%nat * 0.4)), (rest' ++ [first]).
  unfold pathRadius in *.
  split; [|split; [done|split; [done|split; [done|split; [done|]]]]].
  - simpl. f_equal. rewrite Hf.
    replace (INR 0 / INR numPoints * PI * 2) with 0 by (simpl (INR 0); lra).
    rewrite cos_0, sin_0. f_equal; lra.
  - split; [lra|]. split; split; nra.
Qed.

(** The distance of the origin from the line of Santa's first leg. *)
Lemma origin_off_first_leg a X Z :
  16 <= a < 24 -> 0 <= X <= 24 -> 8 <= Z <= 24 ->
  0.01 <= offLineSq (mkV a 0 0) (mkV X 0 Z) (mkV 0 0 0).
Proof.
  intros Ha HX HZ. unfold offLineSq, Vec.normalize.
  pose proof (Vec_length_square (Vec.sub (mkV X 0 Z) (mkV a 0 0))) as Hl.
  pose proof (Vec_length_nonneg (Vec.sub (mkV X 0 Z) (mkV a 0 0))) as Hl0.
  set (l := Vec.length (Vec.sub (mkV X 0 Z) (mkV a 0 0))) in *.
  unfold Vec.sub in Hl. simpl in Hl.
  assert (64 <= (Z - 0) * (Z - 0)) as HZ2 by nra.
  pose proof (Rle_0_sqr (X - a)) as HX2. unfold Rsqr in HX2.
  assert ((X - a) * (X - a) <= 576) as HX3 by nra.
  assert ((Z - 0) * (Z - 0) <= 576) as HZ3 by nra.
  assert (l <> 0) as Hnz by (intros E; rewrite E in Hl; lra).
  destruct (Req_dec_T l 0) as [E|_]; [done|].
  unfold dot, Vec.sub, Vec.multiplyScalar. simpl.
  set (L := (X - a) * (X - a) + (0 - 0) * (0 - 0) + (Z - 0) * (Z - 0)) in *.
  assert (0 < L <= 1152) as HL by (unfold L; lra).
  assert (16384 <= a * a * Z * Z) as Hnum.
  { assert (256 <= a * a) by nra. assert (64 <= Z * Z) by nra.
    replace (a * a * Z * Z) with ((a * a) * (Z * Z)) by ring. nra. }
  match goal with
  | |- 0.01 <= ?e =>
      assert (e = a * a * Z * Z / (l * l)
                  + (X * X + Z * Z) * (l * l - L) / (l * l)) as ->
        by (unfold L; field; done)
  end.
  rewrite Hl. clearbody L l.
  assert (L - L = 0) as -> by lra.
  unfold Rdiv. rewrite Rmult_0_r, Rmult_0_l, Rplus_0_r.
  apply Rle_trans with (16384 * / 1152); [lra|].
  apply Rle_trans with (16384 * / L).
  - apply Rmult_le_compat_l; [lra|]. apply Rinv_le_contravar; lra.
  - apply Rmult_le_compat_r; [|done]. left. apply Rinv_0_lt_compat. lra.
Qed.

(** X15: Santa never reaches his first waypoint.  [createSanta] leaves
    him at the origin, which is well off the line from the first to the
    second point of his path whatever was drawn: every tick moves him
    0.03 along that line, his [pathIndex] stays 0, and after n ticks he is
    n steps of 0.03 from the origin. *)
Theorem santa_walks_off g times :
  Rng.unit_draws g ->
  exists A B c',
    path (fst (createSanta g)) !! 0%nat = Some A /\
    path (fst (createSanta g)) !! 1%nat = Some B /\
    run 4 0.3 times (fst (createSanta g)) = Some c' /\
    pathIndex c' = 0%nat /\
    arrivals 4 0.3 times (fst (createSanta g)) = 0%nat /\
    position c' =
      Vec.multiplyScalar (stepVector A B 0.03) (INR (length times)) /\
    Vec.length (Vec.sub (position c') (mkV 0 0 0))
    = 0.03 * INR (length times).
Proof.
  intros Hg.
  destruct (santa_waypoints g Hg)
    as (a & X & Z & rest & Hpath & Hidx & Hpos & Hspeed & Hlen & Ha & HX & HZ).
  set (santa := fst (createSanta g)) in *.
  assert (path santa !! pathIndex santa = Some (mkV a 0 0)) as HA
    by (by rewrite Hidx, Hpath).
  assert (path santa !! nextIndex santa = Some (mkV X 0 Z)) as HB.
  { unfold nextIndex. rewrite Hidx, Hlen. by rewrite Hpath. }
  assert (0.01 <= offLineSq (mkV a 0 0) (mkV X 0 Z) (position santa)) as Hoff.
  { rewrite Hpos. by apply origin_off_first_leg. }
  destruct (run_off_line 4 0.3 times santa _ _ HA HB Hoff)
    as (Hcount & c' & Hrun & Hi & Hp).
  exists (mkV a 0 0), (mkV X 0 Z), c'.
  split; [by rewrite Hpath|]. split; [by rewrite Hpath|].
  split; [done|]. split; [congruence|]. split; [done|].
  rewrite Hp, Hpos, Hspeed.
  assert (Vec.add (mkV 0 0 0)
            (Vec.multiplyScalar (stepVector (mkV a 0 0) (mkV X 0 Z) 0.03)
               (INR (length times)))
          = Vec.multiplyScalar (stepVector (mkV a 0 0) (mkV X 0 Z) 0.03)
              (INR (length times))) as ->.
  { unfold Vec.add, Vec.multiplyScalar. simpl. f_equal; ring. }
  split; [done|].
  assert (mkV X 0 Z <> mkV a 0 0) as Hne by (intros E; inversion E; lra).
  assert (Vec.length (Vec.sub (mkV X 0 Z) (mkV a 0 0)) <> 0) as Hl.
  { intros E. by apply Vec_sub_zero in E. }
  pose proof (normalize_scaled_length _ (0.03 * INR (length times)) Hl
                ltac:(pose proof (pos_INR (length times)); lra)) as Hn.
  rewrite <- Hn. f_equal. unfold stepVector, Vec.sub, Vec.multiplyScalar.
  simpl. f_equal; ring.
Qed.

Lemma santa_walks_off_witness :
  Rng.unit_draws (Rng.const 0.5) /\
  exists c',
    run 4 0.3 [0; 0.016; 0.033] (fst (createSanta (Rng.const 0.5))) = Some c' /\
    pathIndex c' = 0%nat.
Proof.
  assert (Rng.unit_draws (Rng.const 0.5)) as Hg
    by (intros n; unfold Rng.const; lra).
  split; [exact Hg|].
  destruct (santa_walks_off (Rng.const 0.5) [0; 0.016; 0.033] Hg)
    as (A & B & c' & _ & _ & Hrun & Hi & _).
  exists c'. split; assumption.
Defined.

End WalkOffExamples.

(** ** The material cache *)

Section MaterialCache.

Import Caches.

Lemma getMaterials_length requests materialCache :
  length (fst (getMaterials requests materialCache)) = length requests.
Proof.
  revert materialCache.
  induction requests as [|[key f] rest IH]; intros materialCache; [done|].
  cbn [getMaterials].
  destruct (getMaterial key f materialCache) as [m cache1].
  specialize (IH cache1).
  destruct (getMaterials rest cache1) as [ms cache2].
  cbn [fst length] in *. by rewrite IH.
Qed.

(** What a cache that holds [m] under [key] answers, whatever is asked. *)
Lemma getMaterials_cached requests materialCache key m i f :
  materialCache !! key = Some m ->
  requests !! i = Some (key, f) ->
  fst (getMaterials requests materialCache) !! i = Some m.
Proof.
  revert materialCache i.
  induction requests as [|[key' f'] rest IH]; intros materialCache i Hkey Hi;
    [done|].
  cbn [getMaterials].
  destruct (getMaterial key' f' materialCache) as [m1 cache1] eqn:Hget.
  assert (cache1 !! key = Some m /\
          (key' = key -> m1 = m)) as [Hkey1 Hsame].
  { unfold getMaterial in Hget.
    destruct (materialCache !! key') as [m0|] eqn:Hk'.
    - injection Hget as <- <-. split; [done|].
      intros ->. congruence.
    - injection Hget as <- <-. split.
      + rewrite lookup_insert_ne; [done|]. intros ->. congruence.
      + intros ->. congruence. }
  specialize (IH cache1).
  destruct (getMaterials rest cache1) as [ms cache2].
  cbn [fst] in *.
  destruct i as [|i].
  - cbn in Hi. injection Hi as -> ->. cbn. f_equal. by apply Hsame.
  - cbn in Hi |- *. by apply IH.
Qed.

(** Every request is answered with the material that the cache held at
    the start, if there was one, and otherwise with the one that the
    factory of the first request for its key made. *)
Lemma getMaterials_lookup requests materialCache i key f :
  requests !! i = Some (key, f) ->
  exists first,
    firstRequest key requests = Some first /\
    fst (getMaterials requests materialCache) !! i =
      Some (match materialCache !! key with
            | Some m => m
            | None => first tt
            end).
Proof.
  revert materialCache i.
  induction requests as [|[key' f'] rest IH]; intros materialCache i Hi;
    [done|].
  cbn [getMaterials firstRequest].
  destruct (getMaterial key' f' materialCache) as [m1 cache1] eqn:Hget.
  destruct (decide (key' = key)) as [->|Hne].
  - exists f'. split; [done|].
    assert (cache1 !! key = Some m1 /\
            m1 = match materialCache !! key with
                 | Some m => m
                 | None => f' tt
                 end) as [Hc Hm].
    { unfold getMaterial in Hget.
      destruct (materialCache !! key) as [m0|] eqn:Hk.
      - by injection Hget as <- <-.
      - injection Hget as <- <-. by rewrite lookup_insert_eq. }
    pose proof (getMaterials_cached rest cache1 key m1) as Hrest.
    destruct (getMaterials rest cache1) as [ms cache2].
    cbn [fst] in *.
    destruct i as [|i].
    + cbn. by rewrite Hm.
    + cbn in Hi |- *. rewrite <- Hm. by apply (Hrest i f).
  - destruct i as [|i].
    { cbn in Hi. injection Hi as Hk _. by destruct Hne. }
    cbn in Hi.
    destruct (IH cache1 i Hi) as (first & Hfirst & Hlook).
    exists first. split; [done|].
    assert (cache1 !! key = materialCache !! key) as Hsame.
    { unfold getMaterial in Hget.
      destruct (materialCache !! key') as [m0|].
      - by injection Hget as <- <-.
      - injection Hget as <- <-. by rewrite lookup_insert_ne. }
    destruct (getMaterials rest cache1) as [ms cache2].
    cbn [fst] in *. rewrite <- Hsame. exact Hlook.
Qed.

(** X16: [getMaterial] gives all requests for one key the same material,
    whatever their factories would make; with a cache that does not hold
    the key at the start, it is the material that the factory of the first
    request for the key makes. *)
Theorem getMaterial_first_request_wins requests materialCache i j key f f' :
  requests !! i = Some (key, f) ->
  requests !! j = Some (key, f') ->
  exists m,
    fst (getMaterials requests materialCache) !! i = Some m /\
    fst (getMaterials requests materialCache) !! j = Some m /\
    (materialCache !! key = None ->
     exists first,
       firstRequest key requests = Some first /\ m = first tt).
Proof.
  intros Hi Hj.
  destruct (getMaterials_lookup requests materialCache i key f Hi)
    as (first & Hfirst & Hlooki).
  destruct (getMaterials_lookup requests materialCache j key f' Hj)
    as (first' & Hfirst' & Hlookj).
  assert (first' = first) as -> by congruence.
  eexists. split; [exact Hlooki|]. split; [exact Hlookj|].
  intros ->. by exists first.
Qed.

Lemma getMaterial_first_request_wins_witness :
  exists m,
    fst (getMaterials (houseRequests true ++ houseRequests false) ∅)
      !! 0%nat = Some m /\
    fst (getMaterials (houseRequests true ++ houseRequests false) ∅)
      !! 2%nat = Some m /\
    ((∅ : gmap string Material) !! "building"%string = None ->
     exists first,
       firstRequest "building" (houseRequests true ++ houseRequests false) =
         Some first /\ m = first tt).
Proof.
  exact (getMaterial_first_request_wins
           (houseRequests true ++ houseRequests false) ∅ 0 2 "building"
           (fun _ => mkMaterial 0xcc8866 0.7 0.1 false)
           (fun _ => mkMaterial 0xcc8866 0.7 0.1 true) eq_refl eq_refl).
Defined.

Lemma firstRequest_app key requests1 requests2 :
  firstRequest key (requests1 ++ requests2) =
    match firstRequest key requests1 with
    | Some f => Some f
    | None => firstRequest key requests2
    end.
Proof.
  induction requests1 as [|[key' f'] rest IH]; [done|].
  cbn [app firstRequest]. by destruct (decide (key' = key)).
Qed.

(** The first request for a key in the calls of a [forEach] over the
    positions is one of the high-detail model, if that model asks for the
    key at all. *)
Lemma firstRequest_lod requests n key :
  (forall f, firstRequest key (requests false) = Some f ->
             exists g, firstRequest key (requests true) = Some g) ->
  firstRequest key (lodRequests requests n) =
    match n with
    | O => None
    | S _ => firstRequest key (requests true)
    end.
Proof.
  intros Hsub. destruct n as [|n]; [done|].
  cbn [lodRequests]. rewrite firstRequest_app.
  destruct (firstRequest key (requests true)) as [g|] eqn:Hg; [done|].
  rewrite firstRequest_app.
  destruct (firstRequest key (requests false)) as [f|] eqn:Hf.
  { destruct (Hsub f eq_refl) as [g Hg']. congruence. }
  clear Hsub. induction n as [|n IH]; [done|].
  cbn [lodRequests]. rewrite !firstRequest_app, Hg, Hf. exact IH.
Qed.

Lemma firstRequest_flat requests key f :
  Forall (fun r => flatShading (snd r tt) = false) requests ->
  firstRequest key requests = Some f ->
  flatShading (f tt) = false.
Proof.
  induction 1 as [|[key' f'] rest Hhead _ IH]; [done|].
  cbn [firstRequest]. destruct (decide (key' = key)).
  - intros [= <-]. exact Hhead.
  - exact IH.
Qed.

(** X17: in a village of any number of houses and trees, made with a
    cache that is empty at the start, no material that [createHouse] or
    [createTree] gets is flat-shaded: the medium-detail models ask for
    [flatShading: true], and get the materials of the high-detail ones. *)
Theorem medium_detail_never_flat_shaded houses trees :
  Forall (fun m => flatShading m = false)
    (fst (getMaterials (villageRequests houses trees) ∅)).
Proof.
  apply Forall_lookup_2. intros i m Hm.
  assert (i < length (villageRequests houses trees))%nat as Hi.
  { rewrite <- (getMaterials_length _ ∅). by eapply lookup_lt_Some. }
  destruct (lookup_lt_is_Some_2 _ _ Hi) as [[key f] Hreq].
  destruct (getMaterials_lookup _ ∅ i key f Hreq)
    as (first & Hfirst & Hlook).
  rewrite Hm, lookup_empty in Hlook. injection Hlook as ->.
  unfold villageRequests in Hfirst. rewrite firstRequest_app in Hfirst.
  assert (forall n g,
            firstRequest key (lodRequests houseRequests n) = Some g ->
            flatShading (g tt) = false) as Hhouse.
  { intros n g. rewrite firstRequest_lod.
    - destruct n; [done|].
      apply firstRequest_flat. by repeat constructor.
    - intros f0. cbn [houseRequests firstRequest].
      repeat destruct (decide _); try done; by eexists. }
  assert (forall n g,
            firstRequest key (lodRequests treeRequests n) = Some g ->
            flatShading (g tt) = false) as Htree.
  { intros n g. rewrite firstRequest_lod.
    - destruct n; [done|].
      apply firstRequest_flat. by repeat constructor.
    - intros f0. cbn [treeRequests firstRequest].
      repeat destruct (decide _); try done; by eexists. }
  destruct (firstRequest key (lodRequests houseRequests houses)) as [g|] eqn:Hg.
  - injection Hfirst as <-. by apply (Hhouse houses).
  - by apply (Htree trees).
Qed.

End MaterialCache.

(** ** The limbs *)

Section Limbs.

Import Cast.

Lemma swingLimbs_some first swing children :
  (first + 4 <= length children)%nat ->
  exists leftArm rightArm leftLeg rightLeg,
    children !! first = Some leftArm /\
    children !! (first + 1)%nat = Some rightArm /\
    children !! (first + 2)%nat = Some leftLeg /\
    children !! (first + 3)%nat = Some rightLeg /\
    swingLimbs first swing children =
      Some (<[(first + 3)%nat := turn rightLeg swing]>
              (<[(first + 2)%nat := turn leftLeg (- swing)]>
                 (<[(first + 1)%nat := turn rightArm (- swing)]>
                    (<[first := turn leftArm swing]> children)))).
Proof.
  intros Hlen.
  destruct (lookup_lt_is_Some_2 children first ltac:(lia)) as [a Ha].
  destruct (lookup_lt_is_Some_2 children (first + 1) ltac:(lia)) as [b Hb].
  destruct (lookup_lt_is_Some_2 children (first + 2) ltac:(lia)) as [c Hc].
  destruct (lookup_lt_is_Some_2 children (first + 3) ltac:(lia)) as [d Hd].
  exists a, b, c, d. unfold swingLimbs. by rewrite Ha, Hb, Hc, Hd.
Qed.

Lemma map_part_turn children i c angle :
  children !! i = Some c ->
  map part (<[i := turn c angle]> children) = map part children.
Proof.
  intros Hc. rewrite list_fmap_insert. apply list_insert_id.
  by rewrite list_lookup_fmap, Hc.
Qed.

(** One limb block: what it leaves and what it writes. *)
Lemma swingLimbs_limbs first swing children :
  (first + 4 <= length children)%nat ->
  exists children',
    swingLimbs first swing children = Some children' /\
    length children' = length children /\
    map part children' = map part children /\
    (forall i, (i < first \/ first + 4 <= i)%nat ->
               children' !! i = children !! i) /\
    rotationX <$> children' !! first = Some swing /\
    rotationX <$> children' !! (first + 1)%nat = Some (- swing) /\
    rotationX <$> children' !! (first + 2)%nat = Some (- swing) /\
    rotationX <$> children' !! (first + 3)%nat = Some swing.
Proof.
  intros Hlen.
  destruct (swingLimbs_some first swing children Hlen)
    as (a & b & c & d & Ha & Hb & Hc & Hd & ->).
  eexists. split; [reflexivity|].
  split; [by rewrite !length_insert|].
  split.
  { rewrite !map_part_turn; [done|..];
      by rewrite ?list_lookup_insert_ne by lia. }
  split.
  { intros i Hi. by rewrite !list_lookup_insert_ne by lia. }
  split.
  { rewrite !list_lookup_insert_ne by lia.
    by rewrite list_lookup_insert_eq by lia. }
  split.
  { rewrite !list_lookup_insert_ne by lia.
    by rewrite list_lookup_insert_eq by (rewrite ?length_insert; lia). }
  split.
  { rewrite !list_lookup_insert_ne by lia.
    by rewrite list_lookup_insert_eq by (rewrite ?length_insert; lia). }
  by rewrite list_lookup_insert_eq by (rewrite ?length_insert; lia).
Qed.

Lemma swingLimbs_none first swing children :
  (length children < first + 4)%nat ->
  swingLimbs first swing children = None.
Proof.
  intros Hlen. unfold swingLimbs.
  rewrite (lookup_ge_None_2 children (first + 3)) by lia.
  by destruct (children !! first), (children !! (first + 1)%nat),
       (children !! (first + 2)%nat).
Qed.

(** The limb blocks of a run of frames that ends at the time [t]. *)
Lemma runLimbs_limbs first freq amp times t children :
  (first + 4 <= length children)%nat ->
  exists children',
    runLimbs first freq amp (times ++ [t]) children = Some children' /\
    map part children' = map part children /\
    (forall i, (i < first \/ first + 4 <= i)%nat ->
               children' !! i = children !! i) /\
    rotationX <$> children' !! first = Some (sin (t * freq) * amp) /\
    rotationX <$> children' !! (first + 1)%nat =
      Some (- (sin (t * freq) * amp)) /\
    rotationX <$> children' !! (first + 2)%nat =
      Some (- (sin (t * freq) * amp)) /\
    rotationX <$> children' !! (first + 3)%nat =
      Some (sin (t * freq) * amp).
Proof.
  revert children.
  induction times as [|t0 times IH]; intros children Hlen.
  - destruct (swingLimbs_limbs first (sin (t * freq) * amp) children Hlen)
      as (children' & Hswing & _ & Hparts & Hframe & Hrot).
    exists children'. cbn [app runLimbs]. by rewrite Hswing.
  - destruct (swingLimbs_limbs first (sin (t0 * freq) * amp) children Hlen)
      as (children1 & Hswing & Hlen1 & Hparts1 & Hframe1 & _).
    destruct (IH children1 ltac:(lia))
      as (children' & Hrun & Hparts & Hframe & Hrot).
    exists children'. cbn [app runLimbs]. rewrite Hswing.
    split; [exact Hrun|]. split; [congruence|].
    split; [|exact Hrot].
    intros i Hi. by rewrite Hframe, Hframe1.
Qed.

(** X18: the limb block of [animateCharacters] throws on a group with
    fewer than [first + 4] children.  On any other group, and after any
    number of frames, the four children from [first] on have the swing of
    the last frame as their [rotation.x], the two middle ones negated;
    every other child is as it was, and no child has become another
    part. *)
Theorem limbs_follow_the_last_frame first freq amp times t children :
  match runLimbs first freq amp (times ++ [t]) children with
  | Some children' =>
      (first + 4 <= length children)%nat /\
      map part children' = map part children /\
      (forall i, (i < first \/ first + 4 <= i)%nat ->
                 children' !! i = children !! i) /\
      rotationX <$> children' !! first = Some (sin (t * freq) * amp) /\
      rotationX <$> children' !! (first + 1)%nat =
        Some (- (sin (t * freq) * amp)) /\
      rotationX <$> children' !! (first + 2)%nat =
        Some (- (sin (t * freq) * amp)) /\
      rotationX <$> children' !! (first + 3)%nat =
        Some (sin (t * freq) * amp)
  | None => (length children < first + 4)%nat
  end.
Proof.
  destruct (le_lt_dec (first + 4) (length children)) as [Hlen|Hlen].
  - destruct (runLimbs_limbs first freq amp times t children Hlen)
      as (children' & -> & H).
    by split.
  - assert (runLimbs first freq amp (times ++ [t]) children = None) as ->;
      [|exact Hlen].
    destruct times as [|t0 times]; cbn [app runLimbs];
      by rewrite swingLimbs_none.
Qed.

(** The group of Santa, the four children from the seventh on being
    turned by [a], [b], [c] and [d]. *)
Lemma runLimbs_santa times t a b c d :
  runLimbs santaFirstLimb 4 0.3 (times ++ [t])
    [ mkChild Body 0; mkChild Head 0; mkChild Beard 0; mkChild Hat 0;
      mkChild PomPom 0; mkChild LeftArm 0; mkChild RightArm a;
      mkChild LeftLeg b; mkChild RightLeg c; mkChild Belt d;
      mkChild Buckle 0; mkChild Bag 0 ] =
  Some
    [ mkChild Body 0; mkChild Head 0; mkChild Beard 0; mkChild Hat 0;
      mkChild PomPom 0; mkChild LeftArm 0;
      mkChild RightArm (sin (t * 4) * 0.3);
      mkChild LeftLeg (- (sin (t * 4) * 0.3));
      mkChild RightLeg (- (sin (t * 4) * 0.3));
      mkChild Belt (sin (t * 4) * 0.3);
      mkChild Buckle 0; mkChild Bag 0 ].
Proof.
  revert a b c d. induction times as [|t0 times IH]; intros a b c d.
  - reflexivity.
  - cbn [app runLimbs].
    change (swingLimbs santaFirstLimb (sin (t0 * 4) * 0.3) _)
      with (Some
              [ mkChild Body 0; mkChild Head 0; mkChild Beard 0;
                mkChild Hat 0; mkChild PomPom 0; mkChild LeftArm 0;
                mkChild RightArm (sin (t0 * 4) * 0.3);
                mkChild LeftLeg (- (sin (t0 * 4) * 0.3));
                mkChild RightLeg (- (sin (t0 * 4) * 0.3));
                mkChild Belt (sin (t0 * 4) * 0.3);
                mkChild Buckle 0; mkChild Bag 0 ]).
    apply IH.
Qed.

Lemma runLimbs_elf times t a b c d :
  runLimbs elfFirstLimb 5 0.5 (times ++ [t])
    [ mkChild Body 0; mkChild Head 0; mkChild Hat 0;
      mkChild LeftArm a; mkChild RightArm b;
      mkChild LeftLeg c; mkChild RightLeg d ] =
  Some
    [ mkChild Body 0; mkChild Head 0; mkChild Hat 0;
      mkChild LeftArm (sin (t * 5) * 0.5);
      mkChild RightArm (- (sin (t * 5) * 0.5));
      mkChild LeftLeg (- (sin (t * 5) * 0.5));
      mkChild RightLeg (sin (t * 5) * 0.5) ].
Proof.
  revert a b c d. induction times as [|t0 times IH]; intros a b c d.
  - reflexivity.
  - cbn [app runLimbs].
    change (swingLimbs elfFirstLimb (sin (t0 * 5) * 0.5) _)
      with (Some
              [ mkChild Body 0; mkChild Head 0; mkChild Hat 0;
                mkChild LeftArm (sin (t0 * 5) * 0.5);
                mkChild RightArm (- (sin (t0 * 5) * 0.5));
                mkChild LeftLeg (- (sin (t0 * 5) * 0.5));
                mkChild RightLeg (sin (t0 * 5) * 0.5) ]).
    apply IH.
Qed.

(** X19: the limbs that the frames move.  Of an elf they are the two arms
    and the two legs.  Of Santa they are the right arm, the two legs and
    the belt: the left arm stays as [createSanta] made it, the belt loses
    its quarter turn and swings, and the right arm and the legs swing with
    the signs of the limb before them. *)
Theorem santa_swings_his_belt times t :
  runLimbs elfFirstLimb 5 0.5 (times ++ [t]) elfChildren =
    Some
      [ mkChild Body 0; mkChild Head 0; mkChild Hat 0;
        mkChild LeftArm (sin (t * 5) * 0.5);
        mkChild RightArm (- (sin (t * 5) * 0.5));
        mkChild LeftLeg (- (sin (t * 5) * 0.5));
        mkChild RightLeg (sin (t * 5) * 0.5) ] /\
  runLimbs santaFirstLimb 4 0.3 (times ++ [t]) santaChildren =
    Some
      [ mkChild Body 0; mkChild Head 0; mkChild Beard 0; mkChild Hat 0;
        mkChild PomPom 0; mkChild LeftArm 0;
        mkChild RightArm (sin (t * 4) * 0.3);
        mkChild LeftLeg (- (sin (t * 4) * 0.3));
        mkChild RightLeg (- (sin (t * 4) * 0.3));
        mkChild Belt (sin (t * 4) * 0.3);
        mkChild Buckle 0; mkChild Bag 0 ].
Proof.
  split; [apply runLimbs_elf | apply runLimbs_santa].
Qed.

End Limbs.

(** ** The frame counter *)

Section FrameCounter.

Import Monitor.

Lemma steady_S t0 d n :
  steady t0 d (S n) = steady t0 d n ++ [t0 + INR (S n) * d].
Proof. unfold steady. by rewrite seq_S, map_app. Qed.

(** The counter after [n] frames that are [d] apart: it was last reset at
    the frame [j], and has seen [k] frames since. *)
Lemma beginFrames_steady t0 d f0 n :
  0 < d ->
  exists j k : nat,
    n = (j + k)%nat /\
    INR k * d <= 1000 /\
    (j = 0%nat \/ 1000 < INR j * d) /\
    beginFrames (steady t0 d n) (mkMonitor t0 0 f0) =
      mkMonitor (t0 + INR j * d) k
        (match j with O => f0 | S _ => Math_round (1000 / d) end).
Proof.
  intros Hd. induction n as [|n (j & k & Hn & Hk & Hj & IH)].
  - exists 0%nat, 0%nat. cbn. repeat split; [lra | by left | ].
    f_equal. lra.
  - rewrite steady_S. unfold beginFrames in *. rewrite fold_left_app, IH.
    cbn [fold_left]. unfold beginFrame. cbn [lastTime frames fps].
    assert (INR (S n) = INR j + INR (S k)) as HSn.
    { rewrite Hn, <- plus_INR. f_equal. lia. }
    assert (0 < INR (S k)) as HSk by (apply lt_0_INR; lia).
    unfold gtb. destruct (Rlt_dec 1000 (INR (S k) * d)) as [Hlt|Hge].
    + rewrite (proj2 (ltb_true _ _)) by (rewrite HSn; lra).
      exists (S n), 0%nat. split; [lia|]. split; [cbn; lra|]. split.
      * right. rewrite HSn. pose proof (pos_INR j). nra.
      * f_equal; try lra. f_equal. rewrite HSn.
        replace (t0 + (INR j + INR (S k)) * d - (t0 + INR j * d))
          with (INR (S k) * d) by lra.
        field. lra.
    + rewrite (proj2 (ltb_false _ _)) by (rewrite HSn; lra).
      exists j, (S k). split; [lia|]. split; [lra|]. by split.
Qed.

(** X20: at a steady rate, the frames being [d] milliseconds apart, the
    counter shows its first value for as long as the frames fill no more
    than a second, and [Math.round(1000 / d)] from the first frame past
    the second on. *)
Theorem fps_at_a_steady_rate t0 d f0 n :
  0 < d ->
  fps (beginFrames (steady t0 d n) (mkMonitor t0 0 f0)) =
    if gtb (INR n * d) 1000 then Math_round (1000 / d) else f0.
Proof.
  intros Hd.
  destruct (beginFrames_steady t0 d f0 n Hd)
    as (j & k & Hn & Hk & Hj & ->).
  cbn [fps]. unfold gtb.
  assert (INR n = INR j + INR k) as HN by (by rewrite Hn, plus_INR).
  pose proof (pos_INR j) as Hj0. pose proof (pos_INR k) as Hk0.
  destruct Hj as [->|Hj].
  - rewrite (proj2 (ltb_false _ _)); [done|]. cbn [INR] in HN. nra.
  - rewrite (proj2 (ltb_true _ _)) by nra.
    destruct j; [cbn [INR] in Hj; lra | done].
Qed.

Lemma fps_at_a_steady_rate_witness :
  0 < 20 /\
  fps (beginFrames (steady 0 20 51) (mkMonitor 0 0 0)) =
    if gtb (INR 51 * 20) 1000 then Math_round (1000 / 20) else 0%Z.
Proof.
  split; [lra|]. apply (fps_at_a_steady_rate 0 20 0 51). lra.
Defined.

End FrameCounter.

(** ** The frames of the secondary updates *)

Section EvenSeconds.

Import Frame.

(** X21: [animate] runs the secondary updates in the frames in which the
    clock has reached an even number of seconds within the last time
    step: [time % 2 < deltaTime] holds exactly when some even number of
    seconds lies after [time - deltaTime] and not after [time]. *)
Theorem frameSkip_even_second time deltaTime :
  0 <= time ->
  frameSkip time deltaTime = true <->
  exists q : nat, time - deltaTime < 2 * INR q <= time.
Proof.
  intros Htime.
  destruct (base_Int_part (time / 2)) as [Hlo Hhi].
  set (z := Int_part (time / 2)) in *.
  assert (0 <= z)%Z as Hz.
  { apply Z.lt_succ_r, lt_IZR. rewrite succ_IZR. lra. }
  assert (IZR z = INR (Z.to_nat z)) as Hq.
  { by rewrite INR_IZR_INZ, Z2Nat.id. }
  assert (jsRem time 2 = time - 2 * IZR z) as Hrem.
  { replace time with (2 * IZR z + (time - 2 * IZR z)) at 1 by lra.
    apply jsRem_2; [done | lra]. }
  unfold frameSkip. rewrite ltb_true, Hrem. split.
  - intros Hlt. exists (Z.to_nat z). rewrite <- Hq. lra.
  - intros [q [Hq1 Hq2]].
    assert (INR q < IZR z + 1) as Hlt by lra.
    rewrite INR_IZR_INZ, <- succ_IZR in Hlt. apply lt_IZR in Hlt.
    assert (INR q <= IZR z) as Hle.
    { rewrite INR_IZR_INZ. apply IZR_le. lia. }
    lra.
Qed.

Lemma frameSkip_even_second_witness :
  0 <= 4.01 /\
  (frameSkip 4.01 (1 / 60) = true <->
   exists q : nat, 4.01 - 1 / 60 < 2 * INR q <= 4.01).
Proof.
  split; [lra|]. apply (frameSkip_even_second 4.01 (1 / 60)). lra.
Defined.

End EvenSeconds.

(** ** Placing the trees *)

Section TreePlacement.

Import Trees.

Lemma planar_self x z : planar x z (x, z) = 0.
Proof.
  unfold planar. cbn [fst snd].
  replace ((x - x) * (x - x) + (z - z) * (z - z)) with 0 by ring.
  exact sqrt_0.
Qed.

Lemma forallb_apart x z (ps : list (R * R)) :
  forallb (fun p => negb (ltb (planar x z p) minDistance)) ps = true ->
  Forall (fun p => minDistance <= planar x z p) ps.
Proof.
  induction ps as [|p ps IH]; cbn [forallb]; [by constructor|].
  intros [Hp Hps]%andb_true_iff. constructor; [|by apply IH].
  apply negb_true_iff, ltb_false in Hp. exact Hp.
Qed.

Lemma validPosition_apart x z houses treePositions :
  validPosition x z houses treePositions = true ->
  Forall (fun h => minDistance <= planar x z h) houses /\
  Forall (fun t => minDistance <= planar x z t) treePositions.
Proof.
  unfold validPosition. intros [Hh Ht]%andb_true_iff.
  split; by apply forallb_apart.
Qed.

(** A position that is the one of a tree placed before is not valid. *)
Lemma validPosition_taken x z houses treePositions :
  (x, z) ∈ treePositions ->
  validPosition x z houses treePositions = false.
Proof.
  intros Hin. unfold validPosition. apply andb_false_iff. right.
  induction treePositions as [|p ps IH]; [by apply elem_of_nil in Hin|].
  cbn [forallb]. apply elem_of_cons in Hin as [<-|Hin].
  - rewrite planar_self. unfold minDistance. by rdecide.
  - rewrite (IH Hin). apply andb_false_r.
Qed.

(** One tree, when the loop ends. *)
Lemma placeTree_placed fuel houses treePositions g p g' :
  Rng.unit_draws g ->
  placeTree fuel houses treePositions g = (Some p, g') ->
  Rng.unit_draws g' /\
  validPosition (fst p) (snd p) houses treePositions = true /\
  -45 <= fst p < 45 /\ -45 <= snd p < 45.
Proof.
  revert g. induction fuel as [|fuel IH]; intros g Hg; [done|].
  cbn [placeTree]. unfold Rng.bind, Rng.Math_random, Rng.ret.
  pose proof (Hg 0%nat) as H0. pose proof (Hg 1%nat) as H1.
  destruct (validPosition ((g 0%nat - 0.5) * 90) ((g 1%nat - 0.5) * 90)
              houses treePositions) eqn:Hvalid.
  - intros [= <- <-]. cbn [fst snd].
    split; [intros n; apply Hg|]. split; [exact Hvalid|]. lra.
  - apply IH. intros n. apply Hg.
Qed.

(** With the same draw for ever, the loop finds for the second tree the
    position of the first, again and again. *)
Lemma placeTree_stuck fuel houses treePositions c :
  ((c - 0.5) * 90, (c - 0.5) * 90) ∈ treePositions ->
  fst (placeTree fuel houses treePositions (Rng.const c)) = None.
Proof.
  intros Hin. induction fuel as [|fuel IH]; [done|].
  cbn [placeTree]. unfold Rng.bind, Rng.Math_random, Rng.ret.
  change (Rng.const c 0%nat) with c.
  change (fun n : nat => Rng.const c (S (S n))) with (Rng.const c).
  by rewrite (validPosition_taken _ _ _ _ Hin).
Qed.

Lemma placeTree_const fuel houses treePositions c p g' :
  placeTree fuel houses treePositions (Rng.const c) = (Some p, g') ->
  p = ((c - 0.5) * 90, (c - 0.5) * 90) /\ g' = Rng.const c.
Proof.
  induction fuel as [|fuel IH]; [done|].
  cbn [placeTree]. unfold Rng.bind, Rng.Math_random, Rng.ret.
  change (Rng.const c 0%nat) with c.
  change (fun n : nat => Rng.const c (S (S n))) with (Rng.const c).
  destruct (validPosition _ _ houses treePositions); [|exact IH].
  by intros [= <- <-].
Qed.

(** X22: when the placing of [n] trees ends, every tree it has added is
    at least 5 from every house, from every tree that was there and from
    every tree added before it, and within 45 of the origin along both
    axes. *)
Theorem trees_keep_their_distance fuel n houses treePositions g ps :
  Rng.unit_draws g ->
  fst (placeTrees fuel n houses treePositions g) = Some ps ->
  exists added,
    ps = treePositions ++ added /\
    length added = n /\
    wellPlaced houses treePositions added.
Proof.
  revert treePositions g.
  induction n as [|n IH]; intros treePositions g Hg.
  - cbn. intros [= <-]. exists []. by rewrite app_nil_r.
  - cbn [placeTrees]. unfold Rng.bind.
    destruct (placeTree fuel houses treePositions g) as [[p|] g1] eqn:Hp;
      [|done].
    destruct (placeTree_placed _ _ _ _ _ _ Hg Hp)
      as (Hg1 & Hvalid & Hx & Hz).
    destruct (validPosition_apart _ _ _ _ Hvalid) as [Hh Ht].
    intros Hrest. destruct (IH _ _ Hg1 Hrest) as (more & -> & Hlen & Hmore).
    exists (p :: more). split; [by rewrite <- app_assoc|].
    split; [by cbn; rewrite Hlen|].
    cbn [wellPlaced]. by repeat (split; [done|]).
Qed.

Lemma trees_keep_their_distance_witness :
  Rng.unit_draws (Rng.const 0.5) /\
  fst (placeTrees 1 1 [(8, 8)] [] (Rng.const 0.5)) =
    Some [((0.5 - 0.5) * 90, (0.5 - 0.5) * 90)] /\
  exists added,
    [((0.5 - 0.5) * 90, (0.5 - 0.5) * 90)] = [] ++ added /\
    length added = 1%nat /\
    wellPlaced [(8, 8)] [] added.
Proof.
  assert (Rng.unit_draws (Rng.const 0.5)) as Hg.
  { intros n. unfold Rng.const. lra. }
  assert (fst (placeTrees 1 1 [(8, 8)] [] (Rng.const 0.5)) =
            Some [((0.5 - 0.5) * 90, (0.5 - 0.5) * 90)]) as Hrun.
  { cbn [placeTrees placeTree].
    unfold Rng.bind, Rng.Math_random, Rng.ret, Rng.const. cbv beta.
    assert (validPosition ((0.5 - 0.5) * 90) ((0.5 - 0.5) * 90)
              [(8, 8)] [] = true) as ->; [|done].
    unfold validPosition, planar, minDistance. cbn [forallb fst snd].
    rewrite (proj2 (ltb_false _ _)); [done|].
    rewrite <- (sqrt_square 5) by lra. apply sqrt_le_1_alt. lra. }
  split; [exact Hg|]. split; [exact Hrun|].
  exact (trees_keep_their_distance 1 1 [(8, 8)] [] (Rng.const 0.5) _
           Hg Hrun).
Defined.

(** X23: the placing of the trees need not end.  With a [Math.random]
    that gives the same number for ever, the loop for the second tree
    tries the position of the first at every attempt: however many
    attempts it is given, no two trees are placed. *)
Theorem tree_placement_may_not_end fuel n houses c :
  fst (placeTrees fuel (S (S n)) houses [] (Rng.const c)) = None /\
  fst (generateTreePositions fuel houses (Rng.const c)) = None.
Proof.
  assert (forall n,
            fst (placeTrees fuel (S (S n)) houses [] (Rng.const c)) = None)
    as Hall; [clear n; intros n|by split; [apply Hall | apply (Hall 48%nat)]].
  cbn [placeTrees]. unfold Rng.bind.
  destruct (placeTree fuel houses [] (Rng.const c)) as [[p|] g1] eqn:Hp;
    [|done].
  destruct (placeTree_const _ _ _ _ _ _ Hp) as [-> ->].
  pose proof (placeTree_stuck fuel houses
                ([] ++ [((c - 0.5) * 90, (c - 0.5) * 90)]) c
                ltac:(set_solver)) as Hstuck.
  clear Hp. revert Hstuck. cbn [app].
  destruct (placeTree fuel houses [((c - 0.5) * 90, (c - 0.5) * 90)]
              (Rng.const c)) as [[q|] g2];
    [intros Hs; cbn [fst] in Hs; discriminate Hs | reflexivity].
Qed.

End TreePlacement.
